(** * A shallow embedding of the borderless/router matching engine

    The development follows [src/index.ts]: the segment parser [parse], the
    match compiler [createMatch], the route sorter [buildRoutes], the trie
    builder [addToTrie] and the enumerator [build] of [createRouter].

    Conventions of the embedding.
    - A JavaScript string is a [string] of this file: the sequence of its
      UTF-16 code units, as the source indexes, slices and compares
      strings ([route[i]], [slice], [indexOf], [>]).  A character outside
      the Basic Multilingual Plane is two code units.
    - The character table of the regular expression in [parse] belongs to
      the language runtime; it is the parameter [NameTable].  The examples
      at the end of the file run on [sample_table], a part of it.
    - A thrown [TypeError] is a value of [Error]; a function that can throw
      returns [Error + _], with [inl] the exception.
    - A generator is the list of the values it yields, in order.
    - The file holds two versions of the engine.  [parse], [pathToKey],
      [buildRoutes] and the class [Node] are the same text in both and are
      embedded once; the earlier [createMatch], [addToTrie] and
      [createRouter] live in the module [Old]. *)

From Stdlib Require Import Strings.Ascii Strings.Byte.
From stdpp Require Import base list pretty sorting gmap.

Local Open Scope Z_scope.
Local Open Scope nat_scope.

Set Warnings "-register-all".

(** ** Strings *)

(** A UTF-16 code unit, by its number.  The units of a JavaScript string
    are below 65536; the engine never computes with a unit, it compares
    units, so nothing in the embedding depends on the bound. *)
Inductive char : Set := Char (code : N).

Definition code (c : char) : N := let 'Char n := c in n.

Global Instance char_eq_dec : EqDecision char.
Proof. solve_decision. Defined.

(** A JavaScript string: the sequence of its code units.  [s[i]],
    [s.length], [slice] and [indexOf] all count code units. *)
Inductive string : Set :=
  | EmptyString
  | String (c : char) (s : string).

Global Instance string_eq_dec : EqDecision string.
Proof. solve_decision. Defined.

(** String literals.  The text between the quotes is read as UTF-8 and
    stands for the string of its UTF-16 code units: one unit for a
    character of the Basic Multilingual Plane, a pair of surrogates for
    any other. *)
Module Literal.

Fixpoint units (l : list N) : list N :=
  match l with
  | [] => []
  | b0 :: l1 =>
      if (b0 <? 128)%N then b0 :: units l1
      else match l1 with
      | [] => [b0]
      | b1 :: l2 =>
          if (b0 <? 224)%N then ((b0 - 192) * 64 + (b1 - 128))%N :: units l2
          else match l2 with
          | [] => [b0; b1]
          | b2 :: l3 =>
              if (b0 <? 240)%N then
                ((b0 - 224) * 4096 + (b1 - 128) * 64 + (b2 - 128))%N :: units l3
              else match l3 with
              | [] => [b0; b1; b2]
              | b3 :: l4 =>
                  let v := ((b0 - 240) * 262144 + (b1 - 128) * 4096 +
                            (b2 - 128) * 64 + (b3 - 128) - 65536)%N in
                  (55296 + v / 1024)%N :: (56320 + v mod 1024)%N :: units l4
              end
          end
      end
  end.

Definition of_bytes (l : list byte) : string :=
  foldr (fun n s => String (Char n) s) EmptyString (units (Byte.to_N <$> l)).

Fixpoint to_bytes (s : string) : option (list byte) :=
  match s with
  | EmptyString => Some []
  | String (Char n) s' =>
      if (n <? 128)%N then
        match Byte.of_N n, to_bytes s' with
        | Some b, Some l => Some (b :: l)
        | _, _ => None
        end
      else None
  end.

Definition char_of_bytes (l : list byte) : option char :=
  match of_bytes l with
  | String c EmptyString => Some c
  | _ => None
  end.

Definition char_to_bytes (c : char) : option (list byte) :=
  to_bytes (String c EmptyString).

End Literal.

Declare Scope js_scope.
Delimit Scope js_scope with js.
Bind Scope js_scope with string.
String Notation string Literal.of_bytes Literal.to_bytes : js_scope.

Declare Scope unit_scope.
Delimit Scope unit_scope with unit.
Bind Scope unit_scope with char.
String Notation char Literal.char_of_bytes Literal.char_to_bytes : unit_scope.

Open Scope js_scope.

Module Str.

(** [s.length] *)
Fixpoint length (s : string) : nat :=
  match s with
  | "" => 0
  | String _ s' => S (length s')
  end.

(** [a + b] *)
Fixpoint app (a b : string) : string :=
  match a with
  | "" => b
  | String c a' => String c (app a' b)
  end.

(** The [m] code units of [s] from index [n] on, as far as there are any. *)
Fixpoint substring (n m : nat) (s : string) : string :=
  match n, m, s with
  | 0, 0, _ => ""
  | 0, S m', "" => s
  | 0, S m', String c s' => String c (substring 0 m' s')
  | S n', _, "" => s
  | S n', _, String c s' => substring n' m s'
  end.

(** [s.startsWith(p)] *)
Fixpoint prefix (p s : string) : bool :=
  match p, s with
  | "", _ => true
  | String _ _, "" => false
  | String c p', String d s' => bool_decide (c = d) && prefix p' s'
  end.

(** The least index from [n] on at which [pat] is in [s]. *)
Fixpoint index (n : nat) (pat s : string) : option nat :=
  match s, n with
  | "", 0 => if prefix pat s then Some 0 else None
  | "", S _ => None
  | String _ s', 0 => if prefix pat s then Some 0 else S <$> index 0 pat s'
  | String _ s', S n' => S <$> index n' pat s'
  end.

(** [ls.join(sep)] *)
Fixpoint concat (sep : string) (ls : list string) : string :=
  match ls with
  | [] => ""
  | [x] => x
  | x :: xs => app x (app sep (concat sep xs))
  end.

Fixpoint rev_app (s1 s2 : string) : string :=
  match s1 with
  | "" => s2
  | String c s1' => rev_app s1' (String c s2)
  end.

Definition rev (s : string) : string := rev_app s "".

(** Strings compared as the language compares them with [<] and [>]:
    code unit by code unit from the left, a proper prefix first. *)
Fixpoint compare (a b : string) : comparison :=
  match a, b with
  | "", "" => Eq
  | "", String _ _ => Lt
  | String _ _, "" => Gt
  | String c a', String d b' =>
      match (code c ?= code d)%N with
      | Eq => compare a' b'
      | r => r
      end
  end.

(** The text of an ASCII string of the standard library. *)
Fixpoint of_ascii (s : String.string) : string :=
  match s with
  | String.EmptyString => ""
  | String.String a s' => String (Char (N_of_ascii a)) (of_ascii s')
  end.

(** [`${i}`]: the decimal digits of [i]. *)
Definition of_nat (i : nat) : string := of_ascii (pretty i).

(** [s.slice(a, b)] for [0 <= a]; both ends are clamped to the length. *)
Definition slice (s : string) (a b : nat) : string := substring a (b - a) s.

(** [s.slice(a)] *)
Definition slice_from (s : string) (a : nat) : string :=
  substring a (length s - a) s.

(** [s.indexOf(pat, from)]; [None] stands for [-1].  The start position is
    clamped to the length, as the language defines it. *)
Definition indexOf (s pat : string) (from : nat) : option nat :=
  index (from `min` length s) pat s.

(** [s.split(sep)] for a one-character separator: never an empty list. *)
Fixpoint split_go (sep : char) (cur : string) (s : string) : list string :=
  match s with
  | "" => [rev cur]
  | String c s' =>
      if decide (c = sep) then rev cur :: split_go sep "" s'
      else split_go sep (String c cur) s'
  end.
Definition split (sep : char) (s : string) : list string := split_go sep "" s.

(** [a > b] on strings. *)
Definition gtb (a b : string) : bool :=
  match compare a b with Gt => true | _ => false end.

End Str.

Arguments Str.app : simpl never.
Infix "+:+" := Str.app (at level 60, right associativity) : js_scope.

Global Instance string_countable : Countable string.
Proof.
  refine (inj_countable'
            (fix to_list s := match s with "" => [] | String c s' => code c :: to_list s' end)
            (fix of_list l := match l with [] => "" | n :: l' => String (Char n) (of_list l') end)
            _).
  intros s. induction s as [|[n] s IH]; [done|]. simpl. by rewrite IH.
Defined.

(** ** Data model *)

(** [type Path = (Parameter | string)[]] *)
Inductive Token : Type :=
  | Lit (text : string)
  | Param (name : string).

Global Instance Token_eq_dec : EqDecision Token.
Proof. solve_decision. Defined.

Abbreviation Path := (list Token).

(** The exceptions of the engine; each [TypeError] of the source is one
    constructor, and [message] is the text it carries. *)
Inductive Error : Type :=
  | AdjacentParameter (i : nat)
  | MissingName (i : nat)
  | MissingClose (i : nat)
  | InvalidNameChar (i : nat)
  | DuplicateRoute (route : string).

Global Instance Error_eq_dec : EqDecision Error.
Proof. solve_decision. Defined.

Definition message (e : Error) : string :=
  match e with
  | AdjacentParameter i =>
      "A parameter must not immediately follow another paramter at " +:+ Str.of_nat i
  | MissingName i => "Missing parameter name at " +:+ Str.of_nat i
  | MissingClose i => "Missing parameter name close character at " +:+ Str.of_nat i
  | InvalidNameChar i => "Invalid name character at " +:+ Str.of_nat i
  | DuplicateRoute route => "Route is already defined for " +:+ route
  end.

(** The position an error message cites ([DuplicateRoute] cites none). *)
Definition position (e : Error) : option nat :=
  match e with
  | AdjacentParameter i | MissingName i | MissingClose i | InvalidNameChar i => Some i
  | DuplicateRoute _ => None
  end.

(** ** Segment parser *)

(** Modelled from the spec: the character table behind the regular
    expression [/[\p{L}\p{N}]/u], said of one code unit, belongs to the
    language runtime and is not in the source; the spec calls it
    "letters/digits (any-language letters and digits; no punctuation)".
    The table is a parameter of the embedding: what is proved holds for
    every table. *)
Class NameTable := is_name_char : char → bool.

(** A surrogate: one half of the pair of code units that stands for a
    character outside the Basic Multilingual Plane. *)
Definition is_surrogate (c : char) : bool := (55296 <=? code c)%N && (code c <=? 57343)%N.

(** A part of the table, for the examples: the digits, the unaccented and
    accented Latin letters, the ordinal indicators, the micro sign, the
    superscript digits and the vulgar fractions below 256, and the CJK
    unified ideographs from U+4E00 to U+9FA5. *)
Definition sample_table : NameTable := fun c =>
  let n := code c in
  (((48 <=? n) && (n <=? 57)) || ((65 <=? n) && (n <=? 90)) ||
   ((97 <=? n) && (n <=? 122)) ||
   (n =? 170) || (n =? 178) || (n =? 179) || (n =? 181) || (n =? 185) ||
   (n =? 186) || ((188 <=? n) && (n <=? 190)) ||
   ((192 <=? n) && (n <=? 214)) || ((216 <=? n) && (n <=? 246)) ||
   ((248 <=? n) && (n <=? 255)) ||
   ((19968 <=? n) && (n <=? 40869)))%N.

(** [typeof path[path.length - 1] === "object"] *)
Definition last_is_param (path : Path) : bool :=
  match last path with Some (Param _) => true | _ => false end.

(** [if (typeof path[path.length - 1] !== "string") path.push("");
     path[path.length - 1] += char;] *)
Definition push_char (path : Path) (c : char) : Path :=
  match last path with
  | Some (Lit s) => <[pred (length path) := Lit (s +:+ String c "")]> path
  | _ => path ++ [Lit (String c "")]
  end.

(** The two nested loops of [parse] as one scan of the characters from
    index [i] on ([rest] is [route.slice(i)]).  [name = None] is the outer
    loop at its test [i < length]; [name = Some n] is the inner loop just
    after its [i++], about to read [route[i]], with [n] the name collected
    so far.  The inner loop's test [i++ < length] never fails: it is
    reached with [i < length] from the outer loop, and again only after
    the check [i === length] did not throw. *)
Fixpoint parse_loop {NT : NameTable} (rest : string) (i : nat) (path : Path) (name : option string)
  : Error + Path :=
  match name with
  | None =>
      match rest with
      | "" => inr path
      | String char rest' =>
          if decide (char = "["%unit) then
            if last_is_param path then inl (AdjacentParameter i)
            else parse_loop rest' (S i) path (Some "")
          else parse_loop rest' (S i) (push_char path char) None
      end
  | Some n =>
      match rest with
      | "" => inl (MissingClose i)
      | String char rest' =>
          if decide (char = "]"%unit) then
            if decide (n = "") then inl (MissingName i)
            else parse_loop rest' (S i) (path ++ [Param n]) None
          else if negb (is_name_char char) then inl (InvalidNameChar i)
          else parse_loop rest' (S i) path (Some (n +:+ String char ""))
      end
  end.

Definition parse {NT : NameTable} (route : string) : Error + Path := parse_loop route 0 [] None.

(** Re-serialization of a Segment Path: literal text as it is, a parameter
    as its name in brackets. *)
Definition token_text (t : Token) : string :=
  match t with
  | Lit s => s
  | Param n => "[" +:+ n +:+ "]"
  end.

Definition serialize (path : Path) : string :=
  foldr (fun t acc => token_text t +:+ acc) "" path.


(** ** Match compiler *)

(** [type Match = (pathname: string) => string[] | false]; [None] is [false]. *)
Abbreviation MatchFn := (string → option (list string)).

(** The loop of the function returned by [createMatch], from the token at
    index [i] on ([path] is here [path.slice(i)]).  The source reads the
    token after a parameter with the cast [path[i + 1] as string |
    undefined], under the comment "The part after a parameter is always a
    string, or the end of parts"; a parameter directly followed by a
    parameter is outside that precondition, [parse] never produces it, and
    the model answers [None] there.  Every statement about such a path is
    made under [delimited]. *)
Fixpoint match_loop (path : Path) (pathname : string) (offset : nat)
    (params : list string) : option (list string) :=
  match path with
  | [] => Some params
  | part :: path' =>
      if decide (Str.length pathname = offset) then None else
      match part with
      | Lit s =>
          if decide (Str.slice pathname offset (offset + Str.length s) ≠ s) then None
          else match_loop path' pathname (offset + Str.length s) params
      | Param _ =>
          match path' with
          | [] => Some (params ++ [Str.slice_from pathname offset])
          | Lit next :: path'' =>
              match Str.indexOf pathname next offset with
              | None => None
              | Some index =>
                  if decide (index = offset) then None
                  else match_loop path'' pathname (index + Str.length next)
                         (params ++ [Str.slice pathname offset index])
              end
          | Param _ :: _ => None
          end
      end
  end.

Definition createMatch (path : Path) : MatchFn :=
  if decide (length path = 0) then
    fun pathname => if decide (pathname = "") then Some [] else None
  else fun pathname => match_loop path pathname 0 [].

(** ** Trie *)

(** A [Match] stored in the trie is a closure: the model keeps the [path] it
    captured, and calls it through [createMatch].  [Map<Match, Node>]
    compares closures by identity.  [addToTrie] creates a closure only
    for a key the cache does not hold and stores it there, so among the
    closures of one cache the key a closure was created under is its
    identity: [fn_id].  That is the identity of the model; it is the
    identity of the source as long as every closure on an edge of the
    trie is the entry of the cache for its key ([trie_cached]), which
    holds from the empty trie and the empty cache on. *)
Record Match : Type := mkMatch { fn_id : string; fn_path : Path }.

(** [class Node]; a [Map] is the list of its entries in insertion order. *)
Inductive Node : Type :=
  mkNode {
    route : option string;
    keys : option (list string);
    static : list (string * Node);
    dynamic : list (Match * Node)
  }.

(** [new Node()] *)
Definition emptyNode : Node := mkNode None None [] [].

Section assoc.
Context {K V : Type} (same : K → K → bool).

(** [map.get(k)] *)
Fixpoint assoc_get (k : K) (m : list (K * V)) : option V :=
  match m with
  | [] => None
  | (k', v) :: m' => if same k' k then Some v else assoc_get k m'
  end.

(** The entry of [k] holds [v]: in place when [k] is a key of the map
    (the child found there has been mutated), at the end otherwise
    ([map.set(k, v)] with a new key). *)
Fixpoint assoc_set (k : K) (v : V) (m : list (K * V)) : list (K * V) :=
  match m with
  | [] => [(k, v)]
  | (k', v') :: m' => if same k' k then (k', v) :: m' else (k', v') :: assoc_set k v m'
  end.

End assoc.

(** The equality of keys of the two [Map]s: strings by value, closures by
    identity, which the model reads off [fn_id] (see [Match]). *)
Definition same_string (a b : string) : bool := bool_decide (a = b).
Definition same_fn (a b : Match) : bool := bool_decide (fn_id a = fn_id b).

(** [*match(value)]: the static child first, then the dynamic children
    whose function accepts [value], in insertion order. *)
Definition Node_match (createMatch : Path → MatchFn) (node : Node) (value : string)
  : list (list string * Node) :=
  match assoc_get same_string value (static node) with
  | Some child => [([], child)]
  | None => []
  end ++
  omap (fun '(fn, child) =>
          match createMatch (fn_path fn) value with
          | None => None
          | Some params => Some (params, child)
          end) (dynamic node).

(** [pathToKey(path, params)]: the key, and [params] after the pushes. *)
Definition pathToKey (path : Path) (params : list string) : string * list string :=
  let '(name, params) :=
    foldl (fun '(name, params) part =>
             match part with
             | Lit s => (name ++ [s], params)
             | Param n => (name ++ ["[]"], params ++ [n])
             end) ([], params) path in
  (Str.concat "|" name, params).

(** Errors are threaded as in the source: the first exception ends the call. *)
Definition bind {A B} (x : Error + A) (f : A → Error + B) : Error + B :=
  match x with
  | inl e => inl e
  | inr a => f a
  end.

Notation "x ←! y ; z" := (bind y (fun x => z))
  (at level 20, y at level 100, z at level 200, only parsing).
Notation "' x ←! y ; z" := (bind y (fun x => z))
  (at level 20, x pattern, y at level 100, z at level 200, only parsing).

Abbreviation Cache := (gmap string Match).

(** [addToTrie] from the node the walk has reached.  The source walks down
    with [node = node.addStatic(..)] / [node = node.addDynamic(..)] and
    mutates the last node; the trie owns its nodes and nothing else points
    to them, so the model rebuilds the nodes on the way back: the child a
    step reaches is the one stored in the map or a new [Node], and after
    the rest of the walk it sits in the map under the same key. *)
Fixpoint addToTrie_from (node : Node) (paths : list Path) (rt : string)
    (params : list string) (cache : Cache) : Error + (Node * Cache) :=
  match paths with
  | [] =>
      match route node with
      | Some _ => inl (DuplicateRoute rt)
      | None => inr (mkNode (Some rt) (Some params) (static node) (dynamic node), cache)
      end
  | path :: paths' =>
      let addStatic value :=
        let child := default emptyNode (assoc_get same_string value (static node)) in
        '(child, cache) ←! addToTrie_from child paths' rt params cache;
        inr (mkNode (route node) (keys node)
               (assoc_set same_string value child (static node)) (dynamic node), cache) in
      match path with
      | [] => addStatic ""
      | [Lit s] => addStatic s
      | _ =>
          let '(key, params) := pathToKey path params in
          let fn := default (mkMatch key path) (cache !! key) in
          let cache := <[key := fn]> cache in
          let child := default emptyNode (assoc_get same_fn fn (dynamic node)) in
          '(child, cache) ←! addToTrie_from child paths' rt params cache;
          inr (mkNode (route node) (keys node) (static node)
                 (assoc_set same_fn fn child (dynamic node)), cache)
      end
  end.

Definition addToTrie (root : Node) (paths : list Path) (rt : string) (cache : Cache)
  : Error + (Node * Cache) :=
  addToTrie_from root paths rt [] cache.

(** ** Route sorter *)

(** [typeof x] for [x] a token or [undefined] (an index past the end). *)
Inductive JsType : Type := TString | TObject | TUndefined.

Global Instance JsType_eq_dec : EqDecision JsType.
Proof. solve_decision. Defined.

Definition typeof (x : option Token) : JsType :=
  match x with
  | Some (Lit _) => TString
  | Some (Param _) => TObject
  | None => TUndefined
  end.

(** The inner loop [for (let j = 0; j < length; j++)] of the comparator,
    with [todo = length - j] iterations to go.  [Some r] is [return r];
    [None] is the loop running to its end. *)
Fixpoint compare_tokens (pathsA pathsB : Path) (j todo : nat) : option Z :=
  match todo with
  | 0 => None
  | S todo' =>
      let typeofA := typeof (pathsA !! j) in
      let typeofB := typeof (pathsB !! j) in
      if decide (typeofA ≠ typeofB) then
        Some (if decide (typeofA = TString) then -1
              else if decide (typeofB = TObject) then -1 else 1)%Z
      else
        match pathsA !! j, pathsB !! j with
        | Some (Lit x), Some (Lit y) =>
            if decide (x ≠ y) then Some (if Str.gtb x y then 1 else -1)%Z
            else compare_tokens pathsA pathsB (S j) todo'
        | _, _ => compare_tokens pathsA pathsB (S j) todo'
        end
  end.

(** The outer loop [for (let i = 0; i < a.length; i++)], with
    [todo = a.length - i]. *)
Fixpoint compare_segments (a b : list Path) (i todo : nat) : option Z :=
  match todo with
  | 0 => None
  | S todo' =>
      let pathsA := default [] (a !! i) in
      let pathsB := default [] (b !! i) in
      match compare_tokens pathsA pathsB 0 (length pathsA `max` length pathsB) with
      | Some r => Some r
      | None => compare_segments a b (S i) todo'
      end
  end.

(** The comparator handed to [sort]. *)
Definition compare (a b : list Path) : Z :=
  if decide (length a ≠ length b) then (Z.of_nat (length a) - Z.of_nat (length b))%Z
  else default 0%Z (compare_segments a b 0 (length a)).

(** [Array.prototype.sort(cmp)] is the language runtime's.  The language
    defines it as a stable sort, and that is what the model is: a stable
    insertion sort.  [x] goes before the first element it does not
    compare greater than. *)
Fixpoint sort_insert {A} (cmp : A → A → Z) (x : A) (l : list A) : list A :=
  match l with
  | [] => [x]
  | y :: l' => if decide (cmp x y ≤ 0)%Z then x :: l else y :: sort_insert cmp x l'
  end.

Definition sort {A} (cmp : A → A → Z) (l : list A) : list A :=
  foldr (sort_insert cmp) [] l.

(** [xs.map(f)] for an [f] that can throw. *)
Fixpoint try_map {A B} (f : A → Error + B) (l : list A) : Error + list B :=
  match l with
  | [] => inr []
  | x :: l' => y ←! f x; ys ←! try_map f l'; inr (y :: ys)
  end.

(** [route.split("/").map((x) => parse(x))] *)
Definition segments {NT : NameTable} (rt : string) : Error + list Path :=
  try_map parse (Str.split "/" rt).

(** The comparator as [sort] receives it, on the pairs [[route, paths]]. *)
Definition compare_entries (x y : string * list Path) : Z := compare x.2 y.2.

Definition buildRoutes {NT : NameTable} (inputs : list string) : Error + list (string * list Path) :=
  entries ←! try_map (fun rt => paths ←! segments rt; inr (rt, paths)) inputs;
  inr (sort compare_entries entries).

(** ** Router *)

(** [interface Result] *)
Record Result : Type :=
  mkResult { result_route : string; result_keys : list string; result_values : list string }.

Global Instance Result_eq_dec : EqDecision Result.
Proof. solve_decision. Defined.

Abbreviation Router := (string → list Result).

(** The loop [for (const [route, paths] of routes) addToTrie(..)] of
    [createRouter]. *)
Fixpoint addRoutes (add : Node → list Path → string → Cache → Error + (Node * Cache))
    (root : Node) (cache : Cache) (routes : list (string * list Path))
  : Error + (Node * Cache) :=
  match routes with
  | [] => inr (root, cache)
  | (rt, paths) :: routes' =>
      '(root, cache) ←! add root paths rt cache;
      addRoutes add root cache routes'
  end.

(** The trie [createRouter] has built when it returns. *)
Definition buildTrie {NT : NameTable} (inputs : list string) : Error + Node :=
  routes ←! buildRoutes inputs;
  '(root, _) ←! addRoutes addToTrie emptyNode ∅ routes;
  inr root.

(** The generator [build(node, index, segments, values)]; the list
    [segments] of the model is [segments.slice(index)] of the source, and
    [values] is the content of the shared buffer, which the source
    extends before a recursive call and truncates after it. *)
Fixpoint build (node : Node) (segments : list string) (values : list string)
  : list Result :=
  match segments with
  | [] =>
      match route node with
      | Some rt => [mkResult rt (default [] (keys node)) values]
      | None => []
      end
  | segment :: segments' =>
      '(params, child) ← Node_match createMatch node segment;
      build child segments' (values ++ params)
  end.

Definition createRouter {NT : NameTable} (inputs : list string) : Error + Router :=
  root ←! buildTrie inputs;
  inr (fun pathname => build root (Str.split "/" pathname) []).

(** ** The earlier version of the engine (lines 1-302 of the source) *)

Module Old.

(** The loop of the earlier [createMatch]: the test for an exhausted input
    comes after the literal case, and there is no case for an empty path. *)
Fixpoint match_loop (path : Path) (pathname : string) (offset : nat)
    (params : list string) : option (list string) :=
  match path with
  | [] => Some params
  | Lit s :: path' =>
      if decide (Str.slice pathname offset (offset + Str.length s) ≠ s) then None
      else match_loop path' pathname (offset + Str.length s) params
  | Param _ :: path' =>
      if decide (Str.length pathname = offset) then None else
      match path' with
      | [] => Some (params ++ [Str.slice_from pathname offset])
      | Lit next :: path'' =>
          match Str.indexOf pathname next offset with
          | None => None
          | Some index =>
              if decide (index = offset) then None
              else match_loop path'' pathname (index + Str.length next)
                     (params ++ [Str.slice pathname offset index])
          end
      | Param _ :: _ => None
      end
  end.

Definition createMatch (path : Path) : MatchFn :=
  fun pathname => match_loop path pathname 0 [].

(** The earlier [addToTrie]: an empty Segment Path is a dynamic segment. *)
Fixpoint addToTrie_from (node : Node) (paths : list Path) (rt : string)
    (params : list string) (cache : Cache) : Error + (Node * Cache) :=
  match paths with
  | [] =>
      match route node with
      | Some _ => inl (DuplicateRoute rt)
      | None => inr (mkNode (Some rt) (Some params) (static node) (dynamic node), cache)
      end
  | path :: paths' =>
      match path with
      | [Lit s] =>
          let child := default emptyNode (assoc_get same_string s (static node)) in
          '(child, cache) ←! addToTrie_from child paths' rt params cache;
          inr (mkNode (route node) (keys node)
                 (assoc_set same_string s child (static node)) (dynamic node), cache)
      | _ =>
          let '(key, params) := pathToKey path params in
          let fn := default (mkMatch key path) (cache !! key) in
          let cache := <[key := fn]> cache in
          let child := default emptyNode (assoc_get same_fn fn (dynamic node)) in
          '(child, cache) ←! addToTrie_from child paths' rt params cache;
          inr (mkNode (route node) (keys node) (static node)
                 (assoc_set same_fn fn child (dynamic node)), cache)
      end
  end.

Definition addToTrie (root : Node) (paths : list Path) (rt : string) (cache : Cache)
  : Error + (Node * Cache) :=
  addToTrie_from root paths rt [] cache.

Definition buildTrie {NT : NameTable} (inputs : list string) : Error + Node :=
  routes ←! buildRoutes inputs;
  '(root, _) ←! addRoutes addToTrie emptyNode ∅ routes;
  inr root.

(** The earlier generator [build(node, segments, values)]. *)
Fixpoint build (node : Node) (segments : list string) (values : list string)
  : list Result :=
  match segments with
  | [] =>
      match route node with
      | Some rt => [mkResult rt (default [] (keys node)) values]
      | None => []
      end
  | segment :: segments' =>
      '(params, child) ← Node_match createMatch node segment;
      build child segments' (values ++ params)
  end.

Definition createRouter {NT : NameTable} (inputs : list string) : Error + Router :=
  root ←! buildTrie inputs;
  inr (fun pathname => build root (Str.split "/" pathname) []).

End Old.

(** Running a router that may have failed to build: [None] when
    [createRouter] threw. *)
Definition run (router : Error + Router) (pathname : string) : option (list Result) :=
  match router with
  | inl _ => None
  | inr f => Some (f pathname)
  end.

Definition routes_of (rs : list Result) : list string := result_route <$> rs.

(** ** Well-formed Segment Paths

    The grammar of a segment pattern, read off the parser: literal text
    holds no opening bracket, a name is a non-empty run of name
    characters, and tokens of the same kind are never adjacent. *)

Fixpoint no_open (s : string) : bool :=
  match s with
  | "" => true
  | String c s' => negb (bool_decide (c = "["%unit)) && no_open s'
  end.

Fixpoint name_chars {NT : NameTable} (s : string) : bool :=
  match s with
  | "" => true
  | String c s' => negb (bool_decide (c = "]"%unit)) && is_name_char c && name_chars s'
  end.

Definition token_ok {NT : NameTable} (t : Token) : bool :=
  match t with
  | Lit s => negb (bool_decide (s = "")) && no_open s
  | Param n => negb (bool_decide (n = "")) && name_chars n
  end.

Definition is_param (t : Token) : bool :=
  match t with Param _ => true | Lit _ => false end.

(** No two neighbours of the same kind. *)
Fixpoint alternating (path : Path) : bool :=
  match path with
  | [] => true
  | t :: path' =>
      match path' with
      | [] => true
      | u :: _ => negb (bool_decide (is_param t = is_param u)) && alternating path'
      end
  end.

Definition canonical {NT : NameTable} (path : Path) : bool :=
  forallb token_ok path && alternating path.

(** The precondition of [createMatch]: after a parameter comes a literal
    or the end. *)
Fixpoint delimited (path : Path) : bool :=
  match path with
  | [] => true
  | t :: path' =>
      match t, path' with
      | Param _, Param _ :: _ => false
      | _, _ => delimited path'
      end
  end.

(** The text a state of the scan stands for. *)
Definition pending (name : option string) : string :=
  match name with
  | None => ""
  | Some n => "[" +:+ n
  end.

(** The state of the scan at index [i] of [s]: the well-formed path read so
    far, the name being read, and the text still to read. *)
Definition scan_state {NT : NameTable} (s rest : string) (i : nat) (path : Path) (name : option string)
  : Prop :=
  canonical path = true ∧
  s = serialize path +:+ pending name +:+ rest ∧
  i = Str.length (serialize path +:+ pending name) ∧
  ∀ n, name = Some n → name_chars n = true ∧ last_is_param path = false.

(** The four malformed inputs of the parser, each with the index the
    error cites: [pre] is the well-formed text before the bracket at
    which the scan stops. *)
Inductive Malformed {NT : NameTable} : string → Error → Prop :=
  | Malformed_adjacent pre rest :
      canonical pre = true → last_is_param pre = true →
      Malformed (serialize pre +:+ "[" +:+ rest)
        (AdjacentParameter (Str.length (serialize pre)))
  | Malformed_no_name pre rest :
      canonical pre = true → last_is_param pre = false →
      Malformed (serialize pre +:+ "[]" +:+ rest)
        (MissingName (Str.length (serialize pre) + 1))
  | Malformed_no_close pre n :
      canonical pre = true → last_is_param pre = false → name_chars n = true →
      Malformed (serialize pre +:+ "[" +:+ n)
        (MissingClose (Str.length (serialize pre +:+ "[" +:+ n)))
  | Malformed_invalid pre n c rest :
      canonical pre = true → last_is_param pre = false → name_chars n = true →
      c ≠ "]"%unit → is_name_char c = false →
      Malformed (serialize pre +:+ "[" +:+ n +:+ String c rest)
        (InvalidNameChar (Str.length (serialize pre) + 1 + Str.length n)).

(** ** What a Matcher extracts

    The extent of each parameter, in the words of the specification:
    [captures s path offset values] holds when the tokens of [path],
    read against [s] from [offset] on, extract [values]. *)

(** [pat] is in [s] at index [k]. *)
Definition occurs_at (s pat : string) (k : nat) : Prop :=
  Str.slice s k (k + Str.length pat) = pat.

(** [idx] is the first index at or after [from] at which [pat] is in [s]. *)
Definition first_occurrence (s pat : string) (from idx : nat) : Prop :=
  from ≤ idx ∧ occurs_at s pat idx ∧ ∀ k, from ≤ k → k < idx → ¬ occurs_at s pat k.

Inductive captures (s : string) : Path → nat → list string → Prop :=
  | captures_end offset : captures s [] offset []
  | captures_literal l path offset values :
      offset < Str.length s →
      occurs_at s l offset →
      captures s path (offset + Str.length l) values →
      captures s (Lit l :: path) offset values
  | captures_last n offset :
      offset < Str.length s →
      captures s [Param n] offset [Str.slice_from s offset]
  | captures_delimited n l path offset idx values :
      offset < Str.length s →
      first_occurrence s l offset idx →
      offset < idx →
      captures s path (idx + Str.length l) values →
      captures s (Param n :: Lit l :: path) offset (Str.slice s offset idx :: values).

(** An empty Segment Path accepts the empty segment only. *)
Definition accepts (path : Path) (s : string) (values : list string) : Prop :=
  match path with
  | [] => s = "" ∧ values = []
  | _ => captures s path 0 values
  end.

(** ** Reading the trie

    The transition [addToTrie] takes for a Segment Path: a static one
    under the literal text (the empty string for an empty path), a
    dynamic one under the cache key. *)
Inductive Step : Type :=
  | SStatic (value : string)
  | SDynamic (key : string).

Global Instance Step_eq_dec : EqDecision Step.
Proof. solve_decision. Defined.

Definition step_of (path : Path) : Step :=
  match path with
  | [] => SStatic ""
  | [Lit s] => SStatic s
  | _ => SDynamic (pathToKey path []).1
  end.

(** The transitions of the Segment Paths of a route. *)
Definition steps_of (paths : list Path) : list Step := step_of <$> paths.

Definition is_dynamic (path : Path) : bool :=
  match path with
  | [] | [Lit _] => false
  | _ => true
  end.

(** The child a transition leads to, by the lookups of [addStatic] and
    [addDynamic]. *)
Definition child_at (node : Node) (st : Step) : option Node :=
  match st with
  | SStatic v => assoc_get same_string v (static node)
  | SDynamic k => assoc_get same_fn (mkMatch k []) (dynamic node)
  end.

Fixpoint walk (node : Node) (steps : list Step) : option Node :=
  match steps with
  | [] => Some node
  | st :: steps' => child ← child_at node st; walk child steps'
  end.

(** The route registered at the end of a sequence of transitions. *)
Definition route_at (node : Node) (steps : list Step) : option string :=
  n ← walk node steps; route n.

(** The names of the parameters of a path, in order. *)
Definition param_names (path : Path) : list string :=
  omap (fun t => match t with Param n => Some n | Lit _ => None end) path.

(** An edge of the trie, with the closure on a dynamic one. *)
Inductive Trans : Type :=
  | TStatic (value : string)
  | TDynamic (fn : Match).

Definition trans_step (tr : Trans) : Step :=
  match tr with
  | TStatic v => SStatic v
  | TDynamic fn => SDynamic (fn_id fn)
  end.

(** [reach node trans n]: the edges [trans] lead from [node] to [n]. *)
Inductive reach : Node → list Trans → Node → Prop :=
  | reach_here n : reach n [] n
  | reach_static n v c trans n' :
      (v, c) ∈ static n → reach c trans n' → reach n (TStatic v :: trans) n'
  | reach_dynamic n fn c trans n' :
      (fn, c) ∈ dynamic n → reach c trans n' → reach n (TDynamic fn :: trans) n'.

(** A closure of the trie was made for a dynamic, well-formed path and is
    known under the cache key of that path. *)
Definition closure_ok {NT : NameTable} (fn : Match) : Prop :=
  fn_id fn = (pathToKey (fn_path fn) []).1 ∧
  canonical (fn_path fn) = true ∧ is_dynamic (fn_path fn) = true.

Definition cache_ok {NT : NameTable} (cache : Cache) : Prop :=
  ∀ k fn, cache !! k = Some fn → fn_id fn = k ∧ closure_ok fn.

(** The invariant of the trie below [node], a node reached by the
    transitions [pre]: every closure is [closure_ok], and a terminal node
    holds a route of [R], reached by the transitions of its Segment
    Paths, with the parameter names of these paths as keys. *)
Definition trie_inv {NT : NameTable} (R : list (string * list Path)) (pre : list Step) (node : Node)
  : Prop :=
  ∀ trans n, reach node trans n →
    (∀ fn c, (fn, c) ∈ dynamic n → closure_ok fn) ∧
    (∀ rt, route n = Some rt →
       ∃ paths, (rt, paths) ∈ R ∧
                pre ++ (trans_step <$> trans) = steps_of paths ∧
                keys n = Some (param_names (concat paths))).

(** What an edge extracts from a segment of the pathname. *)
Definition trans_values (tr : Trans) (segment : string) : option (list string) :=
  match tr with
  | TStatic v => if decide (v = segment) then Some [] else None
  | TDynamic fn => createMatch (fn_path fn) segment
  end.

(** What a Segment Path of a route extracts from a segment of the
    pathname: nothing when it is static and equal to the segment, what
    its Matcher returns when it is dynamic. *)
Definition segment_values (path : Path) (segment : string) : option (list string) :=
  match step_of path with
  | SStatic v => if decide (v = segment) then Some [] else None
  | SDynamic _ => createMatch path segment
  end.

(** A path without the names of its parameters. *)
Definition erase_name (t : Token) : Token :=
  match t with
  | Lit s => Lit s
  | Param _ => Param ""
  end.

Definition shape (path : Path) : Path := erase_name <$> path.

(** The routes of the terminal nodes in the order the enumerator
    discovers them: the node itself, then what lies under its static
    children, then what lies under its dynamic children, in insertion
    order. *)
Fixpoint trie_order (node : Node) : list string :=
  match node with
  | mkNode rt _ st dy =>
      option_list rt ++
      flat_map (fun p => trie_order p.2) st ++
      flat_map (fun p => trie_order p.2) dy
  end.

(** The piece of a cache key a token contributes. *)
Definition part_key (t : Token) : string :=
  match t with
  | Lit s => s
  | Param _ => "[]"
  end.

(** Every closure of the cache is stored under its own identity. *)
Definition cache_ids (cache : Cache) : Prop :=
  ∀ k fn, cache !! k = Some fn → fn_id fn = k.

(** ** The order behind the comparator

    The comparator in structural form.  At one position a literal comes
    before the end of the shorter path, and the end before a parameter;
    two literals compare as strings; two parameters do not differ. *)
Fixpoint tokens_cmp (a b : Path) : Z :=
  match a, b with
  | [], [] => 0
  | [], Lit _ :: _ => 1
  | [], Param _ :: _ => -1
  | Lit _ :: _, [] => -1
  | Param _ :: _, [] => 1
  | Lit x :: a', Lit y :: b' =>
      if decide (x = y) then tokens_cmp a' b' else if Str.gtb x y then 1 else -1
  | Lit _ :: _, Param _ :: _ => -1
  | Param _ :: _, Lit _ :: _ => 1
  | Param _ :: a', Param _ :: b' => tokens_cmp a' b'
  end%Z.

(** Segment by segment: the first segment that differs decides. *)
Fixpoint segments_cmp (a b : list Path) : Z :=
  match a, b with
  | x :: a', y :: b' =>
      if decide (tokens_cmp x y = 0)%Z then segments_cmp a' b' else tokens_cmp x y
  | _, _ => 0%Z
  end.

(** The ordering of the specification: [before a b] when the route with
    Segment Paths [a] sorts before the one with [b]; [tied a b] when the
    rules do not separate them. *)
Definition before (a b : list Path) : Prop := (compare a b < 0)%Z.
Definition tied (a b : list Path) : Prop := compare a b = 0%Z.

(** The pair [buildRoutes] makes of a route whose segments parse. *)
Definition entry_of {NT : NameTable} (rt : string) : option (string * list Path) :=
  match segments rt with
  | inr paths => Some (rt, paths)
  | inl _ => None
  end.

(** The transitions of an entry. *)
Definition entry_steps (x : string * list Path) : list Step := steps_of x.2.

Global Instance before_dec a b : Decision (before a b).
Proof. unfold before. apply _. Defined.

Global Instance tied_dec a b : Decision (tied a b).
Proof. unfold tied. apply _. Defined.

(** [a]'s Result is yielded strictly before [b]'s in the output [out]
    (of routes). *)
Definition yielded_before (a b : string) (out : list string) : Prop :=
  ∃ k l, k < l ∧ out !! k = Some a ∧ out !! l = Some b.

(** The cache key of a path, as [pathToKey] joins it. *)
Definition key_of (path : Path) : string := Str.concat "|" (part_key <$> path).

(** ** Further notions for the properties of the engine *)

(** The transitions of a route whose segments parse. *)
Definition route_steps {NT : NameTable} (rt : string) : list Step :=
  from_option entry_steps [] (entry_of rt).

(** [f] returns on [x]. *)
Definition returns {A B} (f : A → Error + B) (x : A) : Prop := ∃ y, f x = inr y.

(** The text a path stands for when values take the place of its
    parameters, in order. *)
Fixpoint fill (path : Path) (values : list string) : string :=
  match path with
  | [] => ""
  | Lit l :: path' => l +:+ fill path' values
  | Param _ :: path' =>
      match values with
      | v :: values' => v +:+ fill path' values'
      | [] => fill path' []
      end
  end.

(** The character [c] is not in [s]. *)
Fixpoint char_free (c : char) (s : string) : bool :=
  match s with
  | "" => true
  | String d s' => negb (bool_decide (d = c)) && char_free c s'
  end.

(** No literal of the path holds the character [c]. *)
Definition literals_free (c : char) (path : Path) : bool :=
  forallb (fun t => match t with Lit s => char_free c s | Param _ => true end) path.

(** The cache keys of the dynamic children of the node the transitions
    [pre] lead to, in the order of the [Map]. *)
Definition dyn_keys (node : Node) (pre : list Step) : list string :=
  match walk node pre with
  | Some n => (fun p => fn_id p.1) <$> dynamic n
  | None => []
  end.

(** The cache key under which a route with transitions [steps] leaves the
    node at [pre], when it passes there and goes on by a dynamic
    transition. *)
Fixpoint next_dyn (steps pre : list Step) : option string :=
  match pre with
  | [] => match steps with SDynamic k :: _ => Some k | _ => None end
  | p :: pre' =>
      match steps with
      | s :: steps' => if decide (s = p) then next_dyn steps' pre' else None
      | [] => None
      end
  end.

(** A key takes its place after the keys seen before it. *)
Definition add_key (acc : list string) (k : string) : list string :=
  if decide (k ∈ acc) then acc else acc ++ [k].

(** The Segment Paths [paths] are how the entry [x] of the sorted list
    begins, as far as the trie can tell. *)
Definition begins (paths : list Path) (x : string * list Path) : Prop :=
  steps_of paths `prefix_of` entry_steps x.

Global Instance begins_dec paths x : Decision (begins paths x).
Proof. unfold begins. apply _. Defined.

(** Every Matcher on an edge below [node] is the one the cache holds
    under its key. *)
Definition trie_cached (cache : Cache) (node : Node) : Prop :=
  ∀ trans n fn c, reach node trans n → (fn, c) ∈ dynamic n → cache !! fn_id fn = Some fn.

(** ** The order of strings

    [u] comes before [v] when the strings are compared code unit by code
    unit from the left: [u] ends where [v] goes on, or at the first index
    where they differ [u] has the smaller unit. *)
Definition unit_lt (u v : string) : Prop :=
  ∃ w, (∃ d v', u = w ∧ v = w +:+ String d v') ∨
       (∃ c d u' v', u = w +:+ String c u' ∧ v = w +:+ String d v' ∧
                     (code c < code d)%N).

(** ** The ordering rules as the specification words them

    The code points of a string: a high surrogate followed by a low one
    is one code point, any other code unit is its own. *)
Fixpoint codepoints (s : string) : list N :=
  match s with
  | "" => []
  | String c s' =>
      match s' with
      | String d s'' =>
          if ((55296 <=? code c) && (code c <=? 56319) &&
              (56320 <=? code d) && (code d <=? 57343))%N
          then (65536 + (code c - 55296) * 1024 + (code d - 56320))%N :: codepoints s''
          else code c :: codepoints s'
      | "" => [code c]
      end
  end.

(** Lists of numbers in lexicographic order. *)
Fixpoint lex_ltb (a b : list N) : bool :=
  match a, b with
  | _, [] => false
  | [], _ :: _ => true
  | x :: a', y :: b' => (x <? y)%N || ((x =? y)%N && lex_ltb a' b')
  end.

(** Rule (2) of the specification, token by token: "a literal token
    sorts before a Parameter token at the same position", "among two
    literal tokens, lexicographic (byte/codepoint) ordering applies",
    "two Parameter tokens at the same position are equal".  The rules
    name no position at which only one of the segments has a token. *)
Fixpoint claimed_tokens (a b : Path) : Z :=
  match a, b with
  | Lit x :: a', Lit y :: b' =>
      if decide (x = y) then claimed_tokens a' b'
      else if lex_ltb (codepoints x) (codepoints y) then -1 else 1
  | Lit _ :: _, Param _ :: _ => -1
  | Param _ :: _, Lit _ :: _ => 1
  | Param _ :: a', Param _ :: b' => claimed_tokens a' b'
  | _, _ => 0
  end%Z.

Fixpoint claimed_segments (a b : list Path) : Z :=
  match a, b with
  | x :: a', y :: b' =>
      if decide (claimed_tokens x y = 0)%Z then claimed_segments a' b'
      else claimed_tokens x y
  | _, _ => 0%Z
  end.

(** Rules (1) and (2): negative when [a] sorts first, zero when the
    rules leave the two routes equal. *)
Definition claimed_compare (a b : list Path) : Z :=
  if decide (length a ≠ length b) then (Z.of_nat (length a) - Z.of_nat (length b))%Z
  else claimed_segments a b.

(** * Proofs *)

(** ** Strings *)

Lemma sapp_cons c s t : String c s +:+ t = String c (s +:+ t).
Proof. reflexivity. Qed.

Lemma sapp_nil_l s : "" +:+ s = s.
Proof. reflexivity. Qed.

Lemma sapp_nil_r s : s +:+ "" = s.
Proof. induction s as [|c s IH]; [done|]. by rewrite sapp_cons, IH. Qed.

Lemma sapp_assoc s t u : (s +:+ t) +:+ u = s +:+ (t +:+ u).
Proof. induction s as [|c s IH]; [done|]. by rewrite !sapp_cons, IH. Qed.

Global Instance sapp_inj s : Inj (=) (=) (Str.app s).
Proof.
  intros t u H. induction s as [|c s IH]; [done|].
  rewrite !sapp_cons in H. injection H as H. by apply IH.
Qed.

Lemma sapp_length s t : Str.length (s +:+ t) = Str.length s + Str.length t.
Proof. induction s as [|c s IH]; [done|]. rewrite sapp_cons. simpl. by rewrite IH. Qed.

Lemma sapp_snoc_cons s c t : (s +:+ String c "") +:+ t = s +:+ String c t.
Proof. by rewrite sapp_assoc. Qed.

Lemma sapp_eq_nil s t : s +:+ t = "" → s = "" ∧ t = "".
Proof. destruct s; [done|]. rewrite sapp_cons. done. Qed.

Lemma no_open_app s t : no_open (s +:+ t) = no_open s && no_open t.
Proof.
  induction s as [|c s IH]; [done|].
  rewrite sapp_cons. simpl. rewrite IH. by rewrite andb_assoc.
Qed.

Lemma name_chars_app {NT : NameTable} s t : name_chars (s +:+ t) = name_chars s && name_chars t.
Proof.
  induction s as [|c s IH]; [done|].
  rewrite sapp_cons. simpl. rewrite IH. by rewrite !andb_assoc.
Qed.

(** ** Segment Paths *)

Lemma serialize_app p q : serialize (p ++ q) = serialize p +:+ serialize q.
Proof.
  induction p as [|t p IH]; [done|].
  simpl. by rewrite IH, sapp_assoc.
Qed.

Lemma serialize_snoc p t : serialize (p ++ [t]) = serialize p +:+ token_text t.
Proof. rewrite serialize_app. simpl. by rewrite sapp_nil_r. Qed.

Lemma insert_last {A} (l : list A) (x y : A) :
  <[pred (length (l ++ [x])) := y]> (l ++ [x]) = l ++ [y].
Proof.
  rewrite length_app. simpl. rewrite Nat.add_1_r. simpl.
  rewrite insert_app_r_alt by lia. by rewrite Nat.sub_diag.
Qed.

(** What [push_char] does, by the last token of the path. *)
Lemma push_char_lit p s c : push_char (p ++ [Lit s]) c = p ++ [Lit (s +:+ String c "")].
Proof. unfold push_char. rewrite last_snoc. apply insert_last. Qed.

Lemma push_char_new p c :
  (∀ s, last p ≠ Some (Lit s)) → push_char p c = p ++ [Lit (String c "")].
Proof.
  intros H. unfold push_char.
  destruct (last p) as [[s|n]|] eqn:E; try done. by destruct (H s).
Qed.

Lemma serialize_push_char p c : serialize (push_char p c) = serialize p +:+ String c "".
Proof.
  destruct p as [|t p _] using rev_ind.
  - done.
  - destruct t as [s|n].
    + rewrite push_char_lit, !serialize_snoc. simpl. by rewrite sapp_assoc.
    + rewrite push_char_new; [by rewrite serialize_snoc|].
      intros s. by rewrite last_snoc.
Qed.

Lemma parse_loop_serialize {NT : NameTable} rest i path name p :
  parse_loop rest i path name = inr p →
  serialize p = serialize path +:+ pending name +:+ rest.
Proof.
  revert i path name.
  induction rest as [|c rest IH]; intros i path [n|] H; simpl in H.
  - done.
  - injection H as <-. by rewrite !sapp_nil_r.
  - repeat case_decide; try done.
    + apply IH in H. rewrite H, serialize_snoc. subst c. simpl.
      by rewrite !sapp_assoc.
    + destruct (is_name_char c); [|done]. simpl in H.
      apply IH in H. rewrite H. simpl. by rewrite !sapp_assoc.
  - case_decide.
    + destruct (last_is_param path); [done|]. apply IH in H. by subst c.
    + apply IH in H. rewrite H, serialize_push_char. simpl.
      by rewrite sapp_assoc.
Qed.

Lemma parse_serialize {NT : NameTable} s p : parse s = inr p → serialize p = s.
Proof. intros H. apply parse_loop_serialize in H. by rewrite H. Qed.

(** C9. Parse round-trip: when [parse] returns a Segment Path for a
    segment string, writing its tokens one after the other, a literal as
    its text and a parameter as its name between brackets, gives back the
    segment string. *)
Theorem parse_roundtrip {NT : NameTable} (s : string) (p : Path) :
  parse s = inr p → serialize p = s.
Proof.
  unfold parse. intros H.
  apply parse_loop_serialize in H. rewrite H. simpl.
  by rewrite !sapp_nil_l.
Qed.

(** ** The grammar the parser accepts *)

Lemma alternating_snoc p t :
  alternating (p ++ [t]) =
  alternating p &&
  match last p with
  | Some u => negb (bool_decide (is_param u = is_param t))
  | None => true
  end.
Proof.
  induction p as [|u p IH]; [done|].
  destruct p as [|v p].
  - simpl. by rewrite andb_true_r.
  - change (alternating ((u :: v :: p) ++ [t]))
      with (negb (bool_decide (is_param u = is_param v)) && alternating ((v :: p) ++ [t])).
    rewrite IH. change (last (u :: v :: p)) with (last (v :: p)).
    simpl. by rewrite andb_assoc.
Qed.

Lemma alternating_app_l p q : alternating (p ++ q) = true → alternating p = true.
Proof.
  induction p as [|u p IH]; [done|].
  destruct p as [|v p]; [done|].
  change ((u :: v :: p) ++ q) with (u :: (v :: p) ++ q).
  simpl. intros [H1 H2]%andb_prop. rewrite H1. simpl. by apply IH.
Qed.

Lemma canonical_app_l {NT : NameTable} p q : canonical (p ++ q) = true → canonical p = true.
Proof.
  unfold canonical. rewrite forallb_app.
  intros [[H1 _]%andb_prop H2]%andb_prop.
  rewrite H1. simpl. by eapply alternating_app_l.
Qed.

Lemma canonical_snoc {NT : NameTable} p t :
  canonical (p ++ [t]) =
  canonical p && token_ok t &&
  match last p with
  | Some u => negb (bool_decide (is_param u = is_param t))
  | None => true
  end.
Proof.
  unfold canonical. rewrite forallb_app, alternating_snoc. simpl.
  rewrite andb_true_r.
  destruct (forallb token_ok p), (token_ok t), (alternating p); simpl; try done.
Qed.

Lemma last_is_param_snoc p t : last_is_param (p ++ [t]) = is_param t.
Proof. unfold last_is_param. rewrite last_snoc. by destruct t. Qed.

Lemma canonical_push_char {NT : NameTable} p c :
  c ≠ "["%unit → canonical p = true → canonical (push_char p c) = true.
Proof.
  intros Hc Hp.
  destruct p as [|t p _] using rev_ind.
  - unfold push_char, canonical. simpl. by rewrite bool_decide_false.
  - destruct t as [s|n].
    + rewrite push_char_lit. rewrite canonical_snoc in Hp |- *.
      apply andb_prop in Hp as [[H1 H2]%andb_prop H3].
      simpl in *. rewrite H1, H3. apply andb_prop in H2 as [_ H2].
      rewrite no_open_app, H2. simpl. rewrite (bool_decide_false _ Hc).
      destruct s; done.
    + rewrite push_char_new by (intros s; by rewrite last_snoc).
      rewrite canonical_snoc, Hp, last_snoc. simpl.
      by rewrite (bool_decide_false _ Hc).
Qed.

Lemma canonical_push_param {NT : NameTable} p n :
  canonical p = true → last_is_param p = false → n ≠ "" → name_chars n = true →
  canonical (p ++ [Param n]) = true.
Proof.
  intros Hp Hl Hn Hc. rewrite canonical_snoc, Hp. simpl.
  rewrite (bool_decide_false _ Hn), Hc. simpl.
  unfold last_is_param in Hl. by destruct (last p) as [[]|].
Qed.

Lemma length_snoc_s s c : Str.length (s +:+ String c "") = S (Str.length s).
Proof. rewrite sapp_length. simpl. lia. Qed.

Ltac len :=
  subst; unfold pending; simpl;
  repeat (rewrite ?sapp_length, ?serialize_snoc, ?serialize_push_char; simpl);
  try lia.

Lemma parse_loop_sound {NT : NameTable} s rest i path name :
  scan_state s rest i path name →
  (∀ e, parse_loop rest i path name = inl e → Malformed s e) ∧
  (∀ p, parse_loop rest i path name = inr p → canonical p = true).
Proof.
  revert i path name.
  induction rest as [|c rest IH]; intros i path [n|] (Hp & Hs & Hi & Hn); simpl.
  - destruct (Hn n eq_refl) as [Hc Hl]. split; [|done].
    intros e [= <-]. rewrite sapp_nil_r in Hs. subst s i.
    by apply Malformed_no_close.
  - split; [done|]. by intros p [= <-].
  - destruct (Hn n eq_refl) as [Hc Hl].
    case_decide as Hc1; [case_decide as Hn0|].
    + split; [|done]. intros e [= <-]. subst c n. simpl in Hs, Hi.
      rewrite sapp_length in Hi. simpl in Hi. subst s i.
      apply (Malformed_no_name path rest); done.
    + apply IH. subst c. split_and!.
      * by apply canonical_push_param.
      * rewrite serialize_snoc. subst s. simpl. by rewrite !sapp_assoc.
      * len.
      * done.
    + destruct (is_name_char c) eqn:Hname; simpl.
      * apply IH. split_and!; [done|..].
        -- subst s. simpl. by rewrite !sapp_assoc.
        -- len.
        -- intros ? [= <-]. split; [|done].
           rewrite name_chars_app, Hc. simpl.
           by rewrite (bool_decide_false _ Hc1), Hname.
      * split; [|done]. intros e [= <-].
        pose proof (Malformed_invalid path n c rest Hp Hl Hc Hc1 Hname) as HM.
        subst s. simpl.
        replace i with (Str.length (serialize path) + 1 + Str.length n) by len.
        done.
  - case_decide as Hc1.
    + destruct (last_is_param path) eqn:Hl.
      * split; [|done]. intros e [= <-]. subst s i c. simpl. rewrite sapp_nil_r.
        by apply Malformed_adjacent.
      * apply IH. subst c. split_and!; [done|..].
        -- by subst s.
        -- len.
        -- by intros ? [= <-].
    + apply IH. split_and!.
      * by apply canonical_push_char.
      * rewrite serialize_push_char. subst s. simpl. by rewrite !sapp_assoc.
      * len.
      * done.
Qed.

(** Scanning literal text extends the literal at the end of the path. *)
Lemma parse_loop_literal {NT : NameTable} l rest i path s0 :
  no_open l = true →
  parse_loop (l +:+ rest) i (path ++ [Lit s0]) None =
  parse_loop rest (i + Str.length l) (path ++ [Lit (s0 +:+ l)]) None.
Proof.
  revert i s0. induction l as [|c l IH]; intros i s0 Hl.
  - rewrite sapp_nil_l, sapp_nil_r. simpl. by rewrite Nat.add_0_r.
  - simpl in Hl. apply andb_prop in Hl as [Hc Hl].
    apply negb_true_iff, bool_decide_eq_false in Hc.
    rewrite sapp_cons. simpl. rewrite decide_False by done.
    rewrite push_char_lit, IH by done.
    rewrite sapp_snoc_cons. f_equal. lia.
Qed.

Lemma parse_loop_new_literal {NT : NameTable} l rest i path :
  l ≠ "" → no_open l = true → (∀ s, last path ≠ Some (Lit s)) →
  parse_loop (l +:+ rest) i path None =
  parse_loop rest (i + Str.length l) (path ++ [Lit l]) None.
Proof.
  intros Hne Hl Hlast. destruct l as [|c l]; [done|].
  simpl in Hl. apply andb_prop in Hl as [Hc Hl].
  apply negb_true_iff, bool_decide_eq_false in Hc.
  rewrite sapp_cons. simpl. rewrite decide_False by done.
  rewrite push_char_new, parse_loop_literal by done.
  f_equal. lia.
Qed.

(** Scanning name characters extends the name. *)
Lemma parse_loop_name {NT : NameTable} n rest i path acc :
  name_chars n = true →
  parse_loop (n +:+ rest) i path (Some acc) =
  parse_loop rest (i + Str.length n) path (Some (acc +:+ n)).
Proof.
  revert i acc. induction n as [|c n IH]; intros i acc Hn.
  - rewrite sapp_nil_l, sapp_nil_r. simpl. by rewrite Nat.add_0_r.
  - simpl in Hn. apply andb_prop in Hn as [[Hc Hname]%andb_prop Hn].
    apply negb_true_iff, bool_decide_eq_false in Hc.
    rewrite sapp_cons. simpl. rewrite decide_False by done.
    rewrite Hname. simpl. rewrite IH by done.
    rewrite sapp_snoc_cons. f_equal. lia.
Qed.

(** Scanning the text of well-formed tokens appends them to the path. *)
Lemma parse_loop_tokens {NT : NameTable} q rest i path :
  canonical (path ++ q) = true →
  parse_loop (serialize q +:+ rest) i path None =
  parse_loop rest (i + Str.length (serialize q)) (path ++ q) None.
Proof.
  revert i path. induction q as [|t q IH]; intros i path Hc.
  - simpl. rewrite sapp_nil_l, app_nil_r. by rewrite Nat.add_0_r.
  - rewrite cons_middle, app_assoc in Hc |- *.
    pose proof (canonical_app_l _ _ Hc) as Ht.
    rewrite canonical_snoc in Ht.
    apply andb_prop in Ht as [[Hp Ht]%andb_prop Hlast].
    simpl serialize. rewrite sapp_assoc, sapp_length.
    destruct t as [l|n]; simpl in Ht; apply andb_prop in Ht as [Hne Hok];
      apply negb_true_iff, bool_decide_eq_false in Hne.
    + simpl token_text. rewrite parse_loop_new_literal, IH; try done.
      * f_equal. lia.
      * intros s Hs. by rewrite Hs in Hlast.
    + simpl token_text. rewrite !sapp_assoc, sapp_cons, sapp_nil_l.
      simpl. assert (last_is_param path = false) as ->.
      { unfold last_is_param. by destruct (last path) as [[]|]. }
      rewrite parse_loop_name by done. change ("" +:+ n) with n.
      rewrite sapp_cons, sapp_nil_l. simpl.
      rewrite decide_False by done. rewrite IH by done.
      f_equal. rewrite !sapp_length. simpl. lia.
Qed.

Lemma parse_canonical {NT : NameTable} p : canonical p = true → parse (serialize p) = inr p.
Proof.
  intros Hp. unfold parse.
  rewrite <-(sapp_nil_r (serialize p)), parse_loop_tokens by done.
  done.
Qed.

Lemma parse_malformed {NT : NameTable} s e : Malformed s e → parse s = inl e.
Proof.
  unfold parse.
  destruct 1 as [pre rest Hp Hl|pre rest Hp Hl|pre n Hp Hl Hn|pre n c rest Hp Hl Hn Hc Hname];
    rewrite parse_loop_tokens by done; simpl.
  - by rewrite Hl.
  - rewrite Hl. do 2 f_equal. lia.
  - rewrite Hl. change ("" +:+ n) with n.
    rewrite <-(sapp_nil_r n) at 1. rewrite parse_loop_name by done. simpl.
    do 2 f_equal. len.
  - rewrite Hl. rewrite sapp_nil_l.
    rewrite parse_loop_name by done. simpl.
    rewrite decide_False by done. rewrite Hname. simpl.
    do 2 f_equal. lia.
Qed.

Lemma scan_state_start {NT : NameTable} s : scan_state s s 0 [] None.
Proof. unfold scan_state. split_and!; done. Qed.

(** X17. The errors of [parse], code unit by code unit: [parse] throws
    on a segment exactly when the segment is malformed in one of four
    ways, after a well-formed beginning: a bracket opens right after a
    parameter, a name is empty, a name is not closed before the end of
    the string, or a code unit inside the brackets is not one the
    character table accepts.  The error thrown is the one of that case,
    its message ends with the index of the offending code unit, and that
    index lies within the segment (the length, for a name that is not
    closed).  On every other segment [parse] returns a Segment Path: the
    well-formed one whose text is the segment. *)
Theorem parse_error_taxonomy {NT : NameTable} (s : string) :
  (∀ e, parse s = inl e ↔ Malformed s e) ∧
  (∀ p, parse s = inr p ↔ canonical p = true ∧ serialize p = s) ∧
  (∀ e, parse s = inl e →
        ∃ i text, position e = Some i ∧ message e = text +:+ Str.of_nat i ∧
                  i ≤ Str.length s) ∧
  ((¬ ∃ e, Malformed s e) → ∃ p, parse s = inr p).
Proof.
  pose proof (parse_loop_sound s s 0 [] None (scan_state_start s)) as [He Hp].
  split_and!.
  - intros e. split; [apply He | apply parse_malformed].
  - intros p. split.
    + intros H. split; [by apply Hp | by apply parse_serialize].
    + intros [Hc <-]. by apply parse_canonical.
  - intros e H. apply He in H. destruct H; eexists _, _; (split_and!; [done..|]); len.
  - intros Hno. destruct (parse s) as [e|p] eqn:E; [|by eexists].
    destruct Hno. exists e. by apply He.
Qed.

(** C7. The taxonomy fails on the code for a letter outside the Basic
    Multilingual Plane.  Such a letter is two surrogate code units, the
    parser tests each code unit on its own, and a surrogate on its own is
    no letter and no digit: wherever a name holds such a letter [parse]
    throws the invalid-name-character error at the index of its first
    code unit.  So for [[𠀀]], the name being the ideograph U+20000,
    [parse] throws "Invalid name character at 1", where the claim has it
    return the Segment Path with the parameter of that name. *)
Theorem parse_surrogate {NT : NameTable} :
  (∀ c, is_surrogate c = true → is_name_char c = false) →
  (∀ pre n hi rest,
     canonical pre = true → last_is_param pre = false → name_chars n = true →
     is_surrogate hi = true →
     parse (serialize pre +:+ "[" +:+ n +:+ String hi rest) =
     inl (InvalidNameChar (Str.length (serialize pre) + 1 + Str.length n))) ∧
  "[𠀀]" = String "[" (String (Char 55360) (String (Char 56320) "]")) ∧
  parse "[𠀀]" = inl (InvalidNameChar 1) ∧
  message (InvalidNameChar 1) = "Invalid name character at 1".
Proof.
  intros Hsur.
  assert (∀ pre n hi rest,
     canonical pre = true → last_is_param pre = false → name_chars n = true →
     is_surrogate hi = true →
     parse (serialize pre +:+ "[" +:+ n +:+ String hi rest) =
     inl (InvalidNameChar (Str.length (serialize pre) + 1 + Str.length n))) as Hgen.
  { intros pre n hi rest Hpre Hlast Hn Hhi. apply parse_malformed.
    constructor; try done.
    - intros ->. done.
    - by apply Hsur. }
  split_and!; [done|done| |done].
  apply (Hgen [] "" (Char 55360) (String (Char 56320) "]")); done.
Qed.

(** ** The match compiler *)

Lemma slice_substring s k n : Str.slice s k (k + n) = Str.substring k n s.
Proof. unfold Str.slice. f_equal. lia. Qed.

Lemma substring_length a n s :
  Str.length (Str.substring a n s) = n `min` (Str.length s - a).
Proof.
  revert a n. induction s as [|c s IH]; intros [|a] [|n]; simpl; try done.
  all: rewrite IH; lia.
Qed.

Lemma occurs_at_bound s pat k : pat ≠ "" → occurs_at s pat k → k + Str.length pat ≤ Str.length s.
Proof.
  unfold occurs_at. rewrite slice_substring. intros Hne H.
  apply (f_equal Str.length) in H. rewrite substring_length in H.
  assert (0 < Str.length pat) by (destruct pat; [done|simpl; lia]). lia.
Qed.

Lemma occurs_at_empty s k : occurs_at s "" k.
Proof.
  unfold occurs_at. rewrite slice_substring. simpl.
  revert k. induction s as [|c s IH]; intros [|k]; simpl; try done.
Qed.

Lemma first_occurrence_unique s pat from i j :
  first_occurrence s pat from i → first_occurrence s pat from j → i = j.
Proof.
  intros (Hi1 & Hi2 & Hi3) (Hj1 & Hj2 & Hj3).
  destruct (Nat.lt_trichotomy i j) as [H|[H|H]]; [|done|].
  - by destruct (Hj3 i).
  - by destruct (Hi3 j).
Qed.

Lemma prefix_substring pat s :
  Str.prefix pat s = true ↔ Str.substring 0 (Str.length pat) s = pat.
Proof.
  revert s. induction pat as [|c pat IH]; intros [|d s]; simpl; try done.
  rewrite andb_true_iff, bool_decide_eq_true, IH. split.
  - by intros [-> ->].
  - by intros [= -> ->].
Qed.

Lemma occurs_at_0 s pat : occurs_at s pat 0 ↔ Str.prefix pat s = true.
Proof. unfold occurs_at. by rewrite slice_substring, prefix_substring. Qed.

Lemma occurs_at_S c s pat k : occurs_at (String c s) pat (S k) ↔ occurs_at s pat k.
Proof. unfold occurs_at. by rewrite !slice_substring. Qed.

Lemma occurs_at_nil pat k : occurs_at "" pat k → pat = "".
Proof. unfold occurs_at. rewrite slice_substring. by destruct k, (Str.length pat). Qed.

Lemma first_occurrence_S c s pat n m :
  first_occurrence s pat n m → first_occurrence (String c s) pat (S n) (S m).
Proof.
  intros (H1 & H2 & H3). split_and!; [lia|by apply occurs_at_S|].
  intros [|k] Hk1 Hk2; [lia|]. rewrite occurs_at_S. apply H3; lia.
Qed.

(** [index] finds the first occurrence at or after the start index, and
    none exactly when there is none. *)
Lemma index_spec s :
  ∀ n pat, n ≤ Str.length s →
  match Str.index n pat s with
  | Some m => first_occurrence s pat n m
  | None => ∀ k, n ≤ k → ¬ occurs_at s pat k
  end.
Proof.
  induction s as [|c s IH]; intros n pat Hn.
  - simpl in Hn. assert (n = 0) as -> by lia. simpl.
    destruct (Str.prefix pat "") eqn:E.
    + split_and!; [done|by apply occurs_at_0|]. intros k; lia.
    + intros k _ Hk. apply occurs_at_nil in Hk. subst pat. done.
  - destruct n as [|n].
    + cbn [Str.index]. destruct (Str.prefix pat (String c s)) eqn:E.
      * split_and!; [done|by apply occurs_at_0|]. intros k; lia.
      * specialize (IH 0 pat ltac:(lia)).
        destruct (Str.index 0 pat s) as [m|]; simpl.
        -- destruct IH as (H1 & H2 & H3). split_and!; [lia|by apply occurs_at_S|].
           intros [|k] Hk1 Hk2.
           ++ rewrite occurs_at_0. by rewrite E.
           ++ rewrite occurs_at_S. apply H3; lia.
        -- intros [|k] Hk.
           ++ rewrite occurs_at_0. by rewrite E.
           ++ rewrite occurs_at_S. apply IH. lia.
    + cbn [Str.index]. simpl in Hn. specialize (IH n pat ltac:(lia)).
      destruct (Str.index n pat s) as [m|]; simpl.
      * by apply first_occurrence_S.
      * intros [|k] Hk; [lia|]. rewrite occurs_at_S. apply IH. lia.
Qed.

(** [indexOf] finds the first occurrence at or after the start index, and
    answers [-1] exactly when there is none. *)
Lemma indexOf_Some s pat from idx :
  from ≤ Str.length s →
  Str.indexOf s pat from = Some idx ↔ first_occurrence s pat from idx.
Proof.
  intros Hfrom. unfold Str.indexOf. rewrite Nat.min_l by done.
  pose proof (index_spec s from pat Hfrom) as H.
  destruct (Str.index from pat s) as [m|]; split.
  - by intros [= <-].
  - intros Hfirst. f_equal. by eapply first_occurrence_unique.
  - done.
  - intros (H1 & H2 & _). by destruct (H idx).
Qed.

Lemma indexOf_None s pat from :
  from ≤ Str.length s →
  Str.indexOf s pat from = None ↔ ∀ k, from ≤ k → ¬ occurs_at s pat k.
Proof.
  intros Hfrom. unfold Str.indexOf. rewrite Nat.min_l by done.
  pose proof (index_spec s from pat Hfrom) as H.
  destruct (Str.index from pat s) as [m|]; split; try done.
  intros Hno. destruct H as (H1 & H2 & _). by destruct (Hno m).
Qed.

Lemma delimited_tail t path : delimited (t :: path) = true → delimited path = true.
Proof. simpl. destruct t, path as [|[]]; done. Qed.

Lemma occurs_at_le s pat k :
  k ≤ Str.length s → occurs_at s pat k → k + Str.length pat ≤ Str.length s.
Proof.
  intros Hk H. destruct (decide (pat = "")) as [->|Hne]; [simpl; lia|].
  by apply occurs_at_bound.
Qed.

Lemma match_loop_captures n :
  ∀ path s offset params r,
  length path ≤ n → delimited path = true → offset ≤ Str.length s →
  match_loop path s offset params = Some r ↔
  ∃ values, r = params ++ values ∧ captures s path offset values.
Proof.
  induction n as [|n IH]; intros path s offset params r Hlen Hd Hoff.
  { destruct path; [|simpl in Hlen; lia]. simpl. split.
    - intros [= <-]. exists []. split; [by rewrite app_nil_r|constructor].
    - intros (values & -> & H). inversion H. by rewrite app_nil_r. }
  destruct path as [|part path].
  { simpl. split.
    - intros [= <-]. exists []. split; [by rewrite app_nil_r|constructor].
    - intros (values & -> & H). inversion H. by rewrite app_nil_r. }
  simpl in Hlen. simpl match_loop.
  case_decide as Hend.
  { split; [done|]. intros (values & -> & H). inversion H; subst; lia. }
  assert (offset < Str.length s) as Hlt by lia.
  destruct part as [l|p].
  - case_decide as Hl.
    + split; [done|]. intros (values & -> & H). by inversion H.
    + pose proof (occurs_at_le s l offset Hoff Hl).
      rewrite IH; [|lia|by eapply delimited_tail|done]. split.
      * intros (values & -> & H'). exists values. split; [done|]. by constructor.
      * intros (values & -> & H'). exists values. split; [done|]. by inversion H'.
  - destruct path as [|[next|q] path].
    + split.
      * intros [= <-]. eexists. split; [done|]. by constructor.
      * intros (values & -> & H). by inversion H.
    + destruct (Str.indexOf s next offset) as [index|] eqn:E.
      * apply indexOf_Some in E; [|done].
        pose proof E as (Hge & Hocc & _).
        case_decide as Hidx.
        -- split; [done|]. intros (values & -> & H). inversion H; subst.
           assert (idx = offset) by by eapply first_occurrence_unique. lia.
        -- assert (index ≤ Str.length s).
           { destruct (decide (next = "")) as [->|Hne].
             - destruct E as (_ & _ & Hmin). destruct (Hmin offset); [lia..|].
               apply occurs_at_empty.
             - pose proof (occurs_at_bound s next index Hne Hocc). lia. }
           pose proof (occurs_at_le s next index ltac:(done) Hocc).
           rewrite IH; [|simpl in Hlen; lia|done..]. split.
           ++ intros (values & -> & H'). eexists. split; [by rewrite <-app_assoc|].
              constructor; try done. lia.
           ++ intros (values & -> & H'). inversion H'; subst.
              assert (idx = index) as -> by by eapply first_occurrence_unique.
              eexists. split; [by rewrite <-app_assoc|done].
      * split; [done|]. intros (values & -> & H). inversion H; subst.
        pose proof (proj1 (indexOf_None s next offset Hoff) E) as E'.
        match goal with Hf : first_occurrence _ _ _ _ |- _ => destruct Hf as (? & ? & _) end.
        by destruct (E' idx).
    + done.
Qed.

Lemma captures_nonempty s path offset values :
  captures s path offset values → Forall (λ v, v ≠ "") values.
Proof.
  induction 1 as [| |n offset Hlt|n l path offset idx values Hlt Hfirst Hidx _ IH]; try done.
  - constructor; [|done]. intros E. apply (f_equal Str.length) in E.
    unfold Str.slice_from in E. rewrite substring_length in E. simpl in E. lia.
  - constructor; [|done]. intros E. apply (f_equal Str.length) in E.
    unfold Str.slice in E. rewrite substring_length in E. simpl in E. lia.
Qed.

Lemma createMatch_accepts path s values :
  delimited path = true →
  createMatch path s = Some values ↔ accepts path s values.
Proof.
  intros Hd. unfold createMatch, accepts. destruct path as [|t path].
  - simpl. case_decide as Hs; split.
    + by intros [= <-].
    + by intros [_ ->].
    + done.
    + by intros [? _].
  - rewrite decide_False by done.
    rewrite (match_loop_captures (length (t :: path))); [|done..|lia].
    split; [by intros (vs & -> & H)|]. intros H. by exists values.
Qed.

(** C3. Parameter-extent semantics: for a Segment Path in which every
    parameter is followed by a literal or is the last token, the compiled
    Matcher succeeds with a list of values exactly when the tokens, read
    from the left, extract that list: a parameter followed by a literal
    captures the text from the current offset up to the first occurrence
    of that literal at or after the offset, which must lie after the
    offset; a parameter that is the last token captures the rest of the
    input, which must not be exhausted.  Every captured value is
    non-empty, and the Matcher fails in all other cases: when a
    parameter would capture nothing or its delimiting literal does not
    occur in the rest of the input.  The router for [[key]@[value]]
    extracts [foo] and [bar@baz] from [foo@bar@baz]. *)
Theorem createMatch_parameter_extent (path : Path) (s : string) :
  delimited path = true →
  (∀ values, createMatch path s = Some values ↔ accepts path s values) ∧
  (∀ values, createMatch path s = Some values → Forall (λ v, v ≠ "") values) ∧
  (createMatch path s = None ↔ ¬ ∃ values, accepts path s values) ∧
  run (createRouter (NT:=sample_table) ["[key]@[value]"]) "foo@bar@baz" =
    Some [mkResult "[key]@[value]" ["key"; "value"] ["foo"; "bar@baz"]].
Proof.
  intros Hd. split_and!.
  - intros values. by apply createMatch_accepts.
  - intros values H. apply createMatch_accepts in H; [|done].
    destruct path; [by destruct H as [_ ->]|]. by eapply captures_nonempty.
  - split.
    + intros H [values Hv]. apply createMatch_accepts in Hv; [|done]. congruence.
    + intros H. destruct (createMatch path s) as [values|] eqn:E; [|done].
      destruct H. exists values. by apply createMatch_accepts.
  - vm_compute. reflexivity.
Qed.

(** C2. Full-segment consumption fails on the code: the Matcher of the
    segment pattern [a[p]b] accepts the input segment [aXbY] and extracts
    [X]; the text [Y] after the last literal is never looked at, and the
    router built from that pattern yields the route for that pathname. *)
Theorem createMatch_trailing_text :
  parse (NT:=sample_table) "a[p]b" = inr [Lit "a"; Param "p"; Lit "b"] ∧
  createMatch [Lit "a"; Param "p"; Lit "b"] "aXbY" = Some ["X"] ∧
  run (createRouter (NT:=sample_table) ["a[p]b"]) "aXbY" =
    Some [mkResult "a[p]b" ["p"] ["X"]].
Proof. split_and!; vm_compute; reflexivity. Qed.

(** ** Association lists and the cache key *)

Section assoc_lemmas.
Context {K V : Type} (same : K → K → bool).
Hypothesis same_refl : ∀ k, same k k = true.
Hypothesis same_sym : ∀ k k', same k k' = same k' k.
Hypothesis same_trans : ∀ k1 k2 k3, same k1 k2 = true → same k2 k3 = true → same k1 k3 = true.

Lemma assoc_get_set (k k' : K) (v : V) m :
  assoc_get same k' (assoc_set same k v m) =
  if same k k' then Some v else assoc_get same k' m.
Proof.
  induction m as [|[k1 v1] m IH]; simpl.
  - done.
  - destruct (same k1 k) eqn:E1; simpl.
    + destruct (same k1 k') eqn:E2.
      * rewrite (same_trans k k1 k'); [done| |done]. by rewrite same_sym.
      * destruct (same k k') eqn:E3; [|done].
        rewrite (same_trans k1 k k') in E2; done.
    + destruct (same k1 k') eqn:E2; [|done].
      destruct (same k k') eqn:E3; [|done].
      rewrite (same_trans k1 k' k) in E1; [done..|]. by rewrite same_sym.
Qed.

Lemma assoc_get_elem (k : K) (v : V) m :
  assoc_get same k m = Some v → ∃ k', (k', v) ∈ m ∧ same k' k = true.
Proof.
  induction m as [|[k1 v1] m IH]; simpl; [done|].
  destruct (same k1 k) eqn:E.
  - intros [= ->]. exists k1. split; [left|done].
  - intros H. destruct (IH H) as (k' & Hin & Hs). exists k'. split; [by right|done].
Qed.

Lemma elem_of_assoc_set (k : K) (v : V) m x :
  x ∈ assoc_set same k v m →
  x ∈ m ∨ (x.2 = v ∧ same x.1 k = true ∧ (x.1 = k ∨ ∃ v0, (x.1, v0) ∈ m)).
Proof.
  induction m as [|[k1 v1] m IH]; simpl.
  - intros ->%list_elem_of_singleton. right. rewrite same_refl. auto.
  - destruct (same k1 k) eqn:E.
    + intros [->|H]%elem_of_cons; [|left; by right].
      right. split_and!; [done..|]. right. exists v1. by left.
    + intros [->|H]%elem_of_cons; [left; by left|].
      destruct (IH H) as [?|(? & ? & [?|[v0 ?]])]; [left; by right|by auto|].
      right. split_and!; [done..|]. right. exists v0. by right.
Qed.

(** The entries of the map after [assoc_set]: the entry of [k] is
    replaced where it stands, or a new one is added at the end. *)
Lemma assoc_set_split (k : K) (v : V) m :
  (∃ m1 k1 v1 m2, m = m1 ++ (k1, v1) :: m2 ∧ assoc_get same k m = Some v1 ∧
                  assoc_set same k v m = m1 ++ (k1, v) :: m2) ∨
  (assoc_get same k m = None ∧ assoc_set same k v m = m ++ [(k, v)]).
Proof.
  induction m as [|[k1 v1] m IH]; simpl.
  - by right.
  - destruct (same k1 k) eqn:E.
    + left. by exists [], k1, v1, m.
    + destruct IH as [(m1 & k2 & v2 & m2 & -> & Hg & Hs)|[Hg Hs]].
      * left. exists ((k1, v1) :: m1), k2, v2, m2. by rewrite Hs.
      * right. by rewrite Hs.
Qed.

End assoc_lemmas.

Lemma same_string_refl k : same_string k k = true.
Proof. by apply bool_decide_eq_true. Qed.
Lemma same_string_sym k k' : same_string k k' = same_string k' k.
Proof. unfold same_string. apply bool_decide_ext. naive_solver. Qed.
Lemma same_string_trans k1 k2 k3 :
  same_string k1 k2 = true → same_string k2 k3 = true → same_string k1 k3 = true.
Proof. unfold same_string. rewrite !bool_decide_eq_true. congruence. Qed.
Lemma same_fn_refl k : same_fn k k = true.
Proof. by apply bool_decide_eq_true. Qed.
Lemma same_fn_sym k k' : same_fn k k' = same_fn k' k.
Proof. unfold same_fn. apply bool_decide_ext. naive_solver. Qed.
Lemma same_fn_trans k1 k2 k3 :
  same_fn k1 k2 = true → same_fn k2 k3 = true → same_fn k1 k3 = true.
Proof. unfold same_fn. rewrite !bool_decide_eq_true. congruence. Qed.

Lemma pathToKey_foldl path name params :
  foldl (fun '(name, params) part =>
           match part with
           | Lit s => (name ++ [s], params)
           | Param n => (name ++ ["[]"], params ++ [n])
           end) (name, params) path =
  (name ++ (part_key <$> path), params ++ param_names path).
Proof.
  revert name params. induction path as [|[s|n] path IH]; intros name params; simpl.
  - by rewrite !app_nil_r.
  - rewrite IH. by rewrite <-app_assoc.
  - rewrite IH. unfold param_names. simpl. by rewrite <-!app_assoc.
Qed.

Lemma pathToKey_eq path params :
  pathToKey path params = (Str.concat "|" (part_key <$> path), params ++ param_names path).
Proof. unfold pathToKey. by rewrite pathToKey_foldl. Qed.

(** ** Insertion into the trie *)

(** One step of [addToTrie], by the transition of the Segment Path. *)
Lemma addToTrie_from_cons node path paths rt params cache :
  addToTrie_from node (path :: paths) rt params cache =
  match step_of path with
  | SStatic v =>
      let child := default emptyNode (assoc_get same_string v (static node)) in
      '(child, cache) ←! addToTrie_from child paths rt params cache;
      inr (mkNode (route node) (keys node)
             (assoc_set same_string v child (static node)) (dynamic node), cache)
  | SDynamic key =>
      let fn := default (mkMatch key path) (cache !! key) in
      let cache := <[key := fn]> cache in
      let child := default emptyNode (assoc_get same_fn fn (dynamic node)) in
      '(child, cache) ←! addToTrie_from child paths rt (params ++ param_names path) cache;
      inr (mkNode (route node) (keys node) (static node)
             (assoc_set same_fn fn child (dynamic node)), cache)
  end.
Proof.
  destruct path as [|[s|n] [|t path]]; try done.
  all: simpl addToTrie_from; unfold step_of; rewrite !pathToKey_eq; done.
Qed.

Lemma assoc_get_same_fn {V} (a b : Match) (m : list (Match * V)) :
  fn_id a = fn_id b → assoc_get same_fn a m = assoc_get same_fn b m.
Proof.
  intros E. induction m as [|[k v] m IH]; simpl; [done|].
  unfold same_fn at 1 3. by rewrite E, IH.
Qed.

Lemma route_at_empty steps : route_at emptyNode steps = None.
Proof. by destruct steps as [|[]]. Qed.

Lemma route_at_cons node st steps :
  route_at node (st :: steps) = route_at (default emptyNode (child_at node st)) steps.
Proof.
  unfold route_at. simpl. destruct (child_at node st); simpl; [done|].
  apply (eq_sym (route_at_empty steps)).
Qed.

Lemma cache_ids_insert cache key path :
  cache_ids cache →
  fn_id (default (mkMatch key path) (cache !! key)) = key ∧
  cache_ids (<[key := default (mkMatch key path) (cache !! key)]> cache).
Proof.
  intros Hc.
  assert (fn_id (default (mkMatch key path) (cache !! key)) = key) as Hid.
  { destruct (cache !! key) as [fn|] eqn:E; simpl; [by eapply Hc|done]. }
  split; [done|]. intros k fn. rewrite lookup_insert. case_decide; [|by apply Hc].
  intros [= <-]. by subst.
Qed.

(** [addToTrie] throws exactly when a route is registered at the end of
    the transitions of the paths; otherwise it registers the route
    there and leaves every other registration as it was. *)
Lemma addToTrie_from_route_at paths :
  ∀ node rt params cache, cache_ids cache →
  match route_at node (steps_of paths) with
  | Some _ => addToTrie_from node paths rt params cache = inl (DuplicateRoute rt)
  | None =>
      ∃ node' cache',
        addToTrie_from node paths rt params cache = inr (node', cache') ∧
        cache_ids cache' ∧
        ∀ steps, route_at node' steps =
                 if decide (steps = steps_of paths) then Some rt else route_at node steps
  end.
Proof.
  induction paths as [|path paths IH]; intros node rt params cache Hc.
  - unfold route_at. simpl. destruct (route node) eqn:E; [done|].
    eexists _, _. split_and!; [done..|].
    intros [|st steps]; [done|]. rewrite decide_False by done.
    unfold route_at. simpl. by destruct st.
  - unfold steps_of. rewrite fmap_cons, route_at_cons, addToTrie_from_cons.
    fold (steps_of paths).
    destruct (step_of path) as [v|key] eqn:Est; simpl child_at; cbv zeta.
    + remember (default emptyNode (assoc_get same_string v (static node))) as child
        eqn:Hchild.
      cbv zeta. specialize (IH child rt params cache Hc).
      destruct (route_at child (steps_of paths)) eqn:Er.
      * by rewrite IH.
      * destruct IH as (child' & cache' & -> & Hc' & Hr). simpl.
        eexists _, _. split_and!; [done..|].
        intros [|st steps].
        { by rewrite decide_False. }
        rewrite !route_at_cons. destruct st as [v'|k']; simpl.
        -- rewrite (assoc_get_set same_string same_string_sym same_string_trans).
           destruct (same_string v v') eqn:Hv.
           ++ apply bool_decide_eq_true in Hv. subst v'. simpl. rewrite Hr, <-Hchild.
              repeat case_decide; naive_solver.
           ++ apply bool_decide_eq_false in Hv.
              rewrite decide_False by naive_solver. done.
        -- repeat case_decide; naive_solver.
    + destruct (cache_ids_insert cache key path Hc) as [Hid Hc1].
      remember (default (mkMatch key path) (cache !! key)) as fn eqn:Hfn.
      rewrite (assoc_get_same_fn (mkMatch key []) fn) by done.
      remember (default emptyNode (assoc_get same_fn fn (dynamic node))) as child
        eqn:Hchild.
      cbv zeta. specialize (IH child rt (params ++ param_names path) _ Hc1).
      destruct (route_at child (steps_of paths)) eqn:Er.
      * by rewrite IH.
      * destruct IH as (child' & cache' & -> & Hc' & Hr). simpl.
        eexists _, _. split_and!; [done..|].
        intros [|st steps].
        { by rewrite decide_False. }
        rewrite !route_at_cons. destruct st as [v'|k']; simpl.
        -- repeat case_decide; naive_solver.
        -- rewrite (assoc_get_set same_fn same_fn_sym same_fn_trans).
           destruct (same_fn fn (mkMatch k' [])) eqn:Hv.
           ++ apply bool_decide_eq_true in Hv. simpl in Hv.
              assert (k' = key) as -> by congruence. simpl. rewrite Hr.
              rewrite (assoc_get_same_fn (mkMatch key []) fn), <-Hchild by done.
              repeat case_decide; naive_solver.
           ++ apply bool_decide_eq_false in Hv. simpl in Hv.
              rewrite decide_False by naive_solver. done.
Qed.

(** ** Registration *)

(** The loop of [createRouter] throws at the first route whose
    transitions are those of a route registered before it, and naming
    that route; without such a route it registers them all. *)
Lemma addRoutes_spec routes :
  ∀ root cache, cache_ids cache →
  match addRoutes addToTrie root cache routes with
  | inl e =>
      ∃ pre rt paths post,
        routes = pre ++ (rt, paths) :: post ∧ e = DuplicateRoute rt ∧
        NoDup (entry_steps <$> pre) ∧
        (∀ p, p ∈ (entry_steps <$> pre) → route_at root p = None) ∧
        (steps_of paths ∈ (entry_steps <$> pre) ∨
         is_Some (route_at root (steps_of paths)))
  | inr (root', cache') =>
      NoDup (entry_steps <$> routes) ∧
      (∀ p, p ∈ (entry_steps <$> routes) → route_at root p = None) ∧
      cache_ids cache' ∧
      ∀ p, is_Some (route_at root' p) ↔
           is_Some (route_at root p) ∨ p ∈ (entry_steps <$> routes)
  end.
Proof.
  induction routes as [|[rt paths] routes IH]; intros root cache Hc; simpl.
  - split_and!; [constructor|by intros ? ?%elem_of_nil|done|].
    intros p. rewrite elem_of_nil. split; [by left|]. by intros [?|?].
  - pose proof (addToTrie_from_route_at paths root rt [] cache Hc) as H.
    change (addToTrie root paths rt cache) with (addToTrie_from root paths rt [] cache).
    destruct (route_at root (steps_of paths)) as [r0|] eqn:Er.
    + rewrite H. simpl. exists [], rt, paths, routes. split_and!; try done.
      * constructor.
      * by intros ? ?%elem_of_nil.
      * right. by rewrite Er.
    + destruct H as (root1 & cache1 & -> & Hc1 & Hr). simpl.
      specialize (IH root1 cache1 Hc1).
      destruct (addRoutes addToTrie root1 cache1 routes) as [e|[root' cache']].
      * destruct IH as (pre & rt' & paths' & post & -> & -> & Hnd & Hfree & Hcol).
        exists ((rt, paths) :: pre), rt', paths', post.
        assert (∀ p, p ∈ (entry_steps <$> pre) →
                     p ≠ steps_of paths ∧ route_at root p = None) as Hpre.
        { intros p Hp. specialize (Hfree p Hp). rewrite Hr in Hfree.
          by case_decide. }
        split_and!; try done.
        -- rewrite fmap_cons. constructor; [|done]. intros Hin.
           by destruct (Hpre _ Hin).
        -- intros p. rewrite fmap_cons. intros [->|Hp]%elem_of_cons; [done|].
           by apply Hpre.
        -- rewrite fmap_cons. destruct Hcol as [Hcol|Hcol].
           ++ left. by right.
           ++ rewrite Hr in Hcol. case_decide as Hp; [|by right].
              left. rewrite Hp. by left.
      * destruct IH as (Hnd & Hfree & Hc' & Hiff).
        assert (∀ p, p ∈ (entry_steps <$> routes) →
                     p ≠ steps_of paths ∧ route_at root p = None) as Hpre.
        { intros p Hp. specialize (Hfree p Hp). rewrite Hr in Hfree.
          by case_decide. }
        split_and!; try done.
        -- constructor; [|done]. intros Hin.
           by destruct (Hpre _ Hin).
        -- intros p. intros [->|Hp]%elem_of_cons; [done|].
           by apply Hpre.
        -- intros p. rewrite Hiff, Hr, elem_of_cons.
           case_decide as Hp.
           ++ subst p. simpl. split; [|by eauto]. intros _. right. by left.
           ++ split; [intros [?|?]; eauto|]. intros [?|[?|?]]; eauto. done.
Qed.

Lemma cache_ids_empty : cache_ids ∅.
Proof. intros k fn. by rewrite lookup_empty. Qed.

(** Registration succeeds exactly when the routes have pairwise
    different transitions. *)
Lemma addRoutes_NoDup routes :
  NoDup (entry_steps <$> routes) ↔
  ∃ root cache, addRoutes addToTrie emptyNode ∅ routes = inr (root, cache).
Proof.
  pose proof (addRoutes_spec routes emptyNode ∅ cache_ids_empty) as H.
  destruct (addRoutes addToTrie emptyNode ∅ routes) as [e|[root cache]].
  - destruct H as (pre & rt & paths & post & -> & -> & Hnd & Hfree & Hcol).
    split; [|by intros (? & ? & ?)].
    rewrite fmap_app, fmap_cons. intros Hno. exfalso.
    apply NoDup_app in Hno as (_ & Hno & _).
    destruct Hcol as [Hcol|Hcol].
    + apply (Hno _ Hcol). by left.
    + rewrite route_at_empty in Hcol. by destruct Hcol.
  - destruct H as (Hnd & _). split; [by eauto|done].
Qed.

Lemma try_map_inr {A B} (f : A → Error + B) l l' :
  try_map f l = inr l' ↔ Forall2 (λ x y, f x = inr y) l l'.
Proof.
  revert l'. induction l as [|x l IH]; intros l'; simpl.
  - split; [intros [= <-]; constructor|]. by intros ->%Forall2_nil_inv_l.
  - destruct (f x) as [e|y] eqn:E; simpl.
    + split; [done|]. intros (y & l2 & Hy & _ & _)%Forall2_cons_inv_l. congruence.
    + destruct (try_map f l) as [e|ys] eqn:E2; simpl.
      * split; [done|]. intros (y' & l2 & Hy & Hl & ->)%Forall2_cons_inv_l.
        apply IH in Hl. done.
      * split.
        -- intros [= <-]. constructor; [done|]. by apply IH.
        -- intros (y' & l2 & Hy & Hl & ->)%Forall2_cons_inv_l.
           apply IH in Hl. congruence.
Qed.

(** ** The comparator *)

Lemma code_inj c d : code c = code d → c = d.
Proof. destruct c, d. simpl. by intros ->. Qed.

Lemma str_compare_refl x : Str.compare x x = Eq.
Proof. induction x as [|c x IH]; [done|]. simpl. by rewrite N.compare_refl. Qed.

Lemma str_compare_eq x y : Str.compare x y = Eq → x = y.
Proof.
  revert y. induction x as [|c x IH]; intros [|d y]; simpl; try done.
  destruct (code c ?= code d)%N eqn:E; try done.
  apply N.compare_eq in E. apply code_inj in E. intros H%IH. by subst.
Qed.

Lemma str_compare_antisym x y : Str.compare y x = CompOpp (Str.compare x y).
Proof.
  revert y. induction x as [|c x IH]; intros [|d y]; simpl; try done.
  rewrite (N.compare_antisym (code c) (code d)).
  destruct (code c ?= code d)%N; simpl; [apply IH|done..].
Qed.

Lemma str_compare_lt_trans x y z :
  Str.compare x y = Lt → Str.compare y z = Lt → Str.compare x z = Lt.
Proof.
  revert y z. induction x as [|c x IH]; intros [|d y] [|e z]; simpl; try done.
  destruct (code c ?= code d)%N eqn:E1, (code d ?= code e)%N eqn:E2; try done.
  - apply N.compare_eq in E1. rewrite E1, E2. apply IH.
  - apply N.compare_eq in E1. by rewrite E1, E2.
  - apply N.compare_eq in E2. by rewrite <-E2, E1.
  - rewrite N.compare_lt_iff in E1, E2.
    assert ((code c ?= code e)%N = Lt) as -> by (apply N.compare_lt_iff; lia). done.
Qed.

Lemma gtb_irrefl x : Str.gtb x x = false.
Proof. unfold Str.gtb. by rewrite str_compare_refl. Qed.

Lemma gtb_antisym x y : x ≠ y → Str.gtb y x = negb (Str.gtb x y).
Proof.
  intros Hne. unfold Str.gtb. rewrite (str_compare_antisym x y).
  destruct (Str.compare x y) eqn:E; try done.
  by apply str_compare_eq in E.
Qed.

Lemma gtb_compare_Lt u v : u ≠ v → Str.gtb u v = false ↔ Str.compare u v = Lt.
Proof.
  intros Hne. unfold Str.gtb.
  destruct (Str.compare u v) eqn:E; try done.
  by apply str_compare_eq in E.
Qed.

Lemma gtb_trans x y z :
  x ≠ y → y ≠ z → Str.gtb x y = false → Str.gtb y z = false →
  x ≠ z ∧ Str.gtb x z = false.
Proof.
  intros Hxy Hyz H1 H2.
  apply gtb_compare_Lt in H1; [|done]. apply gtb_compare_Lt in H2; [|done].
  pose proof (str_compare_lt_trans _ _ _ H1 H2) as H3. split.
  - intros ->. by rewrite str_compare_refl in H3.
  - unfold Str.gtb. by rewrite H3.
Qed.

Lemma tokens_cmp_range a b : (tokens_cmp a b = -1 ∨ tokens_cmp a b = 0 ∨ tokens_cmp a b = 1)%Z.
Proof.
  revert b. induction a as [|[x|n] a IH]; intros [|[y|m] b]; simpl; auto.
  case_decide; [done|]. destruct (Str.gtb x y); auto.
Qed.

Lemma tokens_cmp_antisym a b : (tokens_cmp b a = - tokens_cmp a b)%Z.
Proof.
  revert b. induction a as [|[x|n] a IH]; intros [|[y|m] b]; simpl; try done.
  repeat case_decide; try done; try congruence.
  rewrite (gtb_antisym x y) by done. by destruct (Str.gtb x y).
Qed.

Lemma shape_cons t a : shape (t :: a) = erase_name t :: shape a.
Proof. done. Qed.

Lemma tokens_cmp_shape a b : tokens_cmp a b = 0%Z ↔ shape a = shape b.
Proof.
  revert b.
  induction a as [|[x|n] a IH]; intros [|[y|m] b]; rewrite ?shape_cons;
    cbn [tokens_cmp erase_name]; try done.
  - case_decide as Hxy.
    + subst y. rewrite IH. split; [by intros ->|by intros [= ?]].
    + destruct (Str.gtb x y); (split; [done|]); intros [= ? ?]; done.
  - rewrite IH. split; [by intros ->|by intros [= ?]].
Qed.

Lemma tokens_cmp_shape_l a a' b : shape a = shape a' → tokens_cmp a b = tokens_cmp a' b.
Proof.
  revert a' b.
  induction a as [|[x|n] a IH]; intros [|[x'|n'] a'] [|[y|m] b]; rewrite ?shape_cons;
    cbn [tokens_cmp erase_name]; intros [=]; subst; try done.
  - case_decide; [by apply IH|done].
  - by apply IH.
Qed.

Lemma tokens_cmp_shape_r a b b' : shape b = shape b' → tokens_cmp a b = tokens_cmp a b'.
Proof.
  intros H. rewrite (tokens_cmp_antisym b a), (tokens_cmp_antisym b' a).
  by rewrite (tokens_cmp_shape_l b b').
Qed.

Lemma tokens_cmp_trans a b c :
  (tokens_cmp a b < 0 → tokens_cmp b c < 0 → tokens_cmp a c < 0)%Z.
Proof.
  revert b c. induction a as [|[x|n] a IH]; intros [|[y|m] b] [|[z|k] c];
    cbn [tokens_cmp]; try done; try lia.
  - destruct (decide (x = y)) as [->|Hxy], (decide (y = z)) as [->|Hyz].
    + apply IH.
    + auto.
    + rewrite decide_False by done. auto.
    + destruct (Str.gtb x y) eqn:E1; [lia|]. destruct (Str.gtb y z) eqn:E2; [lia|].
      destruct (gtb_trans x y z) as [Hxz ->]; try done.
      by rewrite decide_False.
  - apply IH.
Qed.

(** The loops of the comparator compute the structural comparison. *)
Lemma compare_tokens_structural A B todo j :
  todo = length A `max` length B - j →
  compare_tokens A B j todo =
  if decide (tokens_cmp (drop j A) (drop j B) = 0)%Z then None
  else Some (tokens_cmp (drop j A) (drop j B)).
Proof.
  revert j. induction todo as [|todo IH]; intros j Hj.
  - rewrite !drop_ge by lia. done.
  - simpl. specialize (IH (S j) ltac:(lia)).
    destruct (A !! j) as [ta|] eqn:EA, (B !! j) as [tb|] eqn:EB.
    + rewrite (drop_S _ _ _ EA), (drop_S _ _ _ EB).
      destruct ta as [x|n], tb as [y|m]; simpl; try done.
      repeat case_decide; try done; try congruence.
      all: destruct (Str.gtb x y); done.
    + rewrite (drop_S _ _ _ EA). apply lookup_ge_None in EB.
      rewrite (drop_ge B) by done. by destruct ta.
    + rewrite (drop_S _ _ _ EB). apply lookup_ge_None in EA.
      rewrite (drop_ge A) by done. by destruct tb.
    + apply lookup_ge_None in EA, EB. lia.
Qed.

Lemma compare_segments_structural a b todo i :
  length a = length b → todo = length a - i →
  default 0%Z (compare_segments a b i todo) = segments_cmp (drop i a) (drop i b).
Proof.
  intros Hlen. revert i. induction todo as [|todo IH]; intros i Hi.
  - rewrite !drop_ge by lia. done.
  - simpl. specialize (IH (S i) ltac:(lia)).
    destruct (a !! i) as [x|] eqn:Ea; [|apply lookup_ge_None in Ea; lia].
    destruct (b !! i) as [y|] eqn:Eb; [|apply lookup_ge_None in Eb; lia].
    rewrite (drop_S _ _ _ Ea), (drop_S _ _ _ Eb). simpl.
    rewrite (compare_tokens_structural x y _ 0) by lia. rewrite !drop_0.
    case_decide; done.
Qed.

Lemma compare_structural a b :
  compare a b =
  if decide (length a ≠ length b) then (Z.of_nat (length a) - Z.of_nat (length b))%Z
  else segments_cmp a b.
Proof.
  unfold compare. case_decide as Hlen; [done|].
  by rewrite (compare_segments_structural a b _ 0) by lia.
Qed.

Lemma segments_cmp_antisym a b : (segments_cmp b a = - segments_cmp a b)%Z.
Proof.
  revert b. induction a as [|x a IH]; intros [|y b]; simpl; try done.
  rewrite (tokens_cmp_antisym x y). repeat case_decide; try lia. apply IH.
Qed.

Lemma segments_cmp_shape a b :
  length a = length b → segments_cmp a b = 0%Z ↔ shape <$> a = shape <$> b.
Proof.
  revert b. induction a as [|x a IH]; intros [|y b] Hlen; try done.
  rewrite !fmap_cons. cbn [segments_cmp]. simpl in Hlen. case_decide as Hxy.
  - rewrite IH by lia. apply tokens_cmp_shape in Hxy.
    split; [by intros ->; rewrite Hxy|by intros [= ? ?]].
  - split; [done|]. intros [= Hs _]. by apply tokens_cmp_shape in Hs.
Qed.

Lemma segments_cmp_shape_l a a' b :
  shape <$> a = shape <$> a' → segments_cmp a b = segments_cmp a' b.
Proof.
  revert a' b. induction a as [|x a IH]; intros [|x' a'] [|y b]; rewrite ?fmap_cons;
    intros [=]; simpl; try done.
  rewrite (tokens_cmp_shape_l x x' y) by done. rewrite (IH a' b) by done. done.
Qed.

Lemma segments_cmp_trans a b c :
  (segments_cmp a b < 0 → segments_cmp b c < 0 → segments_cmp a c < 0)%Z.
Proof.
  revert b c. induction a as [|x a IH]; intros [|y b] [|z c]; simpl; try done; try lia.
  destruct (decide (tokens_cmp x y = 0)%Z) as [Hxy|Hxy],
           (decide (tokens_cmp y z = 0)%Z) as [Hyz|Hyz].
  - apply tokens_cmp_shape in Hxy. rewrite (tokens_cmp_shape_l x y z Hxy).
    rewrite decide_True by done. apply IH.
  - apply tokens_cmp_shape in Hxy. rewrite (tokens_cmp_shape_l x y z Hxy).
    rewrite decide_False by done. done.
  - apply tokens_cmp_shape in Hyz. rewrite <-(tokens_cmp_shape_r x y z Hyz).
    rewrite decide_False by done. done.
  - intros H1 H2. pose proof (tokens_cmp_trans x y z H1 H2).
    rewrite decide_False by lia. done.
Qed.

Lemma compare_antisym a b : (compare b a = - compare a b)%Z.
Proof.
  rewrite !compare_structural. repeat case_decide; try lia; try congruence.
  apply segments_cmp_antisym.
Qed.

Lemma compare_tied a b : compare a b = 0%Z ↔ shape <$> a = shape <$> b.
Proof.
  rewrite compare_structural. case_decide as Hlen.
  - split; [lia|]. intros H. apply (f_equal length) in H.
    rewrite !length_fmap in H. done.
  - by apply segments_cmp_shape.
Qed.

Lemma compare_shape_l a a' b :
  shape <$> a = shape <$> a' → compare a b = compare a' b.
Proof.
  intros H. rewrite !compare_structural.
  assert (length a = length a') as ->.
  { apply (f_equal length) in H. by rewrite !length_fmap in H. }
  by rewrite (segments_cmp_shape_l a a' b).
Qed.

Lemma compare_shape_r a b b' :
  shape <$> b = shape <$> b' → compare a b = compare a b'.
Proof.
  intros H. rewrite (compare_antisym b a), (compare_antisym b' a).
  by rewrite (compare_shape_l b b').
Qed.

Lemma compare_trans_lt a b c :
  (compare a b < 0 → compare b c < 0 → compare a c < 0)%Z.
Proof.
  rewrite !compare_structural. repeat case_decide; try lia.
  apply segments_cmp_trans.
Qed.

Lemma compare_trans_le a b c :
  (compare a b ≤ 0 → compare b c ≤ 0 → compare a c ≤ 0)%Z.
Proof.
  intros H1 H2.
  destruct (decide (compare a b = 0%Z)) as [E1|E1].
  { apply compare_tied in E1. by rewrite (compare_shape_l a b c). }
  destruct (decide (compare b c = 0%Z)) as [E2|E2].
  { apply compare_tied in E2. by rewrite <-(compare_shape_r a b c). }
  pose proof (compare_trans_lt a b c). lia.
Qed.

(** ** Sorting *)

Section sorting.
Context {A : Type} (cmp : A → A → Z).
Hypothesis cmp_antisym : ∀ a b, (cmp b a = - cmp a b)%Z.
Hypothesis cmp_trans : ∀ a b c, (cmp a b ≤ 0 → cmp b c ≤ 0 → cmp a c ≤ 0)%Z.

Lemma sort_insert_Permutation x l : sort_insert cmp x l ≡ₚ x :: l.
Proof.
  induction l as [|y l IH]; simpl; [done|].
  case_decide; [done|]. rewrite IH. apply Permutation_swap.
Qed.

Lemma sort_Permutation l : sort cmp l ≡ₚ l.
Proof.
  induction l as [|x l IH]; simpl; [done|].
  by rewrite sort_insert_Permutation, IH.
Qed.

Lemma sort_insert_sorted x l :
  StronglySorted (λ a b, cmp a b ≤ 0)%Z l →
  StronglySorted (λ a b, cmp a b ≤ 0)%Z (sort_insert cmp x l).
Proof.
  induction 1 as [|y l Hl IH Hy]; simpl.
  - repeat constructor.
  - case_decide as Hxy.
    + constructor; [by constructor|]. constructor; [done|].
      eapply Forall_impl; [done|]. intros z Hz. by eapply cmp_trans.
    + constructor; [done|].
      rewrite sort_insert_Permutation. constructor; [|done].
      specialize (cmp_antisym x y). lia.
Qed.

Lemma sort_sorted l : StronglySorted (λ a b, cmp a b ≤ 0)%Z (sort cmp l).
Proof.
  induction l as [|x l IH]; simpl; [constructor|]. by apply sort_insert_sorted.
Qed.

Lemma cmp_tied_trans a b c : cmp a b = 0%Z → cmp a c = 0%Z → cmp b c = 0%Z.
Proof.
  intros H1 H2.
  pose proof (cmp_antisym a b). pose proof (cmp_antisym a c).
  pose proof (cmp_antisym b c).
  pose proof (cmp_trans b a c). pose proof (cmp_trans c a b). lia.
Qed.

(** The sort is stable: the elements tied with [x0] keep their order. *)
Lemma sort_insert_stable x0 x l :
  filter (λ y, cmp x0 y = 0%Z) (sort_insert cmp x l) =
  filter (λ y, cmp x0 y = 0%Z) (x :: l).
Proof.
  induction l as [|y l IH]; simpl; [done|].
  case_decide as Hxy; [done|].
  rewrite (filter_cons _ y), IH, !filter_cons.
  destruct (decide (cmp x0 x = 0%Z)) as [Hx|Hx]; [|done].
  destruct (decide (cmp x0 y = 0%Z)) as [Hy|Hy]; [|done].
  pose proof (cmp_tied_trans x0 x y Hx Hy). lia.
Qed.

Lemma sort_stable x0 l :
  filter (λ y, cmp x0 y = 0%Z) (sort cmp l) = filter (λ y, cmp x0 y = 0%Z) l.
Proof.
  induction l as [|x l IH]; simpl; [done|].
  by rewrite sort_insert_stable, !filter_cons, IH.
Qed.

(** Without ties between different elements, the sorted list does not
    depend on the order of the input. *)
Lemma sort_unique l1 l2 :
  l1 ≡ₚ l2 →
  (∀ x y, x ∈ l1 → y ∈ l1 → cmp x y = 0%Z → x = y) →
  sort cmp l1 = sort cmp l2.
Proof.
  intros Hp Hties.
  apply (StronglySorted_unique_strong (λ a b, cmp a b ≤ 0)%Z).
  - intros x y Hx Hy H1 H2. apply Hties.
    + by rewrite sort_Permutation in Hx.
    + by rewrite sort_Permutation, <-Hp in Hy.
    + specialize (cmp_antisym x y). lia.
  - apply sort_sorted.
  - apply sort_sorted.
  - by rewrite !sort_Permutation.
Qed.

End sorting.

(** ** The route sorter *)

Lemma compare_entries_antisym x y : (compare_entries y x = - compare_entries x y)%Z.
Proof. apply compare_antisym. Qed.

Lemma compare_entries_trans x y z :
  (compare_entries x y ≤ 0 → compare_entries y z ≤ 0 → compare_entries x z ≤ 0)%Z.
Proof. apply compare_trans_le. Qed.

Lemma try_map_omap {A B} (f : A → Error + B) l l' :
  try_map f l = inr l' ↔
  Forall (λ x, ∃ y, f x = inr y) l ∧
  l' = omap (λ x, match f x with inr y => Some y | inl _ => None end) l.
Proof.
  revert l'. induction l as [|x l IH]; intros l'; simpl.
  - split; [intros [= <-]; by split|by intros [_ ->]].
  - destruct (f x) as [e|y] eqn:E; simpl.
    + split; [done|]. intros [[[y Hy] _]%Forall_cons _]. congruence.
    + destruct (try_map f l) as [e|ys] eqn:E2; simpl.
      * split; [done|]. intros [[_ Hl]%Forall_cons _].
        discriminate (proj2 (IH _) (conj Hl eq_refl)).
      * destruct (proj1 (IH ys) eq_refl) as [Hl ->]. split.
        -- intros [= <-]. split; [|done]. constructor; [by eexists|done].
        -- by intros [_ ->].
Qed.

Lemma buildRoutes_inr {NT : NameTable} inputs routes :
  buildRoutes inputs = inr routes ↔
  Forall (λ rt, is_Some (entry_of rt)) inputs ∧
  routes = sort compare_entries (omap entry_of inputs).
Proof.
  unfold buildRoutes.
  set (f := λ rt, bind (segments rt) (λ paths, inr (rt, paths))).
  assert (∀ rt, entry_of rt = match f rt with inr y => Some y | inl _ => None end) as Hf.
  { intros rt. unfold entry_of, f. by destruct (segments rt). }
  assert (omap entry_of inputs =
          omap (λ x, match f x with inr y => Some y | inl _ => None end) inputs) as ->.
  { apply list_omap_ext. apply Forall2_same_length_lookup_2; [done|].
    intros i x y Hx Hy. assert (x = y) as -> by congruence. apply Hf. }
  assert (Forall (λ rt, is_Some (entry_of rt)) inputs ↔
          Forall (λ x, ∃ y, f x = inr y) inputs) as ->.
  { apply Forall_proper; [|done]. intros rt. rewrite Hf.
    destruct (f rt); split; intros [? ?]; try done; by eexists. }
  destruct (try_map f inputs) as [e|entries] eqn:E; simpl.
  - split; [done|]. intros [Hall _].
    pose proof (proj2 (try_map_omap f inputs _) (conj Hall eq_refl)). congruence.
  - apply try_map_omap in E as [Hall ->]. split; [by intros [= <-]|by intros [_ ->]].
Qed.

Lemma entry_of_Some {NT : NameTable} rt e : entry_of rt = Some e ↔ e.1 = rt ∧ segments rt = inr e.2.
Proof.
  unfold entry_of. destruct (segments rt) as [err|paths], e as [r p]; simpl.
  - split; [done|]. by intros [_ ?].
  - split; [by intros [= -> ->]|]. by intros [-> [= ->]].
Qed.

Lemma omap_lookup_total {A B} (f : A → option B) l i x y :
  Forall (λ x, is_Some (f x)) l → l !! i = Some x → f x = Some y →
  omap f l !! i = Some y.
Proof.
  intros Hall. revert i. induction Hall as [|z l [w Hz] Hl IH]; intros i; [done|].
  simpl. rewrite Hz. destruct i as [|i]; simpl.
  - intros [= ->]. congruence.
  - apply IH.
Qed.

Lemma buildRoutes_Permutation {NT : NameTable} inputs routes :
  buildRoutes inputs = inr routes → routes ≡ₚ omap entry_of inputs.
Proof. intros [_ ->]%buildRoutes_inr. apply sort_Permutation. Qed.

Lemma buildRoutes_elem {NT : NameTable} inputs routes rt paths :
  buildRoutes inputs = inr routes → (rt, paths) ∈ routes →
  rt ∈ inputs ∧ segments rt = inr paths.
Proof.
  intros H Hin. rewrite (buildRoutes_Permutation _ _ H) in Hin.
  apply list_elem_of_omap in Hin as (x & Hx & [Hr Hs]%entry_of_Some).
  simpl in *. by subst.
Qed.

Lemma createRouter_unfold {NT : NameTable} inputs :
  createRouter inputs =
  routes ←! buildRoutes inputs;
  '(root, _) ←! addRoutes addToTrie emptyNode ∅ routes;
  inr (fun pathname => build root (Str.split "/" pathname) []).
Proof.
  unfold createRouter, buildTrie. destruct (buildRoutes inputs) as [e|routes]; [done|].
  simpl. by destruct (addRoutes addToTrie emptyNode ∅ routes) as [e|[root cache]].
Qed.

(** C6. Duplicate detection: when every registered pattern parses and two
    of them, at different places of the input, have the same sequence of
    trie transitions (the same literal text on a static segment, the same
    cache key on a dynamic one), [createRouter] throws the duplicate-route
    error.  The route the message names is the one being inserted when
    the collision is found: a route of the input whose transitions are
    those of a route before it in the sorted order.  For the patterns
    [[a]] and [[b]] it names [[b]]. *)
Theorem createRouter_duplicate {NT : NameTable} (inputs : list string) (i j : nat) (ri rj : string)
    (pi pj : list Path) :
  Forall (λ rt, is_Some (entry_of rt)) inputs →
  i ≠ j → inputs !! i = Some ri → inputs !! j = Some rj →
  segments ri = inr pi → segments rj = inr pj →
  steps_of pi = steps_of pj →
  (∃ rt pre paths post,
     createRouter inputs = inl (DuplicateRoute rt) ∧
     message (DuplicateRoute rt) = "Route is already defined for " +:+ rt ∧
     rt ∈ inputs ∧
     buildRoutes inputs = inr (pre ++ (rt, paths) :: post) ∧
     steps_of paths ∈ (entry_steps <$> pre)) ∧
  createRouter (NT:=sample_table) ["[a]"; "[b]"] = inl (DuplicateRoute "[b]").
Proof.
  intros Hall Hij Hi Hj Hpi Hpj Hsteps. split; [|by vm_compute].
  destruct (buildRoutes inputs) as [e|routes] eqn:Hb.
  { pose proof (proj2 (buildRoutes_inr inputs _) (conj Hall eq_refl)). congruence. }
  pose proof (buildRoutes_Permutation _ _ Hb) as Hperm.
  assert (¬ NoDup (entry_steps <$> routes)) as Hdup.
  { rewrite Hperm. intros Hnd. apply Hij.
    eapply (NoDup_lookup _ i j (steps_of pi)); [done|..].
    - rewrite list_lookup_fmap.
      rewrite (omap_lookup_total _ _ _ _ (ri, pi) Hall Hi); [done|].
      by apply entry_of_Some.
    - rewrite list_lookup_fmap.
      rewrite (omap_lookup_total _ _ _ _ (rj, pj) Hall Hj); [by rewrite Hsteps|].
      by apply entry_of_Some. }
  pose proof (addRoutes_spec routes emptyNode ∅ cache_ids_empty) as Hspec.
  rewrite createRouter_unfold, Hb. simpl.
  destruct (addRoutes addToTrie emptyNode ∅ routes) as [e|[root cache]].
  - destruct Hspec as (pre & rt & paths & post & -> & -> & Hnd & Hfree & Hcol).
    exists rt, pre, paths, post. split_and!; try done.
    + eapply (buildRoutes_elem inputs _ rt paths); [done|].
      apply elem_of_app. right. by left.
    + destruct Hcol as [Hcol|Hcol]; [done|].
      rewrite route_at_empty in Hcol. by destruct Hcol.
  - by destruct Hspec as [Hnd _].
Qed.

Lemma tokens_cmp_app ta tb a b :
  shape ta = shape tb → tokens_cmp (ta ++ a) (tb ++ b) = tokens_cmp a b.
Proof.
  revert tb. induction ta as [|[x|n] ta IH]; intros [|[y|m] tb]; rewrite ?shape_cons;
    cbn [erase_name]; intros [=]; subst; simpl; try done.
  - rewrite decide_True by done. by apply IH.
  - by apply IH.
Qed.

Lemma segments_cmp_app sa sb a b :
  shape <$> sa = shape <$> sb → segments_cmp (sa ++ a) (sb ++ b) = segments_cmp a b.
Proof.
  revert sb. induction sa as [|x sa IH]; intros [|y sb]; rewrite ?fmap_cons;
    intros [=]; simpl; try done.
  rewrite decide_True by by apply tokens_cmp_shape. by apply IH.
Qed.

(** The comparison of two routes with the same number of segments, at
    the first position where their tokens are compared. *)
Lemma compare_at sa sb ta tb x y ra rb resta restb :
  length (sa ++ (ta ++ x :: ra) :: resta) = length (sb ++ (tb ++ y :: rb) :: restb) →
  shape <$> sa = shape <$> sb → shape ta = shape tb →
  tokens_cmp (x :: ra) (y :: rb) ≠ 0%Z →
  compare (sa ++ (ta ++ x :: ra) :: resta) (sb ++ (tb ++ y :: rb) :: restb) =
  tokens_cmp (x :: ra) (y :: rb).
Proof.
  intros Hlen Hs Ht Hne. rewrite compare_structural, decide_False by (by intros []).
  rewrite segments_cmp_app by done. simpl segments_cmp.
  rewrite tokens_cmp_app by done. by rewrite decide_False.
Qed.

Lemma StronglySorted_weaken {A} (R R' : relation A) l :
  (∀ x y, R x y → R' x y) → StronglySorted R l → StronglySorted R' l.
Proof.
  intros HR. induction 1 as [|x l Hl IH Hx]; constructor; [done|].
  eapply Forall_impl; [done|]. intros y. apply HR.
Qed.

Lemma unit_lt_cons c u v : unit_lt u v → unit_lt (String c u) (String c v).
Proof.
  intros [w [(d & v' & -> & ->)|(c' & d & u' & v' & -> & -> & Hlt)]]; exists (String c w).
  - left. by exists d, v'.
  - right. by exists c', d, u', v'.
Qed.

(** The comparison of the language is the order of the code units. *)
Lemma str_compare_Lt u v : Str.compare u v = Lt ↔ unit_lt u v.
Proof.
  split.
  - revert v. induction u as [|c u IH]; intros [|d v]; simpl; try done.
    + intros _. exists "". left. by exists d, v.
    + destruct (code c ?= code d)%N eqn:E; try done.
      * apply N.compare_eq, code_inj in E. subst d. intros H. by apply unit_lt_cons, IH.
      * intros _. exists "". right. exists c, d, u, v. split_and!; [done..|].
        by apply N.compare_lt_iff.
  - intros [w H]. revert u v H. induction w as [|e w IH]; intros u v H.
    + destruct H as [(d & v' & -> & ->)|(c & d & u' & v' & -> & -> & Hlt)]; [done|].
      simpl. by apply N.compare_lt_iff in Hlt as ->.
    + destruct H as [(d & v' & -> & ->)|(c & d & u' & v' & -> & -> & Hlt)].
      * rewrite sapp_cons. simpl. rewrite N.compare_refl. apply IH.
        left. by exists d, v'.
      * rewrite !sapp_cons. simpl. rewrite N.compare_refl. apply IH.
        right. by exists c, d, u', v'.
Qed.

(** The comparison of two routes with the same number of segments, at a
    position where one segment has a token and the other has ended. *)
Lemma compare_at_end sa sb ta tb x ra resta restb :
  length (sa ++ (ta ++ x :: ra) :: resta) = length (sb ++ tb :: restb) →
  shape <$> sa = shape <$> sb → shape ta = shape tb →
  compare (sa ++ (ta ++ x :: ra) :: resta) (sb ++ tb :: restb) =
  tokens_cmp (x :: ra) [].
Proof.
  intros Hlen Hs Ht. rewrite compare_structural, decide_False by (by intros []).
  rewrite segments_cmp_app by done. simpl segments_cmp.
  assert (tokens_cmp (ta ++ x :: ra) tb = tokens_cmp (x :: ra) []) as ->.
  { rewrite <-(tokens_cmp_app ta tb (x :: ra) []) by done. by rewrite app_nil_r. }
  rewrite decide_False; [done|]. by destruct x.
Qed.

(** C4, amended.  [buildRoutes] returns the input routes, each with its
    Segment Paths, reordered so that no route stands after one it sorts
    before, and routes the ordering does not separate keep their input
    order.  The ordering: (1) a route with fewer segments sorts first;
    (2) among routes with the same number of segments, at the first
    position where the tokens differ a literal sorts before a parameter
    and before the end of the other segment, the end of a segment sorts
    before a parameter, and two different literals sort as their texts
    compare, UTF-16 code unit by code unit; parameters compare equal
    whatever their names; (3) two routes are tied exactly when they
    differ in parameter names only, and tied routes keep their input
    order. *)
Theorem buildRoutes_sorted {NT : NameTable} (inputs : list string) (routes : list (string * list Path)) :
  buildRoutes inputs = inr routes →
  routes ≡ₚ omap entry_of inputs ∧
  Forall (λ x, x.1 ∈ inputs ∧ segments x.1 = inr x.2) routes ∧
  StronglySorted (λ x y, before x.2 y.2 ∨ tied x.2 y.2) routes ∧
  (∀ x : string * list Path,
     filter (λ y, tied x.2 y.2) routes =
     filter (λ y, tied x.2 y.2) (omap entry_of inputs)) ∧
  (∀ a b, length a < length b → before a b) ∧
  (∀ sa sb ta tb x y ra rb resta restb,
     length (sa ++ (ta ++ x :: ra) :: resta) = length (sb ++ (tb ++ y :: rb) :: restb) →
     shape <$> sa = shape <$> sb → shape ta = shape tb →
     let a := sa ++ (ta ++ x :: ra) :: resta in
     let b := sb ++ (tb ++ y :: rb) :: restb in
     match x, y with
     | Lit u, Param _ => before a b
     | Param _, Lit v => before b a
     | Lit u, Lit v => u ≠ v → (before a b ↔ unit_lt u v)
     | Param _, Param _ => True
     end) ∧
  (∀ sa sb ta tb x ra resta restb,
     length (sa ++ (ta ++ x :: ra) :: resta) = length (sb ++ tb :: restb) →
     shape <$> sa = shape <$> sb → shape ta = shape tb →
     let a := sa ++ (ta ++ x :: ra) :: resta in
     let b := sb ++ tb :: restb in
     match x with
     | Lit _ => before a b
     | Param _ => before b a
     end) ∧
  (∀ a b, tied a b ↔ shape <$> a = shape <$> b).
Proof.
  intros Hb. pose proof (proj1 (buildRoutes_inr _ _) Hb) as [Hall ->].
  split_and!.
  - apply sort_Permutation.
  - apply Forall_forall. intros [rt paths] Hin.
    by eapply (buildRoutes_elem inputs _ rt paths).
  - eapply StronglySorted_weaken;
      [|apply (sort_sorted compare_entries compare_entries_antisym compare_entries_trans)].
    intros x y. unfold before, tied, compare_entries. simpl. lia.
  - intros x.
    apply (sort_stable compare_entries compare_entries_antisym compare_entries_trans).
  - intros a b Hlen. unfold before. rewrite compare_structural.
    rewrite decide_True by lia. lia.
  - intros sa sb ta tb x y ra rb resta restb Hlen Hs Ht a b. subst a b.
    destruct x as [u|n], y as [v|m]; [| | |done]; unfold before.
    + intros Hne. rewrite compare_at; try done.
      * simpl. rewrite decide_False by done.
        rewrite <-str_compare_Lt, <-gtb_compare_Lt by done. by destruct (Str.gtb u v).
      * simpl. rewrite decide_False by done. by destruct (Str.gtb u v).
    + by rewrite compare_at.
    + rewrite compare_antisym, compare_at; done.
  - intros sa sb ta tb x ra resta restb Hlen Hs Ht a b. subst a b. unfold before.
    destruct x as [u|n].
    + by rewrite compare_at_end.
    + rewrite compare_antisym, compare_at_end; done.
  - apply compare_tied.
Qed.

(** ** Independence of the input order *)

Lemma part_key_erase t : part_key (erase_name t) = part_key t.
Proof. by destruct t. Qed.

Lemma part_keys_shape path : part_key <$> shape path = part_key <$> path.
Proof.
  unfold shape. rewrite <-list_fmap_compose. apply list_fmap_ext.
  intros ? [] ?; done.
Qed.

Lemma pathToKey_shape path : (pathToKey (shape path) []).1 = (pathToKey path []).1.
Proof. rewrite !pathToKey_eq. simpl. by rewrite part_keys_shape. Qed.

Lemma step_of_shape path : step_of (shape path) = step_of path.
Proof.
  destruct path as [|[s|n] [|t path]]; try done.
  - exact (f_equal SDynamic (pathToKey_shape (Lit s :: t :: path))).
  - exact (f_equal SDynamic (pathToKey_shape (Param n :: t :: path))).
Qed.

Lemma steps_of_shapes a : steps_of (shape <$> a) = steps_of a.
Proof.
  unfold steps_of. rewrite <-list_fmap_compose. apply list_fmap_ext.
  intros i x _. apply step_of_shape.
Qed.

Lemma steps_of_shape a b : shape <$> a = shape <$> b → steps_of a = steps_of b.
Proof. intros H. by rewrite <-(steps_of_shapes a), H, steps_of_shapes. Qed.

Lemma NoDup_fmap_elem {A B} (f : A → B) l x y :
  NoDup (f <$> l) → x ∈ l → y ∈ l → f x = f y → x = y.
Proof.
  induction l as [|z l IH]; [by intros _ ?%elem_of_nil|].
  rewrite fmap_cons, NoDup_cons. intros [Hz Hl].
  intros [->|Hx]%elem_of_cons [->|Hy]%elem_of_cons Hf; try done.
  - destruct Hz. rewrite Hf. by apply list_elem_of_fmap_2.
  - destruct Hz. rewrite <-Hf. by apply list_elem_of_fmap_2.
  - by apply IH.
Qed.

(** A router is built exactly from the routes with pairwise different
    transitions. *)
Lemma createRouter_inr {NT : NameTable} inputs router :
  createRouter inputs = inr router →
  ∃ routes root cache,
    buildRoutes inputs = inr routes ∧
    addRoutes addToTrie emptyNode ∅ routes = inr (root, cache) ∧
    router = (fun pathname => build root (Str.split "/" pathname) []) ∧
    NoDup (entry_steps <$> routes).
Proof.
  rewrite createRouter_unfold.
  destruct (buildRoutes inputs) as [e|routes] eqn:Hb; [done|]. simpl.
  destruct (addRoutes addToTrie emptyNode ∅ routes) as [e|[root cache]] eqn:Ha; [done|].
  simpl. intros [= <-]. exists routes, root, cache. split_and!; try done.
  apply addRoutes_NoDup. by eauto.
Qed.

(** C8. Input-order independence: when [createRouter] succeeds on a list
    of patterns, it succeeds on every permutation of the list,
    [buildRoutes] returns the same ordered list of routes with their
    Segment Paths for both, and the two routers yield the same sequence
    of Results for every pathname. *)
Theorem createRouter_input_order {NT : NameTable} (inputs1 inputs2 : list string) (router1 : Router) :
  inputs1 ≡ₚ inputs2 →
  createRouter inputs1 = inr router1 →
  buildRoutes inputs1 = buildRoutes inputs2 ∧
  ∃ router2, createRouter inputs2 = inr router2 ∧
             ∀ pathname, router1 pathname = router2 pathname.
Proof.
  intros Hperm H1.
  destruct (createRouter_inr _ _ H1) as (routes & root & cache & Hb & Ha & -> & Hnd).
  pose proof (proj1 (buildRoutes_inr _ _) Hb) as [Hall ->].
  assert (buildRoutes inputs2 = inr (sort compare_entries (omap entry_of inputs1))) as Hb2.
  { apply buildRoutes_inr. split; [by rewrite <-Hperm|].
    apply (sort_unique compare_entries compare_entries_antisym compare_entries_trans).
    - by rewrite Hperm.
    - intros x y Hx Hy Htie.
      rewrite sort_Permutation in Hnd.
      apply (NoDup_fmap_elem entry_steps (omap entry_of inputs1)); try done.
      apply steps_of_shape. by apply compare_tied. }
  split; [by rewrite Hb, Hb2|].
  eexists. split; [|done].
  rewrite createRouter_unfold, Hb2. simpl. by rewrite Ha.
Qed.

(** ** The order of enumeration *)

Lemma trie_order_eq node :
  trie_order node =
  option_list (route node) ++
  flat_map (fun p => trie_order p.2) (static node) ++
  flat_map (fun p => trie_order p.2) (dynamic node).
Proof. by destruct node. Qed.

Lemma flat_map_assoc_set {K} (same : K → K → bool) (k : K) (child' : Node) m rt :
  trie_order child' ≡ₚ rt :: trie_order (default emptyNode (assoc_get same k m)) →
  flat_map (fun p => trie_order p.2) (assoc_set same k child' m) ≡ₚ
  rt :: flat_map (fun p : K * Node => trie_order p.2) m.
Proof.
  intros Hc.
  destruct (assoc_set_split same k child' m)
    as [(m1 & k1 & v1 & m2 & -> & Hg & ->)|[Hg ->]]; rewrite Hg in Hc; simpl in Hc.
  - rewrite !flat_map_app. simpl. rewrite Hc. simpl.
    by rewrite <-Permutation_middle.
  - rewrite flat_map_app. simpl. rewrite Hc, app_nil_r. simpl.
    by rewrite <-Permutation_middle, app_nil_r.
Qed.

Lemma addToTrie_from_trie_order paths :
  ∀ node rt params cache node' cache',
  addToTrie_from node paths rt params cache = inr (node', cache') →
  trie_order node' ≡ₚ rt :: trie_order node.
Proof.
  induction paths as [|path paths IH]; intros node rt params cache node' cache'.
  - simpl. destruct (route node) eqn:E; [done|]. intros [= <- <-].
    rewrite (trie_order_eq node), E. done.
  - rewrite addToTrie_from_cons.
    destruct (step_of path) as [v|key]; cbv zeta.
    + destruct (addToTrie_from _ paths rt params cache) as [e|[child' cache1]] eqn:E;
        [done|].
      simpl. intros [= <- <-]. apply IH in E.
      rewrite (trie_order_eq node), (trie_order_eq (mkNode _ _ _ _)). simpl.
      rewrite (flat_map_assoc_set same_string v child' (static node) rt E).
      simpl. by rewrite <-Permutation_middle.
    + destruct (addToTrie_from _ paths rt _ _) as [e|[child' cache1]] eqn:E; [done|].
      simpl. intros [= <- <-]. apply IH in E.
      rewrite (trie_order_eq node), (trie_order_eq (mkNode _ _ _ _)). simpl.
      rewrite (flat_map_assoc_set same_fn _ child' (dynamic node) rt E).
      by rewrite <-!Permutation_middle.
Qed.

Lemma addRoutes_trie_order routes :
  ∀ root cache root' cache',
  addRoutes addToTrie root cache routes = inr (root', cache') →
  trie_order root' ≡ₚ routes.*1 ++ trie_order root.
Proof.
  induction routes as [|[rt paths] routes IH]; intros root cache root' cache'; simpl.
  - by intros [= <- <-].
  - destruct (addToTrie root paths rt cache) as [e|[root1 cache1]] eqn:E; [done|].
    simpl. intros H. apply IH in H. rewrite H.
    apply addToTrie_from_trie_order in E. rewrite E.
    by rewrite <-Permutation_middle.
Qed.

(** What the enumerator yields lies in the trie in that order. *)
Lemma build_sublist segs :
  ∀ node values, routes_of (build node segs values) `sublist_of` trie_order node.
Proof.
  induction segs as [|seg segs IH]; intros node values.
  - simpl. rewrite trie_order_eq. destruct (route node); simpl.
    + apply sublist_skip, sublist_nil_l.
    + apply sublist_nil_l.
  - rewrite trie_order_eq. apply sublist_inserts_l.
    simpl. unfold Node_match, routes_of.
    rewrite bind_app, fmap_app. apply sublist_app.
    + destruct (assoc_get same_string seg (static node)) as [child|] eqn:E.
      * simpl. rewrite app_nil_r.
        apply assoc_get_elem in E as (k' & Hin & _).
        apply list_elem_of_split in Hin as (l1 & l2 & ->).
        rewrite flat_map_app. simpl.
        apply sublist_inserts_l, sublist_inserts_r. apply IH.
      * apply sublist_nil_l.
    + induction (dynamic node) as [|[fn child] dy IHdy]; [done|].
      simpl. destruct (createMatch (fn_path fn) seg) as [params|]; simpl.
      * rewrite fmap_app. apply sublist_app; [apply IH|apply IHdy].
      * apply sublist_inserts_l, IHdy.
Qed.

Lemma yielded_before_split a b out :
  yielded_before a b out ↔ ∃ l1 l2 l3, out = l1 ++ a :: l2 ++ b :: l3.
Proof.
  split.
  - intros (k & l & Hkl & Hk & Hl).
    apply list_elem_of_split_length in Hk as (l1 & r & -> & ->).
    rewrite lookup_app_r in Hl by lia.
    destruct (l - length l1) as [|i] eqn:E; [lia|]. simpl in Hl.
    apply list_elem_of_split_length in Hl as (l2 & l3 & -> & _).
    by exists l1, l2, l3.
  - intros (l1 & l2 & l3 & ->). exists (length l1), (length l1 + S (length l2)).
    split_and!; [lia|..].
    + by rewrite list_lookup_middle.
    + rewrite lookup_app_r by lia.
      replace (length l1 + S (length l2) - length l1) with (S (length l2)) by lia.
      simpl. by rewrite list_lookup_middle.
Qed.

Lemma yielded_before_sublist a b out T :
  out `sublist_of` T → yielded_before a b out → yielded_before a b T.
Proof.
  rewrite !yielded_before_split. intros Hsub (l1 & l2 & l3 & ->).
  apply sublist_app_l in Hsub as (T1 & T2 & -> & _ & Hsub).
  apply sublist_cons_l in Hsub as (k1 & k2 & -> & Hsub).
  apply sublist_app_l in Hsub as (m1 & m2 & -> & _ & Hsub).
  apply sublist_cons_l in Hsub as (n1 & n2 & -> & _).
  exists (T1 ++ k1), (m1 ++ n1), n2. by rewrite <-!app_assoc.
Qed.

Lemma yielded_before_asym a b T :
  NoDup T → yielded_before a b T → yielded_before b a T → False.
Proof.
  intros Hnd (k & l & Hkl & Hk & Hl) (k' & l' & Hkl' & Hk' & Hl').
  assert (k = l') by by eapply NoDup_lookup.
  assert (l = k') by by eapply NoDup_lookup.
  lia.
Qed.

Lemma yielded_before_total a b out :
  a ∈ out → b ∈ out → a ≠ b → yielded_before a b out ∨ yielded_before b a out.
Proof.
  intros [k Hk]%list_elem_of_lookup [l Hl]%list_elem_of_lookup Hne.
  destruct (Nat.lt_trichotomy k l) as [H|[->|H]].
  - left. by exists k, l.
  - congruence.
  - right. by exists l, k.
Qed.

Lemma omap_entry_of_fst {NT : NameTable} inputs :
  Forall (λ rt, is_Some (entry_of rt)) inputs → (omap entry_of inputs).*1 = inputs.
Proof.
  induction 1 as [|rt inputs [e He] _ IH]; [done|].
  csimpl. rewrite He. csimpl. apply entry_of_Some in He as [-> _]. by rewrite IH.
Qed.

Lemma omap_entry_of_steps {NT : NameTable} inputs :
  Forall (λ rt, is_Some (entry_of rt)) inputs →
  entry_steps <$> omap entry_of inputs = (λ rt, from_option entry_steps [] (entry_of rt)) <$> inputs.
Proof.
  induction 1 as [|rt inputs [e He] _ IH]; [done|].
  csimpl. rewrite He. csimpl. by rewrite IH.
Qed.

(** The routes of a router that was built are pairwise different, and
    they are the terminal nodes of its trie. *)
Lemma createRouter_trie {NT : NameTable} inputs router :
  createRouter inputs = inr router →
  ∃ root, buildTrie inputs = inr root ∧
          router = (fun pathname => build root (Str.split "/" pathname) []) ∧
          trie_order root ≡ₚ inputs ∧ NoDup inputs.
Proof.
  intros H.
  destruct (createRouter_inr _ _ H) as (routes & root & cache & Hb & Ha & -> & Hnd).
  exists root. unfold buildTrie. rewrite Hb. simpl. rewrite Ha. simpl.
  pose proof (proj1 (buildRoutes_inr _ _) Hb) as [Hall ->].
  split_and!; try done.
  - rewrite (addRoutes_trie_order _ _ _ _ _ Ha). simpl. rewrite app_nil_r.
    by rewrite sort_Permutation, omap_entry_of_fst.
  - rewrite sort_Permutation, omap_entry_of_steps in Hnd by done.
    by apply NoDup_fmap_1 in Hnd.
Qed.

(** X18.  For every list of patterns on which [createRouter] succeeds,
    the trie fixes one order of the registered routes - the order in
    which a depth-first walk finds the terminal nodes, at each node the
    static children before the dynamic ones, and the dynamic ones in
    insertion order - and for every pathname the routes of the Results
    are yielded in that order, each at most once. *)
Theorem enumeration_order {NT : NameTable} (inputs : list string) (router : Router) (pathname : string) :
  createRouter inputs = inr router →
  ∃ root,
    buildTrie inputs = inr root ∧
    trie_order root ≡ₚ inputs ∧
    NoDup (trie_order root) ∧
    routes_of (router pathname) `sublist_of` trie_order root ∧
    NoDup (routes_of (router pathname)) ∧
    ∀ R1 R2,
      R1 ∈ routes_of (router pathname) → R2 ∈ routes_of (router pathname) →
      yielded_before R1 R2 (trie_order root) →
      yielded_before R1 R2 (routes_of (router pathname)).
Proof.
  intros H. destruct (createRouter_trie _ _ H) as (root & Hroot & -> & Hperm & Hnd).
  exists root.
  assert (NoDup (trie_order root)) as Hnd' by by rewrite Hperm.
  pose proof (build_sublist (Str.split "/" pathname) root []) as Hsub.
  split_and!; try done.
  - by eapply sublist_NoDup.
  - intros R1 R2 H1 H2 Hbefore.
    destruct (decide (R1 = R2)) as [->|Hne].
    { destruct (yielded_before_asym R2 R2 _ Hnd' Hbefore Hbefore). }
    destruct (yielded_before_total R1 R2 _ H1 H2 Hne) as [Hyes|Hno]; [done|].
    destruct (yielded_before_asym R1 R2 _ Hnd' Hbefore).
    by eapply yielded_before_sublist.
Qed.

(** ** The invariant of the trie *)

Lemma reach_emptyNode trans n : reach emptyNode trans n → trans = [] ∧ n = emptyNode.
Proof.
  inversion 1 as [|? ? ? ? ? Hin|? ? ? ? ? Hin]; subst; [done|..];
    by apply elem_of_nil in Hin.
Qed.

Lemma trie_inv_empty {NT : NameTable} R pre : trie_inv R pre emptyNode.
Proof.
  intros trans n [-> ->]%reach_emptyNode. split.
  - by intros ? ? ?%elem_of_nil.
  - done.
Qed.

Lemma trie_inv_weaken {NT : NameTable} R R' pre node :
  R ⊆ R' → trie_inv R pre node → trie_inv R' pre node.
Proof.
  intros Hsub Hinv trans n Hreach. destruct (Hinv trans n Hreach) as [Hc Hr].
  split; [done|]. intros rt Hrt. destruct (Hr rt Hrt) as (paths & Hin & ?).
  exists paths. split; [by apply Hsub|done].
Qed.

Lemma trie_inv_static {NT : NameTable} R pre node v c :
  trie_inv R pre node → (v, c) ∈ static node → trie_inv R (pre ++ [SStatic v]) c.
Proof.
  intros Hinv Hin trans n Hreach.
  destruct (Hinv (TStatic v :: trans) n) as [Hc Hr]; [by econstructor|].
  split; [done|]. intros rt Hrt. destruct (Hr rt Hrt) as (paths & ? & Hs & ?).
  exists paths. by rewrite <-app_assoc.
Qed.

Lemma trie_inv_dynamic {NT : NameTable} R pre node fn c :
  trie_inv R pre node → (fn, c) ∈ dynamic node →
  trie_inv R (pre ++ [SDynamic (fn_id fn)]) c.
Proof.
  intros Hinv Hin trans n Hreach.
  destruct (Hinv (TDynamic fn :: trans) n) as [Hc Hr]; [by econstructor|].
  split; [done|]. intros rt Hrt. destruct (Hr rt Hrt) as (paths & ? & Hs & ?).
  exists paths. by rewrite <-app_assoc.
Qed.

Lemma param_names_app p q : param_names (p ++ q) = param_names p ++ param_names q.
Proof. apply omap_app. Qed.

Lemma param_names_static path v : step_of path = SStatic v → param_names path = [].
Proof. destruct path as [|[s|n] [|t path]]; done. Qed.

Lemma step_of_dynamic path key :
  step_of path = SDynamic key → key = (pathToKey path []).1 ∧ is_dynamic path = true.
Proof. destruct path as [|[s|n] [|t path]]; try done; by intros [= <-]. Qed.

Lemma cache_ok_ids {NT : NameTable} cache : cache_ok cache → cache_ids cache.
Proof. intros H k fn Hk. by destruct (H k fn Hk). Qed.

Lemma cache_ok_insert {NT : NameTable} cache key path :
  cache_ok cache → step_of path = SDynamic key → canonical path = true →
  closure_ok (default (mkMatch key path) (cache !! key)) ∧
  fn_id (default (mkMatch key path) (cache !! key)) = key ∧
  cache_ok (<[key := default (mkMatch key path) (cache !! key)]> cache).
Proof.
  intros Hc Hstep Hcan. apply step_of_dynamic in Hstep as [Hkey Hdyn].
  assert (closure_ok (default (mkMatch key path) (cache !! key)) ∧
          fn_id (default (mkMatch key path) (cache !! key)) = key) as [Hok Hid].
  { destruct (cache !! key) as [fn|] eqn:E; simpl.
    - destruct (Hc key fn E). done.
    - split; [|done]. by split_and!. }
  split_and!; try done.
  intros k fn. rewrite lookup_insert. case_decide; [|by apply Hc].
  intros [= <-]. by subst.
Qed.

Lemma subseteq_cons_self {A} (x : A) (l : list A) : l ⊆ x :: l.
Proof. intros y Hy. by right. Qed.

Lemma trie_inv_node {NT : NameTable} R pre r k st dy :
  (∀ fn c, (fn, c) ∈ dy → closure_ok fn) →
  (∀ rt, r = Some rt →
     ∃ paths, (rt, paths) ∈ R ∧ pre = steps_of paths ∧
              k = Some (param_names (concat paths))) →
  (∀ v c, (v, c) ∈ st → trie_inv R (pre ++ [SStatic v]) c) →
  (∀ fn c, (fn, c) ∈ dy → trie_inv R (pre ++ [SDynamic (fn_id fn)]) c) →
  trie_inv R pre (mkNode r k st dy).
Proof.
  intros Hcl Hr Hst Hdy trans n Hreach.
  inversion Hreach as [|? v c trans' ? Hin Hreach'|? fn c trans' ? Hin Hreach']; subst.
  - split; [done|]. simpl. intros rt Hrt. destruct (Hr rt Hrt) as (paths & ? & -> & ?).
    exists paths. by rewrite app_nil_r.
  - destruct (Hst v c Hin trans' n Hreach') as [? Hr']. split; [done|].
    intros rt Hrt. destruct (Hr' rt Hrt) as (paths & ? & Hs & ?).
    exists paths. split_and!; try done. by rewrite <-Hs, <-app_assoc.
  - destruct (Hdy fn c Hin trans' n Hreach') as [? Hr']. split; [done|].
    intros rt Hrt. destruct (Hr' rt Hrt) as (paths & ? & Hs & ?).
    exists paths. split_and!; try done. by rewrite <-Hs, <-app_assoc.
Qed.

Lemma trie_inv_here {NT : NameTable} R pre node :
  trie_inv R pre node →
  (∀ fn c, (fn, c) ∈ dynamic node → closure_ok fn) ∧
  (∀ rt, route node = Some rt →
     ∃ paths, (rt, paths) ∈ R ∧ pre = steps_of paths ∧
              keys node = Some (param_names (concat paths))).
Proof.
  intros Hinv. destruct (Hinv [] node (reach_here _)) as [Hc Hr]. split; [done|].
  intros rt Hrt. destruct (Hr rt Hrt) as (paths & ? & Hs & ?).
  exists paths. by rewrite app_nil_r in Hs.
Qed.

(** [addToTrie] keeps the invariant, for the routes registered so far
    and the one it registers. *)
Lemma addToTrie_from_inv {NT : NameTable} paths :
  ∀ node rt params cache node' cache' R pre walked,
  addToTrie_from node paths rt params cache = inr (node', cache') →
  cache_ok cache → Forall (λ p, canonical p = true) paths →
  trie_inv R pre node →
  pre = steps_of walked → params = param_names (concat walked) →
  trie_inv ((rt, walked ++ paths) :: R) pre node' ∧ cache_ok cache'.
Proof.
  induction paths as [|path paths IH];
    intros node rt params cache node' cache' R pre walked Hadd Hcache Hcan Hinv Hpre Hparams.
  - simpl in Hadd. destruct (route node) eqn:Er; [done|]. injection Hadd as <- <-.
    split; [|done].
    apply (trie_inv_weaken R _ _ _ (subseteq_cons_self (rt, walked ++ []) R)) in Hinv
      as Hinv'.
    destruct (trie_inv_here _ _ _ Hinv') as [Hcl _].
    apply trie_inv_node; try done.
    + intros ? [= <-]. exists (walked ++ []).
      split_and!; [by left|by rewrite app_nil_r|by rewrite app_nil_r, Hparams].
    + intros v c Hin. by eapply trie_inv_static.
    + intros fn c Hin. by eapply trie_inv_dynamic.
  - rewrite addToTrie_from_cons in Hadd.
    apply Forall_cons in Hcan as [Hcan1 Hcan].
    apply (trie_inv_weaken R ((rt, walked ++ path :: paths) :: R) _ _
             (subseteq_cons_self _ R)) in Hinv as Hinv0.
    destruct (trie_inv_here _ _ _ Hinv0) as [Hcl Hhere].
    destruct (step_of path) as [v|key] eqn:Est; cbv zeta in Hadd.
    + destruct (addToTrie_from _ paths rt params cache) as [e|[child' cache1]] eqn:E;
        [done|].
      simpl in Hadd. injection Hadd as <- <-.
      apply (IH _ _ _ _ _ _ R (pre ++ [SStatic v]) (walked ++ [path])) in E as [Hinv' Hc'];
        try done.
      * split; [|done]. rewrite <-app_assoc in Hinv'. simpl in Hinv'.
        apply trie_inv_node; try done.
        -- intros v' c Hin.
           apply (elem_of_assoc_set same_string same_string_refl) in Hin
             as [Hin|(Hc2 & Hs & _)]; [by eapply trie_inv_static|].
           simpl in Hc2, Hs. apply bool_decide_eq_true in Hs. by subst.
        -- intros fn c Hin. by eapply trie_inv_dynamic.
      * destruct (assoc_get same_string v (static node)) as [c|] eqn:Eg; simpl.
        -- apply assoc_get_elem in Eg as (v' & Hin & Hs).
           apply bool_decide_eq_true in Hs. subst v'. by eapply trie_inv_static.
        -- apply trie_inv_empty.
      * subst pre. unfold steps_of. rewrite fmap_app. simpl. by rewrite Est.
      * rewrite concat_app, param_names_app. simpl.
        rewrite app_nil_r, (param_names_static path v Est), app_nil_r. done.
    + destruct (cache_ok_insert cache key path Hcache Est Hcan1) as (Hok & Hid & Hcache1).
      remember (default (mkMatch key path) (cache !! key)) as fn eqn:Hfn.
      destruct (addToTrie_from _ paths rt _ _) as [e|[child' cache1]] eqn:E; [done|].
      simpl in Hadd. injection Hadd as <- <-.
      apply (IH _ _ _ _ _ _ R (pre ++ [SDynamic key]) (walked ++ [path])) in E
        as [Hinv' Hc']; try done.
      * split; [|done]. rewrite <-app_assoc in Hinv'. simpl in Hinv'.
        apply trie_inv_node; try done.
        -- intros fn' c Hin.
           apply (elem_of_assoc_set same_fn same_fn_refl) in Hin
             as [Hin|(_ & _ & [Heq|[c0 Hin]])]; [by eapply Hcl| |by eapply Hcl].
           simpl in Heq. by subst.
        -- intros v c Hin. by eapply trie_inv_static.
        -- intros fn' c Hin.
           apply (elem_of_assoc_set same_fn same_fn_refl) in Hin
             as [Hin|(Hc2 & Hs & _)]; [by eapply trie_inv_dynamic|].
           simpl in Hc2, Hs. apply bool_decide_eq_true in Hs. subst c.
           rewrite Hs, Hid. done.
      * destruct (assoc_get same_fn fn (dynamic node)) as [c|] eqn:Eg; simpl.
        -- apply assoc_get_elem in Eg as (fn' & Hin & Hs).
           apply bool_decide_eq_true in Hs. rewrite <-Hid, <-Hs.
           by eapply trie_inv_dynamic.
        -- apply trie_inv_empty.
      * subst pre. unfold steps_of. rewrite fmap_app. simpl. by rewrite Est.
      * rewrite concat_app, param_names_app. simpl.
        rewrite app_nil_r. by subst params.
Qed.

Lemma addRoutes_inv {NT : NameTable} routes :
  ∀ root cache root' cache' R,
  addRoutes addToTrie root cache routes = inr (root', cache') →
  cache_ok cache →
  Forall (λ x, Forall (λ p, canonical p = true) x.2) routes →
  trie_inv R [] root →
  trie_inv (routes ++ R) [] root'.
Proof.
  induction routes as [|[rt paths] routes IH];
    intros root cache root' cache' R Hadd Hcache Hcan Hinv.
  - simpl in Hadd. by injection Hadd as <- <-.
  - simpl in Hadd. apply Forall_cons in Hcan as [Hcan1 Hcan].
    destruct (addToTrie root paths rt cache) as [e|[root1 cache1]] eqn:E; [done|].
    simpl in Hadd.
    apply (addToTrie_from_inv paths _ _ _ _ _ _ R [] []) in E as [Hinv1 Hcache1];
      try done.
    eapply trie_inv_weaken; [|by eapply IH].
    intros x. rewrite !elem_of_app, !elem_of_cons. simpl. tauto.
Qed.

Lemma cache_ok_empty {NT : NameTable} : cache_ok ∅.
Proof. intros k fn. by rewrite lookup_empty. Qed.

Lemma parse_canonical_inr {NT : NameTable} s p : parse s = inr p → canonical p = true.
Proof. apply (parse_loop_sound s s 0 [] None (scan_state_start s)). Qed.

Lemma segments_canonical {NT : NameTable} rt paths :
  segments rt = inr paths → Forall (λ p, canonical p = true) paths.
Proof.
  unfold segments. intros H%try_map_inr.
  induction H as [|s p l l' Hp _ IH]; constructor; [|done].
  by eapply parse_canonical_inr.
Qed.

(** The trie of a router that was built satisfies the invariant for the
    sorted routes. *)
Lemma createRouter_trie_inv {NT : NameTable} inputs router :
  createRouter inputs = inr router →
  ∃ routes root,
    buildRoutes inputs = inr routes ∧
    router = (fun pathname => build root (Str.split "/" pathname) []) ∧
    trie_inv routes [] root.
Proof.
  intros H.
  destruct (createRouter_inr _ _ H) as (routes & root & cache & Hb & Ha & -> & Hnd).
  exists routes, root. split_and!; try done.
  rewrite <-(app_nil_r routes).
  eapply (addRoutes_inv routes); [done|apply cache_ok_empty| |apply trie_inv_empty].
  apply Forall_forall. intros [rt paths] Hin. simpl.
  eapply segments_canonical. by eapply buildRoutes_elem.
Qed.

(** Every Result comes from a terminal node, reached along edges that
    accept the segments of the pathname one by one. *)
Lemma build_reach segs :
  ∀ node values res,
  res ∈ build node segs values →
  ∃ trans n vss,
    reach node trans n ∧
    route n = Some (result_route res) ∧
    result_keys res = default [] (keys n) ∧
    result_values res = values ++ concat vss ∧
    Forall3 (λ tr seg vs, trans_values tr seg = Some vs) trans segs vss.
Proof.
  induction segs as [|seg segs IH]; intros node values res Hres.
  - simpl in Hres. destruct (route node) as [rt|] eqn:Er; [|by apply elem_of_nil in Hres].
    apply list_elem_of_singleton in Hres as ->.
    exists [], node, []. split_and!; try done.
    + constructor.
    + by rewrite app_nil_r.
    + constructor.
  - simpl in Hres. apply list_elem_of_bind in Hres as ([params child] & Hres & Hm).
    apply IH in Hres as (trans & n & vss & Hreach & Hr & Hk & Hv & Hall).
    unfold Node_match in Hm. apply elem_of_app in Hm as [Hm|Hm].
    + destruct (assoc_get same_string seg (static node)) as [c|] eqn:Eg;
        [|by apply elem_of_nil in Hm].
      apply list_elem_of_singleton in Hm. injection Hm as -> ->.
      apply assoc_get_elem in Eg as (v & Hin & Hs). apply bool_decide_eq_true in Hs.
      subst v. exists (TStatic seg :: trans), n, ([] :: vss).
      split_and!; try done.
      * by econstructor.
      * by rewrite app_nil_r in Hv.
      * constructor; [|done]. simpl. by rewrite decide_True.
    + apply list_elem_of_omap in Hm as ([fn c] & Hin & Hm).
      destruct (createMatch (fn_path fn) seg) as [ps|] eqn:Em; [|done].
      injection Hm as -> ->.
      exists (TDynamic fn :: trans), n, (params :: vss).
      split_and!; try done.
      * by econstructor.
      * by rewrite <-app_assoc in Hv.
      * by constructor.
Qed.

Lemma reach_closures {NT : NameTable} R pre node trans n :
  trie_inv R pre node → reach node trans n →
  Forall (λ tr, match tr with TDynamic fn => closure_ok fn | TStatic _ => True end) trans.
Proof.
  intros Hinv Hreach. revert pre Hinv.
  induction Hreach as [|? v c trans n' Hin _ IH|? fn c trans n' Hin _ IH];
    intros pre Hinv.
  - constructor.
  - constructor; [done|]. eapply IH. by eapply trie_inv_static.
  - constructor.
    + destruct (trie_inv_here _ _ _ Hinv) as [Hcl _]. by eapply Hcl.
    + eapply IH. by eapply trie_inv_dynamic.
Qed.

(** ** The cache key determines the shape of a path *)

Lemma key_of_cons t p :
  key_of (t :: p) =
  part_key t +:+ match p with [] => "" | _ :: _ => "|" +:+ key_of p end.
Proof. destruct p; unfold key_of; simpl; [by rewrite sapp_nil_r|done]. Qed.

Lemma canonical_cons {NT : NameTable} t p :
  canonical (t :: p) = true →
  token_ok t = true ∧ canonical p = true ∧
  match p with [] => True | u :: _ => is_param t ≠ is_param u end.
Proof.
  unfold canonical. simpl.
  intros [[Ht Hp]%andb_prop Ha]%andb_prop. rewrite Ht, Hp. simpl.
  destruct p as [|u p]; [done|].
  apply andb_prop in Ha as [Hne Ha]. rewrite Ha.
  apply negb_true_iff, bool_decide_eq_false in Hne. done.
Qed.

Lemma no_open_split a b x y :
  no_open a = true → no_open b = true →
  a +:+ String "|" (String "[" x) = b +:+ String "|" (String "[" y) →
  a = b ∧ x = y.
Proof.
  revert b. induction a as [|c a IH]; intros [|d b] Ha Hb; rewrite ?sapp_cons, ?sapp_nil_l.
  - by intros [= ->].
  - intros [= <- H]. destruct b as [|d b]; [done|].
    rewrite sapp_cons in H. injection H as <- _. done.
  - intros [= -> H]. destruct a as [|c a]; [done|].
    rewrite sapp_cons in H. injection H as -> _. done.
  - simpl in Ha, Hb. apply andb_prop in Ha as [_ Ha]. apply andb_prop in Hb as [_ Hb].
    intros [= -> H]. destruct (IH b Ha Hb H) as [-> ->]. done.
Qed.

Lemma no_open_bar a b y :
  no_open a = true → a = b +:+ String "|" (String "[" y) → False.
Proof.
  intros Ha ->. rewrite no_open_app in Ha. simpl in Ha.
  apply andb_prop in Ha as [_ Ha]. done.
Qed.

Lemma key_of_param_start n p : ∃ x, key_of (Param n :: p) = String "[" x.
Proof. rewrite key_of_cons. simpl. rewrite sapp_cons. by eexists. Qed.

Lemma key_of_inj {NT : NameTable} p :
  ∀ q, canonical p = true → canonical q = true → key_of p = key_of q →
  shape p = shape q.
Proof.
  induction p as [|t p IH]; intros [|u q] Hp Hq Hkey.
  - done.
  - apply canonical_cons in Hq as (Hu & _ & _). rewrite key_of_cons in Hkey.
    symmetry in Hkey. apply sapp_eq_nil in Hkey as [Hkey _].
    destruct u; simpl in *; [|done]. by rewrite Hkey in Hu.
  - apply canonical_cons in Hp as (Ht & _ & _). rewrite key_of_cons in Hkey.
    apply sapp_eq_nil in Hkey as [Hkey _].
    destruct t; simpl in *; [|done]. by rewrite Hkey in Ht.
  - apply canonical_cons in Hp as (Ht & Hp & Hpa).
    apply canonical_cons in Hq as (Hu & Hq & Hqa).
    rewrite !shape_cons. rewrite !key_of_cons in Hkey.
    destruct t as [l|n], u as [l'|m]; simpl in Ht, Hu, Hkey |- *.
    + apply andb_prop in Ht as [Hl1 Hl2]. apply andb_prop in Hu as [Hl1' Hl2'].
      destruct p as [|[?|n] p], q as [|[?|m] q]; try done.
      * rewrite !sapp_nil_r in Hkey. by subst.
      * rewrite sapp_nil_r in Hkey.
        destruct (key_of_param_start m q) as [x Hx]. rewrite Hx in Hkey.
        by destruct (no_open_bar l l' x Hl2).
      * rewrite sapp_nil_r in Hkey.
        destruct (key_of_param_start n p) as [x Hx]. rewrite Hx in Hkey.
        by destruct (no_open_bar l' l x Hl2').
      * destruct (key_of_param_start n p) as [x Hx].
        destruct (key_of_param_start m q) as [y Hy].
        pose proof Hkey as Hkey'. rewrite Hx, Hy in Hkey'.
        destruct (no_open_split l l' x y Hl2 Hl2' Hkey') as [-> ->].
        f_equal. apply IH; try done. by rewrite Hx, Hy.
    + destruct l as [|c l]; [done|]. simpl in Ht.
      rewrite !sapp_cons in Hkey. injection Hkey as -> _.
      by rewrite bool_decide_true in Ht.
    + destruct l' as [|c l']; [done|]. simpl in Hu.
      rewrite !sapp_cons in Hkey. injection Hkey as <- _.
      by rewrite bool_decide_true in Hu.
    + f_equal. apply (inj (Str.app "[]")) in Hkey.
      destruct p as [|t p], q as [|u q]; try done.
      apply IH; try done. by injection Hkey.
Qed.

Lemma canonical_delimited {NT : NameTable} p : canonical p = true → delimited p = true.
Proof.
  induction p as [|t p IH]; [done|].
  intros (Ht & Hp & Ha)%canonical_cons. simpl.
  destruct t, p as [|[] p]; auto.
Qed.

(** ** The Matcher does not depend on parameter names *)

Lemma match_loop_shape n :
  ∀ p q s offset params, length p ≤ n → shape p = shape q →
  match_loop p s offset params = match_loop q s offset params.
Proof.
  induction n as [|n IH]; intros p q s offset params Hlen Hs.
  { destruct p; [|simpl in Hlen; lia]. by destruct q. }
  destruct p as [|[l|a] p], q as [|[l'|b] q]; try done; rewrite !shape_cons in Hs;
    injection Hs as Hs; simpl in Hlen.
  - intros. subst. simpl. case_decide; [done|]. case_decide; [done|].
    apply IH; [lia|done].
  - simpl. case_decide; [done|].
    destruct p as [|[l|a'] p], q as [|[l'|b'] q]; try done; rewrite !shape_cons in Hs;
      injection Hs as Hs.
    intros. subst.
    destruct (Str.indexOf s l' offset); [|done]. case_decide; [done|].
    apply IH; [simpl in Hlen; lia|done].
Qed.

Lemma createMatch_shape p q s : shape p = shape q → createMatch p s = createMatch q s.
Proof.
  intros Hs. unfold createMatch.
  assert (length p = length q) as Hlen.
  { apply (f_equal length) in Hs. unfold shape in Hs. by rewrite !length_fmap in Hs. }
  rewrite Hlen. case_decide; [done|]. by apply (match_loop_shape (length p)).
Qed.

Lemma captures_length s path offset values :
  captures s path offset values → length values = length (param_names path).
Proof. induction 1; simpl; try done. unfold param_names in *. simpl. by f_equal. Qed.

(** ** The shape of a Result *)

Lemma pathToKey_key_of path : (pathToKey path []).1 = key_of path.
Proof. by rewrite pathToKey_eq. Qed.

Lemma param_names_concat paths :
  param_names (concat paths) = concat (param_names <$> paths).
Proof.
  induction paths as [|p paths IH]; [done|].
  simpl. by rewrite param_names_app, IH.
Qed.

(** An edge that accepts a segment extracts what the Segment Path of the
    route extracts there, one value for each of its parameters. *)
Lemma trans_values_segment {NT : NameTable} tr path seg vs :
  trans_values tr seg = Some vs →
  match tr with TDynamic fn => closure_ok fn | TStatic _ => True end →
  trans_step tr = step_of path → canonical path = true →
  segment_values path seg = Some vs ∧ length vs = length (param_names path).
Proof.
  intros Hv Hok Hstep Hcan. unfold segment_values. rewrite <-Hstep.
  destruct tr as [v|fn]; simpl in *.
  - split; [done|]. rewrite (param_names_static path v) by done.
    case_decide; [|done]. by injection Hv as <-.
  - destruct Hok as (Hid & Hcan' & _).
    destruct (step_of_dynamic path (fn_id fn)) as [Hkey Hdyn]; [done|].
    rewrite pathToKey_key_of in Hid, Hkey.
    assert (shape path = shape (fn_path fn)) as Hshape.
    { apply key_of_inj; try done. congruence. }
    rewrite (createMatch_shape _ _ seg Hshape). split; [done|].
    rewrite <-(createMatch_shape _ _ seg Hshape) in Hv.
    apply createMatch_accepts in Hv; [|by apply canonical_delimited].
    destruct path as [|t path]; [done|]. by eapply captures_length.
Qed.

Lemma trans_values_segments {NT : NameTable} trans segs vss :
  Forall3 (λ tr seg vs, trans_values tr seg = Some vs) trans segs vss →
  ∀ paths,
  Forall (λ tr, match tr with TDynamic fn => closure_ok fn | TStatic _ => True end) trans →
  trans_step <$> trans = steps_of paths →
  Forall (λ p, canonical p = true) paths →
  Forall3 (λ path seg vs, segment_values path seg = Some vs ∧
                          length vs = length (param_names path)) paths segs vss.
Proof.
  induction 1 as [|tr seg vs trans segs vss Hv _ IH]; intros [|path paths] Hok Hsteps Hcan;
    try done.
  - constructor.
  - apply Forall_cons in Hok as [Hok1 Hok]. apply Forall_cons in Hcan as [Hcan1 Hcan].
    injection Hsteps as Hstep Hsteps.
    constructor; [by eapply trans_values_segment|by apply IH].
Qed.

Lemma Forall3_concat_length {A B C D} (f : A → list D) (P : A → B → list C → Prop)
    (l : list A) (k : list B) (vss : list (list C)) :
  Forall3 (λ x y vs, P x y vs ∧ length vs = length (f x)) l k vss →
  length (concat (f <$> l)) = length (concat vss).
Proof.
  induction 1 as [|x y vs l k vss [_ Hlen] _ IH]; [done|].
  rewrite fmap_cons. simpl. rewrite !length_app. by rewrite IH, Hlen.
Qed.

(** C10. Result shape invariant: every Result of a router that was built
    has as many keys as values.  Its route is one of the registered
    patterns; its keys are the names of the parameters of that pattern,
    segment by segment and from left to right; its values are, in the
    same order, what the Segment Paths of the pattern extract from the
    segments of the pathname, one value for each parameter.  So the key
    at an index names the parameter whose value stands at that index. *)
Theorem result_shape {NT : NameTable} (inputs : list string) (router : Router) (pathname : string)
    (res : Result) :
  createRouter inputs = inr router →
  res ∈ router pathname →
  length (result_keys res) = length (result_values res) ∧
  result_route res ∈ inputs ∧
  ∃ paths vss,
    segments (result_route res) = inr paths ∧
    result_keys res = concat (param_names <$> paths) ∧
    result_values res = concat vss ∧
    Forall3 (λ path seg vs, segment_values path seg = Some vs ∧
                            length vs = length (param_names path))
      paths (Str.split "/" pathname) vss.
Proof.
  intros H Hres.
  destruct (createRouter_trie_inv _ _ H) as (routes & root & Hb & -> & Hinv).
  apply build_reach in Hres as (trans & n & vss & Hreach & Hr & Hk & Hv & Hall).
  pose proof (reach_closures _ _ _ _ _ Hinv Hreach) as Hok.
  destruct (Hinv trans n Hreach) as [_ Hterm].
  destruct (Hterm _ Hr) as (paths & Hin & Hsteps & Hkeys). simpl in Hsteps, Hv.
  destruct (buildRoutes_elem _ _ _ _ Hb Hin) as [Hinput Hseg].
  pose proof (trans_values_segments _ _ _ Hall paths Hok Hsteps
                (segments_canonical _ _ Hseg)) as Hsegs.
  rewrite Hkeys in Hk. simpl in Hk. rewrite param_names_concat in Hk.
  split_and!; [|done|].
  - rewrite Hk, Hv.
    apply (Forall3_concat_length param_names
             (λ path seg vs, segment_values path seg = Some vs) _ _ _ Hsegs).
  - exists paths, vss. split_and!; done.
Qed.

(** ** The two versions of the engine *)

Lemma slice_exhausted s offset l :
  Str.length s ≤ offset → l ≠ "" → Str.slice s offset (offset + Str.length l) ≠ l.
Proof.
  intros Hoff Hne E. apply (f_equal Str.length) in E.
  rewrite slice_substring, substring_length in E.
  assert (0 < Str.length l) by (destruct l; [done|simpl; lia]). lia.
Qed.

(** On a path whose literals are not empty the two loops agree: where the
    later one stops at an exhausted input, the earlier one fails to find
    the literal or stops at the parameter. *)
Lemma match_loop_old_new {NT : NameTable} n :
  ∀ path s offset params, length path ≤ n →
  forallb token_ok path = true →
  Old.match_loop path s offset params = match_loop path s offset params.
Proof.
  induction n as [|n IH]; intros path s offset params Hlen Hok.
  { by destruct path; [|simpl in Hlen; lia]. }
  destruct path as [|[l|a] path]; [done|..]; simpl in Hlen, Hok;
    apply andb_prop in Hok as [Ht Hok].
  - simpl. apply andb_prop in Ht as [Hne _].
    apply negb_true_iff, bool_decide_eq_false in Hne.
    destruct (decide (Str.length s = offset)) as [Hend|Hend].
    + rewrite decide_True; [done|]. apply slice_exhausted; [lia|done].
    + destruct (decide (Str.slice s offset (offset + Str.length l) ≠ l)); [done|].
      apply IH; [lia|done].
  - simpl. destruct (decide (Str.length s = offset)); [done|].
    destruct path as [|[next|b] path]; try done.
    destruct (Str.indexOf s next offset) as [index|]; [|done].
    destruct (decide (index = offset)); [done|].
    simpl in Hok. apply andb_prop in Hok as [_ Hok].
    apply IH; [simpl in Hlen; lia|done].
Qed.

Lemma createMatch_old_new {NT : NameTable} path s :
  path ≠ [] → forallb token_ok path = true →
  Old.createMatch path s = createMatch path s.
Proof.
  intros Hne Hok. unfold Old.createMatch, createMatch.
  rewrite decide_False by by destruct path.
  by apply (match_loop_old_new (length path)).
Qed.

Lemma canonical_token_ok {NT : NameTable} path : canonical path = true → forallb token_ok path = true.
Proof. unfold canonical. by intros [? _]%andb_prop. Qed.

Lemma closure_ok_old_new {NT : NameTable} fn s :
  closure_ok fn → Old.createMatch (fn_path fn) s = createMatch (fn_path fn) s.
Proof.
  intros (_ & Hcan & Hdyn). apply createMatch_old_new.
  - by destruct (fn_path fn).
  - by apply canonical_token_ok.
Qed.

(** Without empty Segment Paths the two versions of [addToTrie] are the
    same function. *)
Lemma addToTrie_from_old_new paths :
  ∀ node rt params cache, Forall (λ p, p ≠ []) paths →
  Old.addToTrie_from node paths rt params cache = addToTrie_from node paths rt params cache.
Proof.
  induction paths as [|path paths IH]; intros node rt params cache Hne; [done|].
  apply Forall_cons in Hne as [Hne1 Hne].
  destruct path as [|[s|n] [|t path]]; try done;
    cbn [Old.addToTrie_from addToTrie_from]; rewrite ?pathToKey_eq; cbv zeta;
    by rewrite IH.
Qed.

Lemma addRoutes_old_new routes :
  ∀ root cache, Forall (λ x, Forall (λ p, p ≠ []) x.2) routes →
  addRoutes Old.addToTrie root cache routes = addRoutes addToTrie root cache routes.
Proof.
  induction routes as [|[rt paths] routes IH]; intros root cache Hne; [done|].
  apply Forall_cons in Hne as [Hne1 Hne]. simpl.
  unfold Old.addToTrie, addToTrie. rewrite addToTrie_from_old_new by done.
  destruct (addToTrie_from root paths rt [] cache) as [e|[root1 cache1]]; [done|].
  simpl. by apply IH.
Qed.

(** Over a trie whose closures are [closure_ok] the two enumerators
    yield the same Results. *)
Lemma build_old_new {NT : NameTable} segs :
  ∀ R pre node values, trie_inv R pre node →
  Old.build node segs values = build node segs values.
Proof.
  induction segs as [|seg segs IH]; intros R pre node values Hinv; [done|].
  simpl. unfold Node_match. rewrite !bind_app. f_equal.
  - destruct (assoc_get same_string seg (static node)) as [c|] eqn:Eg; [|done].
    simpl. rewrite !app_nil_r.
    apply assoc_get_elem in Eg as (v & Hin & _).
    eapply IH. by eapply trie_inv_static.
  - destruct (trie_inv_here _ _ _ Hinv) as [Hcl _].
    assert (∀ fn c, (fn, c) ∈ dynamic node →
                    ∃ pre', trie_inv R pre' c) as Hch.
    { intros fn c Hin. eexists. by eapply trie_inv_dynamic. }
    induction (dynamic node) as [|[fn c] dy IHdy]; [done|].
    csimpl. rewrite (closure_ok_old_new fn seg) by (eapply Hcl; by left).
    destruct (createMatch (fn_path fn) seg) as [params|].
    + csimpl. f_equal.
      * destruct (Hch fn c) as [pre' Hinv']; [by left|]. by eapply IH.
      * apply IHdy; intros; [eapply Hcl|eapply Hch]; by right.
    + apply IHdy; intros; [eapply Hcl|eapply Hch]; by right.
Qed.

Lemma buildTrie_inv {NT : NameTable} inputs root :
  buildTrie inputs = inr root →
  ∃ routes, buildRoutes inputs = inr routes ∧ trie_inv routes [] root.
Proof.
  unfold buildTrie. destruct (buildRoutes inputs) as [e|routes] eqn:Hb; [done|]. simpl.
  destruct (addRoutes addToTrie emptyNode ∅ routes) as [e|[root' cache]] eqn:Ha; [done|].
  simpl. intros [= ->]. exists routes. split; [done|].
  rewrite <-(app_nil_r routes).
  eapply (addRoutes_inv routes); [done|apply cache_ok_empty| |apply trie_inv_empty].
  apply Forall_forall. intros [rt paths] Hin. simpl.
  eapply segments_canonical. by eapply buildRoutes_elem.
Qed.

Lemma segments_nonempty {NT : NameTable} rt paths :
  "" ∉ Str.split "/" rt → segments rt = inr paths → Forall (λ p, p ≠ []) paths.
Proof.
  unfold segments. intros Hno H%try_map_inr.
  induction H as [|s p l l' Hp _ IH]; constructor.
  - intros ->. apply parse_serialize in Hp. simpl in Hp. subst s.
    apply Hno. by left.
  - apply IH. intros Hin. apply Hno. by right.
Qed.

Lemma buildTrie_old_new {NT : NameTable} inputs :
  Forall (λ rt, "" ∉ Str.split "/" rt) inputs → Old.buildTrie inputs = buildTrie inputs.
Proof.
  intros Hno. unfold Old.buildTrie, buildTrie.
  destruct (buildRoutes inputs) as [e|routes] eqn:Hb; [done|]. simpl.
  rewrite addRoutes_old_new; [done|].
  apply Forall_forall. intros [rt paths] Hin. simpl.
  destruct (buildRoutes_elem _ _ _ _ Hb Hin) as [Hrt Hseg].
  eapply segments_nonempty; [|done].
  by eapply (proj1 (Forall_forall _ _) Hno).
Qed.

(** C5, amended.  For every route set in which no pattern has an empty
    segment (no leading, trailing or doubled [/], no empty pattern) the
    two versions of [createRouter] fail with the same error or both
    succeed, and then the two routers yield equal Result sequences for
    every pathname; and the two versions of [createMatch] agree on every
    Segment Path that [parse] can produce except the empty one. *)
Theorem old_new_equivalence {NT : NameTable} (inputs : list string) :
  Forall (λ rt, "" ∉ Str.split "/" rt) inputs →
  match Old.createRouter inputs, createRouter inputs with
  | inr router1, inr router2 => ∀ pathname, router1 pathname = router2 pathname
  | inl e1, inl e2 => e1 = e2
  | _, _ => False
  end ∧
  ∀ seg path s, parse seg = inr path → path ≠ [] →
                Old.createMatch path s = createMatch path s.
Proof.
  intros Hno. split.
  - unfold Old.createRouter, createRouter. rewrite buildTrie_old_new by done.
    destruct (buildTrie inputs) as [e|root] eqn:Ht; simpl; [done|].
    destruct (buildTrie_inv _ _ Ht) as (routes & _ & Hinv).
    intros pathname. by eapply build_old_new.
  - intros seg path s Hp Hne. apply createMatch_old_new; [done|].
    by eapply canonical_token_ok, parse_canonical_inr.
Qed.

(** * Further properties of the engine *)

(** ** When registration succeeds, and what it throws *)

Lemma try_map_inl {A B} (f : A → Error + B) l e :
  try_map f l = inl e ↔
  ∃ pre x post, l = pre ++ x :: post ∧ Forall (returns f) pre ∧ f x = inl e.
Proof.
  induction l as [|x l IH]; simpl.
  - split; [done|]. intros (pre & y & post & H & _). by destruct pre.
  - destruct (f x) as [e'|y] eqn:E; simpl.
    + split.
      * intros [= ->]. by exists [], x, l.
      * intros (pre & w & post & Hl & Hpre & Hw). destruct pre as [|z pre].
        -- injection Hl as -> ->. congruence.
        -- injection Hl as -> ->. apply Forall_cons in Hpre as [[? ?] _]. congruence.
    + assert ((∃ pre w post, x :: l = pre ++ w :: post ∧ Forall (returns f) pre ∧
                             f w = inl e) ↔
              (∃ pre w post, l = pre ++ w :: post ∧ Forall (returns f) pre ∧
                             f w = inl e)) as ->.
      { split.
        - intros (pre & w & post & Hl & Hpre & Hw). destruct pre as [|z pre].
          + injection Hl as -> ->. congruence.
          + injection Hl as -> ->. apply Forall_cons in Hpre as [_ Hpre].
            by exists pre, w, post.
        - intros (pre & w & post & -> & Hpre & Hw). exists (x :: pre), w, post.
          split_and!; [done| |done]. constructor; [by exists y|done]. }
      rewrite <-IH. destruct (try_map f l) as [e'|ys]; simpl; [|done].
      split; congruence.
Qed.

Lemma returns_entry_of {NT : NameTable} rt :
  returns segments rt ↔ is_Some (entry_of rt).
Proof.
  unfold returns, entry_of. destruct (segments rt) as [e|paths].
  - split; [by intros [? ?]|by intros [? ?]].
  - split; [by eexists|by eexists].
Qed.

Lemma buildRoutes_inl {NT : NameTable} inputs e :
  buildRoutes inputs = inl e ↔
  ∃ pre rt post, inputs = pre ++ rt :: post ∧ Forall (returns segments) pre ∧
                 segments rt = inl e.
Proof.
  unfold buildRoutes.
  set (f := λ rt, bind (segments rt) (λ paths, inr (rt, paths))).
  assert (∀ rt e', f rt = inl e' ↔ segments rt = inl e') as Hf.
  { intros rt e'. unfold f. destruct (segments rt); simpl; split; congruence. }
  assert (∀ rt, returns f rt ↔ returns segments rt) as Hr.
  { intros rt. unfold returns, f. destruct (segments rt); simpl.
    - split; by intros [? ?].
    - split; by eexists. }
  destruct (try_map f inputs) as [e'|entries] eqn:E; simpl.
  - apply try_map_inl in E as (pre & rt & post & -> & Hpre & Hrt). split.
    + intros [= <-]. exists pre, rt, post. split_and!; [done| |by apply Hf].
      eapply Forall_impl; [done|]. intros ?. apply Hr.
    + intros (pre' & rt' & post' & Hl & Hpre' & Hrt'). f_equal.
      assert (try_map f (pre ++ rt :: post) = inl e) as E'.
      { apply try_map_inl. exists pre', rt', post'. split_and!; [done| |by apply Hf].
        eapply Forall_impl; [done|]. intros ?. apply Hr. }
      assert (try_map f (pre ++ rt :: post) = inl e') as E''.
      { apply try_map_inl. by exists pre, rt, post. }
      congruence.
  - split; [done|]. intros (pre & rt & post & Hl & Hpre & Hrt).
    assert (try_map f inputs = inl e) as E'; [|congruence].
    apply try_map_inl. exists pre, rt, post. split_and!; [done| |by apply Hf].
    eapply Forall_impl; [done|]. intros ?. apply Hr.
Qed.

Lemma NoDup_route_steps {NT : NameTable} inputs :
  Forall (λ rt, is_Some (entry_of rt)) inputs →
  NoDup (entry_steps <$> sort compare_entries (omap entry_of inputs)) ↔
  NoDup (route_steps <$> inputs).
Proof.
  intros Hall. rewrite sort_Permutation. by rewrite omap_entry_of_steps.
Qed.

(** X1. [createRouter] returns a router exactly when every pattern parses
    and no two patterns, at different places of the input, have the same
    sequence of trie transitions. *)
Theorem createRouter_succeeds_iff {NT : NameTable} (inputs : list string) :
  (∃ router, createRouter inputs = inr router) ↔
  Forall (λ rt, ∃ paths, segments rt = inr paths) inputs ∧
  NoDup (route_steps <$> inputs).
Proof.
  assert (Forall (λ rt, ∃ paths, segments rt = inr paths) inputs ↔
          Forall (λ rt, is_Some (entry_of rt)) inputs) as ->.
  { apply Forall_proper; [|done]. intros rt. apply returns_entry_of. }
  split.
  - intros [router H].
    destruct (createRouter_inr _ _ H) as (routes & root & cache & Hb & Ha & _ & Hnd).
    apply buildRoutes_inr in Hb as [Hall ->]. split; [done|].
    by apply NoDup_route_steps.
  - intros [Hall Hnd]. apply NoDup_route_steps in Hnd; [|done].
    apply addRoutes_NoDup in Hnd as (root & cache & Ha).
    rewrite createRouter_unfold.
    rewrite (proj2 (buildRoutes_inr inputs _) (conj Hall eq_refl)). simpl.
    rewrite Ha. simpl. by eexists.
Qed.

(** X2. What [createRouter] throws: when some pattern does not parse, the
    parse error of the first such pattern of the input, at the first
    segment of it that does not parse, whatever duplicates the input
    holds; otherwise, if it throws, the duplicate-route error for a
    pattern of the input.  It throws nothing else. *)
Theorem createRouter_error {NT : NameTable} (inputs : list string) (e : Error) :
  let parse_fails :=
    ∃ pre rt post segs seg segs',
      inputs = pre ++ rt :: post ∧ Forall (returns segments) pre ∧
      Str.split "/" rt = segs ++ seg :: segs' ∧ Forall (returns parse) segs ∧
      parse seg = inl e in
  (parse_fails → createRouter inputs = inl e) ∧
  (createRouter inputs = inl e →
   parse_fails ∨
   (Forall (returns segments) inputs ∧ ∃ rt, e = DuplicateRoute rt ∧ rt ∈ inputs)).
Proof.
  intros parse_fails.
  assert (parse_fails ↔ buildRoutes inputs = inl e) as Hfails.
  { rewrite buildRoutes_inl. unfold parse_fails. split.
    - intros (pre & rt & post & segs & seg & segs' & -> & Hpre & Hs & Hsegs & Hseg).
      exists pre, rt, post. split_and!; [done..|].
      unfold segments. apply try_map_inl. by exists segs, seg, segs'.
    - intros (pre & rt & post & -> & Hpre & Hrt). unfold segments in Hrt.
      apply try_map_inl in Hrt as (segs & seg & segs' & Hs & Hsegs & Hseg).
      by exists pre, rt, post, segs, seg, segs'. }
  rewrite createRouter_unfold. split.
  - intros H%Hfails. by rewrite H.
  - destruct (buildRoutes inputs) as [e'|routes] eqn:Hb; simpl.
    + intros [= <-]. left. by apply Hfails.
    + pose proof (proj1 (buildRoutes_inr _ _) Hb) as [Hall Hroutes].
      pose proof (addRoutes_spec routes emptyNode ∅ cache_ids_empty) as Hspec.
      destruct (addRoutes addToTrie emptyNode ∅ routes) as [e'|[root cache]] eqn:Ha;
        simpl; [|done].
      destruct Hspec as (pre & rt & paths & post & Hr & -> & _).
      intros [= <-]. right. split.
      * eapply Forall_impl; [done|]. intros ?. apply returns_entry_of.
      * exists rt. split; [done|].
        eapply (buildRoutes_elem inputs routes rt paths); [done|].
        rewrite Hr. apply elem_of_app. right. by left.
Qed.

(** ** The comparator and the cache key *)

(** X3. The comparator of [buildRoutes] is a consistent ordering, as a
    sort needs it: swapping the arguments negates the result, a route
    compares equal to itself, "not after" is transitive, and routes that
    compare equal compare alike with every other route. *)
Theorem compare_consistent (a b c : list Path) :
  (compare b a = - compare a b)%Z ∧
  compare a a = 0%Z ∧
  ((compare a b ≤ 0)%Z → (compare b c ≤ 0)%Z → (compare a c ≤ 0)%Z) ∧
  (compare a b = 0%Z → compare a c = compare b c).
Proof.
  split_and!.
  - apply compare_antisym.
  - pose proof (compare_antisym a a). lia.
  - apply compare_trans_le.
  - intros H. apply compare_shape_l. by apply compare_tied.
Qed.

Lemma key_of_shape path : key_of (shape path) = key_of path.
Proof. unfold key_of. by rewrite part_keys_shape. Qed.

(** X4. The cache key of [pathToKey] tells the shapes of well-formed
    paths apart and nothing more: two such paths get the same key exactly
    when they differ in parameter names only, so that a literal never
    passes for the parameter marker.  The names of the path are pushed
    onto [params] in order. *)
Theorem pathToKey_key_iff {NT : NameTable} (p q : Path) (ps qs : list string) :
  canonical p = true → canonical q = true →
  ((pathToKey p ps).1 = (pathToKey q qs).1 ↔ shape p = shape q) ∧
  (pathToKey p ps).2 = ps ++ param_names p.
Proof.
  intros Hp Hq. rewrite !pathToKey_eq. simpl. split; [|done].
  fold (key_of p) (key_of q). split.
  - by apply key_of_inj.
  - intros H. by rewrite <-(key_of_shape p), H, key_of_shape.
Qed.

(** ** What a Matcher returns *)

Lemma substring_split s a b :
  a ≤ b → b ≤ Str.length s →
  Str.substring a (Str.length s - a) s =
  Str.substring a (b - a) s +:+ Str.substring b (Str.length s - b) s.
Proof.
  revert a b. induction s as [|c s IH]; intros a b Hab Hb.
  - simpl in Hb. assert (b = 0) as -> by lia. assert (a = 0) as -> by lia. done.
  - destruct a as [|a], b as [|b]; simpl in *; try lia.
    + done.
    + rewrite sapp_cons. f_equal.
      pose proof (IH 0 b ltac:(lia) ltac:(lia)) as H.
      by rewrite !Nat.sub_0_r in H.
    + apply IH; lia.
Qed.

Lemma slice_from_split s a b :
  a ≤ b → b ≤ Str.length s →
  Str.slice_from s a = Str.slice s a b +:+ Str.slice_from s b.
Proof. apply substring_split. Qed.

Lemma last_is_param_cons t u path :
  last_is_param (t :: u :: path) = last_is_param (u :: path).
Proof. done. Qed.

(** The text read from [offset] on is the path with the values filled
    in, and what the tokens leave unread. *)
Lemma captures_fill s path offset values :
  captures s path offset values → offset ≤ Str.length s →
  ∃ rest, Str.slice_from s offset = fill path values +:+ rest ∧
          (last_is_param path = true → rest = "").
Proof.
  induction 1 as [offset|l path offset values Hlt Hocc _ IH|n offset Hlt|
                  n l path offset idx values Hlt Hfirst Hidx _ IH]; intros Hoff.
  - exists (Str.slice_from s offset). by split.
  - pose proof (occurs_at_le s l offset Hoff Hocc) as Hle.
    destruct (IH Hle) as (rest & Hrest & Hlast). exists rest. split.
    + rewrite (slice_from_split s offset (offset + Str.length l)) by lia.
      rewrite Hocc, Hrest. simpl. by rewrite sapp_assoc.
    + destruct path as [|u path]; [done|]. by rewrite last_is_param_cons.
  - exists "". split; [|done]. simpl. by rewrite !sapp_nil_r.
  - destruct Hfirst as (_ & Hocc & Hmin).
    assert (idx ≤ Str.length s) as Hidx'.
    { destruct (decide (l = "")) as [->|Hne].
      - destruct (Hmin offset); [lia..|]. apply occurs_at_empty.
      - pose proof (occurs_at_bound s l idx Hne Hocc). lia. }
    pose proof (occurs_at_le s l idx Hidx' Hocc) as Hle.
    destruct (IH Hle) as (rest & Hrest & Hlast). exists rest. split.
    + rewrite (slice_from_split s offset idx) by lia.
      rewrite (slice_from_split s idx (idx + Str.length l)) by lia.
      rewrite Hocc, Hrest. simpl. by rewrite !sapp_assoc.
    + destruct path as [|u path]; [done|].
      rewrite !last_is_param_cons. done.
Qed.

Lemma slice_from_0 s : Str.slice_from s 0 = s.
Proof.
  unfold Str.slice_from. rewrite Nat.sub_0_r.
  induction s as [|c s IH]; [done|]. simpl. by rewrite IH.
Qed.

(** X5. A Matcher that accepts a segment returns one value for each
    parameter of its path, and the segment begins with the path in which
    these values take the place of the parameters; when the last token is
    a parameter, or the path is empty, the segment is that text. *)
Theorem createMatch_fill (path : Path) (s : string) (values : list string) :
  delimited path = true →
  createMatch path s = Some values →
  length values = length (param_names path) ∧
  ∃ rest, s = fill path values +:+ rest ∧
          (last_is_param path = true ∨ path = [] → rest = "").
Proof.
  intros Hd H. apply createMatch_accepts in H; [|done].
  destruct path as [|t path].
  - destruct H as [-> ->]. split; [done|]. by exists "".
  - split; [by eapply captures_length|].
    destruct (captures_fill _ _ _ _ H) as (rest & Hrest & Hlast); [lia|].
    exists rest. rewrite slice_from_0 in Hrest. split; [done|].
    intros [?|?]; [by apply Hlast|done].
Qed.

(** ** Which Results a router yields *)

(** After the loop of [createRouter] every route of the list is found at
    the end of its transitions, and nothing else has changed. *)
Lemma addRoutes_route_at routes :
  ∀ root cache root' cache',
  cache_ids cache →
  addRoutes addToTrie root cache routes = inr (root', cache') →
  (∀ steps, steps ∉ (entry_steps <$> routes) → route_at root' steps = route_at root steps) ∧
  (∀ rt paths, (rt, paths) ∈ routes → route_at root' (steps_of paths) = Some rt).
Proof.
  induction routes as [|[rt paths] routes IH]; intros root cache root' cache' Hc Hadd.
  - simpl in Hadd. injection Hadd as <- <-. split; [done|].
    by intros ? ? ?%elem_of_nil.
  - simpl in Hadd.
    pose proof (addToTrie_from_route_at paths root rt [] cache Hc) as H.
    change (addToTrie root paths rt cache) with (addToTrie_from root paths rt [] cache)
      in Hadd.
    destruct (route_at root (steps_of paths)) as [r0|] eqn:Er.
    { by rewrite H in Hadd. }
    destruct H as (root1 & cache1 & H & Hc1 & Hr). rewrite H in Hadd. simpl in Hadd.
    pose proof (addRoutes_spec routes root1 cache1 Hc1) as Hspec. rewrite Hadd in Hspec.
    destruct Hspec as (_ & Hfree & _).
    destruct (IH _ _ _ _ Hc1 Hadd) as [Hout Hin]. split.
    + intros steps Hsteps. rewrite fmap_cons in Hsteps.
      apply not_elem_of_cons in Hsteps as [Hne Hsteps].
      rewrite (Hout _ Hsteps), Hr. by rewrite decide_False.
    + intros rt' paths' [[= -> ->]|Hel]%elem_of_cons; [|by apply Hin].
      rewrite Hout, Hr; [by rewrite decide_True|].
      intros Hel. specialize (Hfree _ Hel). rewrite Hr, decide_True in Hfree; done.
Qed.

(** A walk by lookups follows edges of the trie. *)
Lemma walk_reach steps :
  ∀ node n, walk node steps = Some n →
  ∃ trans, reach node trans n ∧ trans_step <$> trans = steps.
Proof.
  induction steps as [|st steps IH]; intros node n Hw; simpl in Hw.
  - injection Hw as <-. exists []. split; [constructor|done].
  - destruct (child_at node st) as [c|] eqn:Ec; [|done]. simpl in Hw.
    destruct (IH _ _ Hw) as (trans & Hreach & Htrans).
    destruct st as [v|k]; simpl in Ec.
    + apply assoc_get_elem in Ec as (v' & Hin & Hs). apply bool_decide_eq_true in Hs.
      subst v'. exists (TStatic v :: trans). split; [by econstructor|].
      by rewrite fmap_cons, Htrans.
    + apply assoc_get_elem in Ec as (fn & Hin & Hs). apply bool_decide_eq_true in Hs.
      simpl in Hs. exists (TDynamic fn :: trans). split; [by econstructor|].
      rewrite fmap_cons, Htrans. simpl. by rewrite Hs.
Qed.

(** The enumerator finds the terminal node at the end of the transitions
    of a route whose Segment Paths accept the segments one by one. *)
Lemma build_complete {NT : NameTable} paths segs vss :
  Forall3 (λ path seg vs, segment_values path seg = Some vs) paths segs vss →
  ∀ R pre node n rt values,
  trie_inv R pre node → Forall (λ p, canonical p = true) paths →
  walk node (steps_of paths) = Some n → route n = Some rt →
  mkResult rt (default [] (keys n)) (values ++ concat vss) ∈ build node segs values.
Proof.
  induction 1 as [|path seg vs paths segs vss Hv _ IH];
    intros R pre node n rt values Hinv Hcan Hw Hr.
  - simpl in Hw. injection Hw as <-. simpl. rewrite Hr, app_nil_r. by left.
  - apply Forall_cons in Hcan as [Hcan1 Hcan].
    unfold steps_of in Hw. rewrite fmap_cons in Hw. simpl in Hw.
    destruct (child_at node (step_of path)) as [c|] eqn:Ec; [|done]. simpl in Hw.
    simpl. apply list_elem_of_bind. exists (vs, c).
    unfold segment_values in Hv.
    destruct (step_of path) as [v|k] eqn:Est; simpl in Ec.
    + case_decide as Hseg; [|done]. injection Hv as <-. subst v.
      pose proof Ec as Ec'.
      apply assoc_get_elem in Ec' as (v' & Hin & Hs). apply bool_decide_eq_true in Hs.
      subst v'. split.
      * rewrite app_nil_r. eapply IH; [by eapply trie_inv_static|done..].
      * unfold Node_match. rewrite Ec. apply elem_of_app. left. by left.
    + apply assoc_get_elem in Ec as (fn & Hin & Hs). apply bool_decide_eq_true in Hs.
      simpl in Hs. split.
      * rewrite app_assoc. eapply IH; [by eapply trie_inv_dynamic|done..].
      * unfold Node_match. apply elem_of_app. right.
        apply list_elem_of_omap. exists (fn, c). split; [done|].
        destruct (trie_inv_here _ _ _ Hinv) as [Hcl _].
        destruct (Hcl _ _ Hin) as (Hid & Hcan' & _).
        destruct (step_of_dynamic _ _ Est) as [Hkey _].
        rewrite pathToKey_key_of in Hid, Hkey.
        rewrite (createMatch_shape (fn_path fn) path), Hv; [done|].
        apply key_of_inj; try done. congruence.
Qed.

(** What the enumerator yields comes from a registered route whose
    Segment Paths accept the segments one by one. *)
Lemma build_sound {NT : NameTable} routes root segs res :
  trie_inv routes [] root →
  Forall (λ x, Forall (λ p, canonical p = true) x.2) routes →
  res ∈ build root segs [] →
  ∃ rt paths vss,
    (rt, paths) ∈ routes ∧
    Forall3 (λ path seg vs, segment_values path seg = Some vs ∧
                            length vs = length (param_names path)) paths segs vss ∧
    res = mkResult rt (concat (param_names <$> paths)) (concat vss).
Proof.
  intros Hinv Hcan Hres.
  apply build_reach in Hres as (trans & n & vss & Hreach & Hr & Hk & Hv & Hall).
  pose proof (reach_closures _ _ _ _ _ Hinv Hreach) as Hok.
  destruct (Hinv trans n Hreach) as [_ Hterm].
  destruct (Hterm _ Hr) as (paths & Hin & Hsteps & Hkeys). simpl in Hsteps, Hv.
  exists (result_route res), paths, vss. split_and!; [done| |].
  - apply (trans_values_segments _ _ _ Hall paths Hok Hsteps).
    by apply (proj1 (Forall_forall _ _) Hcan (result_route res, paths)).
  - rewrite Hkeys in Hk. simpl in Hk. rewrite param_names_concat in Hk.
    destruct res as [r ks vs]. simpl in *. by subst.
Qed.

Lemma buildRoutes_canonical {NT : NameTable} inputs routes :
  buildRoutes inputs = inr routes →
  Forall (λ x, Forall (λ p, canonical p = true) x.2) routes.
Proof.
  intros Hb. apply Forall_forall. intros [rt paths] Hin. simpl.
  eapply segments_canonical. by eapply buildRoutes_elem.
Qed.

Lemma buildRoutes_elem_of {NT : NameTable} inputs routes rt paths :
  buildRoutes inputs = inr routes → rt ∈ inputs → segments rt = inr paths →
  (rt, paths) ∈ routes.
Proof.
  intros Hb Hin Hseg. rewrite (buildRoutes_Permutation _ _ Hb).
  apply list_elem_of_omap. exists rt. split; [done|]. unfold entry_of. by rewrite Hseg.
Qed.

(** The Results of the enumerator on the trie of a list of routes. *)
Lemma build_results {NT : NameTable} inputs routes root cache segs res :
  buildRoutes inputs = inr routes →
  addRoutes addToTrie emptyNode ∅ routes = inr (root, cache) →
  res ∈ build root segs [] ↔
  ∃ rt paths vss,
    rt ∈ inputs ∧ segments rt = inr paths ∧
    Forall3 (λ path seg vs, segment_values path seg = Some vs) paths segs vss ∧
    res = mkResult rt (concat (param_names <$> paths)) (concat vss).
Proof.
  intros Hb Ha.
  assert (trie_inv routes [] root) as Hinv.
  { rewrite <-(app_nil_r routes).
    eapply (addRoutes_inv routes);
      [done|apply cache_ok_empty|by eapply buildRoutes_canonical|apply trie_inv_empty]. }
  split.
  - intros Hres.
    destruct (build_sound _ _ _ _ Hinv (buildRoutes_canonical _ _ Hb) Hres)
      as (rt & paths & vss & Hin & Hall & ->).
    destruct (buildRoutes_elem _ _ _ _ Hb Hin) as [Hinput Hseg].
    exists rt, paths, vss. split_and!; try done.
    eapply Forall3_impl; [done|]. by intros ? ? ? [? _].
  - intros (rt & paths & vss & Hin & Hseg & Hall & ->).
    pose proof (buildRoutes_elem_of _ _ _ _ Hb Hin Hseg) as Hel.
    destruct (addRoutes_route_at _ _ _ _ _ cache_ids_empty Ha) as [_ Hat].
    specialize (Hat _ _ Hel). unfold route_at in Hat.
    destruct (walk root (steps_of paths)) as [n|] eqn:Ew; [|done]. simpl in Hat.
    pose proof (build_complete _ _ _ Hall routes [] root n rt []
                  Hinv (segments_canonical _ _ Hseg) Ew Hat) as Hres.
    destruct (walk_reach _ _ _ Ew) as (trans & Hreach & Htrans).
    destruct (Hinv trans n Hreach) as [_ Hterm].
    destruct (Hterm _ Hat) as (paths' & Hin' & _ & Hkeys).
    destruct (buildRoutes_elem _ _ _ _ Hb Hin') as [_ Hseg'].
    assert (paths' = paths) as -> by congruence.
    rewrite Hkeys in Hres. simpl in Hres. by rewrite param_names_concat in Hres.
Qed.

(** X6. The Results of a router are exactly these: one for every
    registered pattern with as many segments as the pathname whose Segment
    Paths accept the segments one by one - a static one by equality, a
    dynamic one by its Matcher -, holding the pattern, the names of its
    parameters and the values extracted, segment by segment. *)
Theorem router_results {NT : NameTable} (inputs : list string) (router : Router) (pathname : string)
    (res : Result) :
  createRouter inputs = inr router →
  res ∈ router pathname ↔
  ∃ rt paths vss,
    rt ∈ inputs ∧ segments rt = inr paths ∧
    Forall3 (λ path seg vs, segment_values path seg = Some vs)
      paths (Str.split "/" pathname) vss ∧
    res = mkResult rt (concat (param_names <$> paths)) (concat vss).
Proof.
  intros H.
  destruct (createRouter_inr _ _ H) as (routes & root & cache & Hb & Ha & -> & _).
  by eapply build_results.
Qed.

(** X12. Whether a route is yielded for a pathname, and with which keys
    and values, does not depend on the other routes: two routers that
    both hold the route of a Result agree on whether they yield it. *)
Theorem route_independence {NT : NameTable} (inputs1 inputs2 : list string) (router1 router2 : Router)
    (pathname : string) (res : Result) :
  createRouter inputs1 = inr router1 → createRouter inputs2 = inr router2 →
  result_route res ∈ inputs1 → result_route res ∈ inputs2 →
  res ∈ router1 pathname ↔ res ∈ router2 pathname.
Proof.
  intros H1 H2 Hin1 Hin2.
  destruct (createRouter_inr _ _ H1) as (routes1 & root1 & cache1 & Hb1 & Ha1 & -> & _).
  destruct (createRouter_inr _ _ H2) as (routes2 & root2 & cache2 & Hb2 & Ha2 & -> & _).
  rewrite (build_results _ _ _ _ _ _ Hb1 Ha1), (build_results _ _ _ _ _ _ Hb2 Ha2).
  split; intros (rt & paths & vss & Hin & Hseg & Hall & ->); simpl in *;
    exists rt, paths, vss; done.
Qed.

(** ** Routes and their segments *)

Lemma rev_app_app s1 s2 : Str.rev_app s1 s2 = Str.rev_app s1 "" +:+ s2.
Proof.
  revert s2. induction s1 as [|c s1 IH]; intros s2; simpl; [done|].
  rewrite (IH (String c s2)), (IH (String c "")). by rewrite sapp_assoc.
Qed.

Lemma rev_cons c s : Str.rev (String c s) = Str.rev s +:+ String c "".
Proof. unfold Str.rev. simpl. apply rev_app_app. Qed.

Lemma split_go_cur sep cur s :
  Str.split_go sep cur s =
  match Str.split_go sep "" s with
  | h :: t => (Str.rev cur +:+ h) :: t
  | [] => []
  end.
Proof.
  revert cur. induction s as [|c s IH]; intros cur; simpl.
  - by rewrite sapp_nil_r.
  - case_decide.
    + by rewrite sapp_nil_r.
    + rewrite (IH (String c cur)), (IH (String c "")). simpl.
      destruct (Str.split_go sep "" s) as [|h t]; [done|].
      rewrite rev_cons, sapp_assoc. done.
Qed.

Lemma split_cons sep c s :
  Str.split sep (String c s) =
  if decide (c = sep) then "" :: Str.split sep s
  else match Str.split sep s with
       | h :: t => String c h :: t
       | [] => []
       end.
Proof.
  unfold Str.split. simpl. case_decide; [done|].
  rewrite split_go_cur. simpl. by destruct (Str.split_go sep "" s).
Qed.

Lemma split_nonempty sep s : Str.split sep s ≠ [].
Proof.
  induction s as [|c s IH]; [done|]. rewrite split_cons. case_decide; [done|].
  by destruct (Str.split sep s).
Qed.

Lemma split_char_free sep s : Forall (λ x, char_free sep x = true) (Str.split sep s).
Proof.
  induction s as [|c s IH]; [by constructor|]. rewrite split_cons. case_decide.
  - by constructor.
  - destruct (Str.split sep s) as [|h t]; [done|].
    apply Forall_cons in IH as [Hh Ht]. constructor; [|done].
    simpl. rewrite Hh. by rewrite bool_decide_false.
Qed.

Lemma concat_cons sep x l :
  Str.concat sep (x :: l) =
  x +:+ match l with [] => "" | _ :: _ => sep +:+ Str.concat sep l end.
Proof. destruct l; simpl; [by rewrite sapp_nil_r|done]. Qed.

Lemma concat_split sep s : Str.concat (String sep "") (Str.split sep s) = s.
Proof.
  induction s as [|c s IH]; [done|]. rewrite split_cons. case_decide as Hc.
  - subst c. rewrite concat_cons. pose proof (split_nonempty sep s).
    destruct (Str.split sep s); [done|]. by rewrite IH.
  - pose proof (split_nonempty sep s).
    destruct (Str.split sep s) as [|h t]; [done|].
    rewrite concat_cons in IH |- *. rewrite sapp_cons. by rewrite IH.
Qed.

Lemma split_char_free_id sep s : char_free sep s = true → Str.split sep s = [s].
Proof.
  induction s as [|c s IH]; [done|]. simpl.
  intros [Hc Hs]%andb_prop. apply negb_true_iff, bool_decide_eq_false in Hc.
  rewrite split_cons, decide_False by done. by rewrite IH.
Qed.

Lemma split_app sep x s :
  char_free sep x = true →
  Str.split sep (x +:+ String sep s) = x :: Str.split sep s.
Proof.
  induction x as [|c x IH]; intros Hx.
  - rewrite sapp_nil_l, split_cons. by rewrite decide_True.
  - simpl in Hx. apply andb_prop in Hx as [Hc Hx].
    apply negb_true_iff, bool_decide_eq_false in Hc.
    rewrite sapp_cons, split_cons, decide_False by done. by rewrite IH.
Qed.

Lemma split_concat sep l :
  l ≠ [] → Forall (λ x, char_free sep x = true) l →
  Str.split sep (Str.concat (String sep "") l) = l.
Proof.
  induction l as [|x l IH]; [done|]. intros _ [Hx Hl]%Forall_cons.
  rewrite concat_cons. destruct l as [|y l].
  - rewrite sapp_nil_r. by apply split_char_free_id.
  - rewrite sapp_cons, sapp_nil_l, split_app by done. by rewrite IH.
Qed.

Lemma char_free_app c a b : char_free c (a +:+ b) = char_free c a && char_free c b.
Proof.
  induction a as [|d a IH]; [done|]. rewrite sapp_cons. simpl.
  by rewrite IH, andb_assoc.
Qed.

Lemma name_chars_slash_free {NT : NameTable} n :
  is_name_char "/"%unit = false → name_chars n = true → char_free "/" n = true.
Proof.
  intros Hslash. induction n as [|c n IH]; [done|]. simpl.
  intros [[_ Hc]%andb_prop Hn]%andb_prop. rewrite IH by done.
  rewrite bool_decide_false; [done|]. intros ->. congruence.
Qed.

Lemma serialize_cons t p : serialize (t :: p) = token_text t +:+ serialize p.
Proof. done. Qed.

(** The text of a well-formed path is free of slashes exactly when its
    literals are. *)
Lemma serialize_slash_free {NT : NameTable} p :
  is_name_char "/"%unit = false → canonical p = true →
  char_free "/" (serialize p) = literals_free "/" p.
Proof.
  intros Hslash Hc. apply canonical_token_ok in Hc.
  induction p as [|t p IH]; [done|].
  simpl in Hc. apply andb_prop in Hc as [Ht Hp].
  rewrite serialize_cons, char_free_app, IH by done. simpl. f_equal.
  destruct t as [l|n]; simpl; [done|].
  simpl in Ht. apply andb_prop in Ht as [_ Hn].
  by rewrite !char_free_app, (name_chars_slash_free n Hslash Hn).
Qed.

(** X7. The Segment Paths [buildRoutes] computes for a route,
    [route.split("/").map(parse)], are one well-formed path per segment,
    with no slash in a literal, and joining their texts with slashes gives
    back the route; conversely every non-empty list of such paths is what
    is computed for the route written that way.  So routes that parse and
    such lists correspond one to one.  Of the character table this needs
    that the slash is no letter and no digit. *)
Theorem segments_roundtrip {NT : NameTable} (rt : string) (paths : list Path) :
  is_name_char "/"%unit = false →
  segments rt = inr paths ↔
  paths ≠ [] ∧
  Forall (λ p, canonical p = true ∧ literals_free "/" p = true) paths ∧
  Str.concat "/" (serialize <$> paths) = rt.
Proof.
  intros Hslash. unfold segments. rewrite try_map_inr. split.
  - intros H.
    assert (Forall (λ p, canonical p = true) paths ∧
            serialize <$> paths = Str.split "/" rt) as [Hcan Hser].
    { induction H as [|s p l l' Hp _ [IH1 IH2]]; [by split|]. split.
      - constructor; [by eapply parse_canonical_inr|done].
      - rewrite fmap_cons. f_equal; [by apply parse_serialize|done]. }
    split_and!.
    + intros ->. by destruct (split_nonempty "/" rt).
    + pose proof (split_char_free "/" rt) as Hfree. rewrite <-Hser in Hfree.
      apply Forall_fmap in Hfree. apply Forall_forall. intros p Hp.
      pose proof (proj1 (Forall_forall _ _) Hcan p Hp) as Hc.
      pose proof (proj1 (Forall_forall _ _) Hfree p Hp) as Hf. simpl in Hf.
      split; [done|]. by rewrite <-serialize_slash_free.
    + rewrite Hser. apply concat_split.
  - intros (Hne & Hall & <-).
    rewrite split_concat.
    + apply Forall2_fmap_l, Forall_Forall2_diag.
      eapply Forall_impl; [done|]. intros p [Hc _]. by apply parse_canonical.
    + by destruct paths.
    + apply Forall_fmap. eapply Forall_impl; [done|].
      intros p [Hc Hf]. simpl. by rewrite serialize_slash_free.
Qed.

(** ** What the values of a Result are *)

Lemma char_free_substring c a n s :
  char_free c s = true → char_free c (Str.substring a n s) = true.
Proof.
  revert a n. induction s as [|d s IH]; intros [|a] [|n] Hs; simpl in *; try done.
  - apply andb_prop in Hs as [Hd Hs]. rewrite Hd. simpl. by apply IH.
  - apply andb_prop in Hs as [_ Hs]. by apply (IH a 0).
  - apply andb_prop in Hs as [_ Hs]. by apply IH.
Qed.

Lemma length_nonempty s : 0 < Str.length s → s ≠ "".
Proof. by destruct s; [simpl; lia|]. Qed.

(** Every value a Matcher extracts is a non-empty piece of the segment. *)
Lemma captures_pieces s path offset values :
  captures s path offset values →
  Forall (λ v, v ≠ "" ∧ ∃ a n, v = Str.substring a n s) values.
Proof.
  induction 1 as [offset|l path offset values Hlt Hocc _ IH|n offset Hlt|
                  n l path offset idx values Hlt Hfirst Hidx _ IH].
  - constructor.
  - done.
  - constructor; [|constructor]. split; [|by eexists _, _].
    apply length_nonempty. unfold Str.slice_from. rewrite substring_length. lia.
  - constructor; [|done]. split; [|by eexists _, _].
    apply length_nonempty. unfold Str.slice. rewrite substring_length. lia.
Qed.

Lemma segment_values_pieces {NT : NameTable} path seg vs :
  canonical path = true → segment_values path seg = Some vs →
  Forall (λ v, v ≠ "" ∧ ∃ a n, v = Str.substring a n seg) vs.
Proof.
  intros Hcan. unfold segment_values.
  destruct (step_of path) as [v|k] eqn:Est.
  - case_decide; [|done]. intros [= <-]. constructor.
  - intros Hv. apply createMatch_accepts in Hv; [|by apply canonical_delimited].
    destruct path as [|t path]; [done|]. by eapply captures_pieces.
Qed.

Lemma segments_length {NT : NameTable} rt paths :
  segments rt = inr paths → length paths = length (Str.split "/" rt).
Proof. unfold segments. intros H%try_map_inr. symmetry. by eapply Forall2_length. Qed.

Lemma segments_values_pieces {NT : NameTable} paths segs vss :
  Forall3 (λ path seg vs, segment_values path seg = Some vs ∧
                          length vs = length (param_names path)) paths segs vss →
  Forall (λ p, canonical p = true) paths →
  Forall (λ seg, char_free "/" seg = true) segs →
  Forall (λ v, v ≠ "" ∧ char_free "/" v = true ∧
               ∃ seg a n, seg ∈ segs ∧ v = Str.substring a n seg) (concat vss).
Proof.
  induction 1 as [|path seg vs paths segs vss [Hv _] _ IH]; intros Hcan Hfree;
    [constructor|].
  apply Forall_cons in Hcan as [Hcan1 Hcan]. apply Forall_cons in Hfree as [Hseg Hfree].
  simpl. apply Forall_app. split.
  - eapply Forall_impl; [by eapply segment_values_pieces|].
    intros v (Hne & a & n & ->). split_and!; [done|by apply char_free_substring|].
    exists seg, a, n. split; [by left|done].
  - eapply Forall_impl; [by apply IH|].
    intros v (Hne & Hf & seg' & a & n & Hin & ->). split_and!; [done..|].
    exists seg', a, n. split; [by right|done].
Qed.

(** X8. Every value in a Result is a non-empty piece of one segment of
    the pathname: a parameter never matches the empty string and never
    reaches across a slash. *)
Theorem result_values_pieces {NT : NameTable} (inputs : list string) (router : Router) (pathname : string)
    (res : Result) :
  createRouter inputs = inr router →
  res ∈ router pathname →
  Forall (λ v, v ≠ "" ∧ char_free "/" v = true ∧
               ∃ seg a n, seg ∈ Str.split "/" pathname ∧ v = Str.substring a n seg)
    (result_values res).
Proof.
  intros H Hres.
  destruct (createRouter_trie_inv _ _ H) as (routes & root & Hb & -> & Hinv).
  pose proof (buildRoutes_canonical _ _ Hb) as Hcan.
  destruct (build_sound _ _ _ _ Hinv Hcan Hres) as (rt & paths & vss & Hin & Hall & ->).
  simpl. apply (proj1 (Forall_forall _ _) Hcan) in Hin. simpl in Hin.
  apply (segments_values_pieces _ _ _ Hall Hin (split_char_free "/" pathname)).
Qed.

(** X9. A route is yielded only for pathnames with as many segments as
    it has itself: no pattern reaches across a slash, and a slash at the
    end of the pathname counts. *)
Theorem result_segment_count {NT : NameTable} (inputs : list string) (router : Router) (pathname : string)
    (res : Result) :
  createRouter inputs = inr router →
  res ∈ router pathname →
  length (Str.split "/" (result_route res)) = length (Str.split "/" pathname).
Proof.
  intros H Hres.
  destruct (createRouter_trie_inv _ _ H) as (routes & root & Hb & -> & Hinv).
  destruct (build_sound _ _ _ _ Hinv (buildRoutes_canonical _ _ Hb) Hres)
    as (rt & paths & vss & Hin & Hall & ->).
  destruct (buildRoutes_elem _ _ _ _ Hb Hin) as [_ Hseg]. simpl.
  rewrite <-(segments_length _ _ Hseg).
  clear -Hall. induction Hall; simpl; [done|]. by f_equal.
Qed.

(** ** Static routes *)

(** A well-formed path whose text holds no opening bracket is static. *)
Lemma no_open_static {NT : NameTable} path :
  canonical path = true → no_open (serialize path) = true →
  step_of path = SStatic (serialize path) ∧ param_names path = [].
Proof.
  intros Hcan Hno. destruct path as [|[s|n] path].
  - done.
  - destruct path as [|[s'|n] path].
    + simpl. by rewrite sapp_nil_r.
    + by apply canonical_cons in Hcan as (_ & _ & ?).
    + rewrite !serialize_cons, !no_open_app in Hno. simpl in Hno.
      by rewrite andb_false_r in Hno.
  - by rewrite serialize_cons in Hno.
Qed.

Lemma no_open_concat sep l :
  no_open (Str.concat sep l) = true → Forall (λ s, no_open s = true) l.
Proof.
  induction l as [|x l IH]; [constructor|]. rewrite concat_cons, no_open_app.
  intros [Hx Hl]%andb_prop. constructor; [done|]. apply IH.
  destruct l; [done|]. rewrite no_open_app in Hl. by apply andb_prop in Hl as [_ ?].
Qed.

(** The Segment Paths of a route without an opening bracket are static,
    each under the text of its segment. *)
Lemma segments_static {NT : NameTable} rt paths :
  no_open rt = true → segments rt = inr paths →
  steps_of paths = SStatic <$> Str.split "/" rt ∧ concat (param_names <$> paths) = [].
Proof.
  intros Hno Hseg.
  assert (Forall (λ s, no_open s = true) (Str.split "/" rt)) as Hsegs.
  { apply (no_open_concat "/"). by rewrite concat_split. }
  unfold segments in Hseg. apply try_map_inr in Hseg.
  induction Hseg as [|s p l l' Hp _ IH]; [done|].
  apply Forall_cons in Hsegs as [Hs Hsegs]. destruct (IH Hsegs) as [IH1 IH2].
  pose proof (parse_canonical_inr _ _ Hp) as Hcan.
  pose proof (parse_serialize _ _ Hp) as Hser. rewrite <-Hser in Hs.
  destruct (no_open_static _ Hcan Hs) as [Hstep Hnames].
  unfold steps_of in *. rewrite !fmap_cons. simpl.
  by rewrite Hstep, Hser, IH1, Hnames, IH2.
Qed.

(** A terminal node at the end of static transitions gives the first
    Result of the enumerator. *)
Lemma build_static_first segs :
  ∀ node n rt values,
  walk node (SStatic <$> segs) = Some n → route n = Some rt →
  ∃ rest, build node segs values = mkResult rt (default [] (keys n)) values :: rest.
Proof.
  induction segs as [|seg segs IH]; intros node n rt values Hw Hr.
  - simpl in Hw. injection Hw as <-. simpl. rewrite Hr. by eexists.
  - rewrite fmap_cons in Hw. simpl in Hw.
    destruct (assoc_get same_string seg (static node)) as [c|] eqn:Ec; [|done].
    simpl in Hw. destruct (IH c n rt (values ++ []) Hw Hr) as [rest Hrest].
    simpl. unfold Node_match. rewrite Ec. simpl. rewrite Hrest, app_nil_r.
    by eexists.
Qed.

Lemma Forall3_static paths segs segs' vss :
  Forall3 (λ path seg vs, segment_values path seg = Some vs ∧
                          length vs = length (param_names path)) paths segs vss →
  steps_of paths = SStatic <$> segs' →
  segs = segs' ∧ concat vss = [].
Proof.
  intros Hall. revert segs'.
  induction Hall as [|path seg vs paths segs vss [Hv _] _ IH]; intros [|seg' segs'] Hst;
    try done.
  unfold steps_of in Hst. rewrite !fmap_cons in Hst. injection Hst as Hstep Hst.
  destruct (IH _ Hst) as [-> Hvss]. unfold segment_values in Hv. rewrite Hstep in Hv.
  case_decide; [|done]. injection Hv as <-. by subst.
Qed.

(** X10. A registered route without an opening bracket is yielded for
    one pathname only, the route itself, with no keys and no values; and
    for that pathname its Result is the first one yielded, before those
    of all patterns with parameters that match as well. *)
Theorem static_route_first {NT : NameTable} (inputs : list string) (router : Router) (rt : string) :
  createRouter inputs = inr router →
  rt ∈ inputs → no_open rt = true →
  (∃ rest, router rt = mkResult rt [] [] :: rest) ∧
  (∀ pathname res,
     res ∈ router pathname → result_route res = rt →
     pathname = rt ∧ res = mkResult rt [] []).
Proof.
  intros H Hin Hno.
  destruct (createRouter_inr _ _ H) as (routes & root & cache & Hb & Ha & -> & Hnd).
  pose proof (buildRoutes_canonical _ _ Hb) as Hcan.
  assert (trie_inv routes [] root) as Hinv.
  { rewrite <-(app_nil_r routes).
    eapply (addRoutes_inv routes); [done|apply cache_ok_empty|done|apply trie_inv_empty]. }
  split.
  - pose proof (proj1 (buildRoutes_inr _ _) Hb) as [Hall _].
    destruct (proj1 (Forall_forall _ _) Hall rt Hin) as [[rt0 paths] Hseg].
    apply entry_of_Some in Hseg as [_ Hseg]. simpl in Hseg.
    destruct (segments_static _ _ Hno Hseg) as [Hsteps Hnames].
    pose proof (buildRoutes_elem_of _ _ _ _ Hb Hin Hseg) as Hel.
    destruct (addRoutes_route_at _ _ _ _ _ cache_ids_empty Ha) as [_ Hat].
    specialize (Hat _ _ Hel). unfold route_at in Hat. rewrite Hsteps in Hat.
    destruct (walk root (SStatic <$> Str.split "/" rt)) as [n|] eqn:Ew; [|done].
    simpl in Hat.
    destruct (build_static_first _ _ _ _ [] Ew Hat) as [rest Hrest].
    destruct (walk_reach _ _ _ Ew) as (trans & Hreach & Htrans).
    destruct (Hinv trans n Hreach) as [_ Hterm].
    destruct (Hterm _ Hat) as (paths' & Hin' & _ & Hkeys).
    destruct (buildRoutes_elem _ _ _ _ Hb Hin') as [_ Hseg'].
    assert (paths' = paths) as -> by congruence.
    rewrite Hkeys, param_names_concat, Hnames in Hrest. simpl in Hrest.
    by exists rest.
  - intros pathname res Hres Hrt.
    destruct (build_sound _ _ _ _ Hinv Hcan Hres) as (rt' & paths & vss & Hel & Hall & ->).
    simpl in Hrt. subst rt'.
    destruct (buildRoutes_elem _ _ _ _ Hb Hel) as [_ Hseg].
    destruct (segments_static _ _ Hno Hseg) as [Hsteps Hnames].
    destruct (Forall3_static _ _ _ _ Hall Hsteps) as [Hsegs Hvss].
    rewrite Hnames, Hvss. split; [|done].
    by rewrite <-(concat_split "/" pathname), Hsegs, concat_split.
Qed.

(** ** Static segments come first *)

Lemma child_trie_order node st c :
  child_at node st = Some c → ∃ l1 l2, trie_order node = l1 ++ trie_order c ++ l2.
Proof.
  intros Hc. rewrite (trie_order_eq node). destruct st as [v|k]; simpl in Hc.
  - apply assoc_get_elem in Hc as (v' & Hin & _).
    apply list_elem_of_split in Hin as (m1 & m2 & ->).
    rewrite flat_map_app. simpl.
    exists (option_list (route node) ++ flat_map (λ p, trie_order p.2) m1),
      (flat_map (λ p, trie_order p.2) m2 ++ flat_map (λ p, trie_order p.2) (dynamic node)).
    by rewrite <-!app_assoc.
  - apply assoc_get_elem in Hc as (fn & Hin & _).
    apply list_elem_of_split in Hin as (m1 & m2 & ->).
    rewrite flat_map_app. simpl.
    exists (option_list (route node) ++ flat_map (λ p, trie_order p.2) (static node) ++
            flat_map (λ p, trie_order p.2) m1),
      (flat_map (λ p, trie_order p.2) m2).
    by rewrite <-!app_assoc.
Qed.

Lemma walk_trie_order steps :
  ∀ node n r, walk node steps = Some n → route n = Some r → r ∈ trie_order node.
Proof.
  induction steps as [|st steps IH]; intros node n r Hw Hr; simpl in Hw.
  - injection Hw as <-. rewrite trie_order_eq, Hr. by left.
  - destruct (child_at node st) as [c|] eqn:Ec; [|done]. simpl in Hw.
    destruct (child_trie_order _ _ _ Ec) as (l1 & l2 & ->).
    rewrite !elem_of_app. right. left. by eapply IH.
Qed.

Lemma yielded_before_app a b l l1 l2 :
  yielded_before a b l → yielded_before a b (l1 ++ l ++ l2).
Proof.
  rewrite !yielded_before_split. intros (k1 & k2 & k3 & ->).
  exists (l1 ++ k1), k2, (k3 ++ l2).
  by repeat (rewrite <-app_assoc || rewrite <-app_comm_cons).
Qed.

(** Below a node, what is reached through a static child comes before
    what is reached through a dynamic one in the order of discovery,
    also after a common walk. *)
Lemma trie_order_static_dynamic pre :
  ∀ node v k s1 s2 n1 n2 r1 r2,
  walk node (pre ++ SStatic v :: s1) = Some n1 → route n1 = Some r1 →
  walk node (pre ++ SDynamic k :: s2) = Some n2 → route n2 = Some r2 →
  yielded_before r1 r2 (trie_order node).
Proof.
  induction pre as [|st pre IH]; intros node v k s1 s2 n1 n2 r1 r2 Hw1 Hr1 Hw2 Hr2;
    simpl in Hw1, Hw2.
  - destruct (assoc_get same_string v (static node)) as [c1|] eqn:E1; [|done].
    destruct (assoc_get same_fn (mkMatch k []) (dynamic node)) as [c2|] eqn:E2; [|done].
    simpl in Hw1, Hw2.
    pose proof (walk_trie_order _ _ _ _ Hw1 Hr1) as H1.
    pose proof (walk_trie_order _ _ _ _ Hw2 Hr2) as H2.
    apply assoc_get_elem in E1 as (v' & Hin1 & _).
    apply assoc_get_elem in E2 as (fn & Hin2 & _).
    assert (r1 ∈ flat_map (λ p : string * Node, trie_order p.2) (static node)) as Hs.
    { apply list_elem_of_In, in_flat_map. exists (v', c1).
      split; by apply list_elem_of_In. }
    assert (r2 ∈ flat_map (λ p : Match * Node, trie_order p.2) (dynamic node)) as Hd.
    { apply list_elem_of_In, in_flat_map. exists (fn, c2).
      split; by apply list_elem_of_In. }
    apply list_elem_of_split in Hs as (b1 & b2 & Hs).
    apply list_elem_of_split in Hd as (d1 & d2 & Hd).
    rewrite trie_order_eq, Hs, Hd. apply yielded_before_split.
    exists (option_list (route node) ++ b1), (b2 ++ d1), d2.
    by rewrite <-!app_assoc.
  - destruct (child_at node st) as [c|] eqn:Ec; [|done]. simpl in Hw1, Hw2.
    destruct (child_trie_order _ _ _ Ec) as (l1 & l2 & ->).
    apply yielded_before_app. by eapply IH.
Qed.

Lemma yielded_before_restrict a b out T :
  NoDup T → out `sublist_of` T → a ∈ out → b ∈ out →
  yielded_before a b T → yielded_before a b out.
Proof.
  intros Hnd Hsub Ha Hb Hbefore.
  destruct (decide (a = b)) as [->|Hne].
  { destruct (yielded_before_asym b b _ Hnd Hbefore Hbefore). }
  destruct (yielded_before_total a b _ Ha Hb Hne) as [Hyes|Hno]; [done|].
  destruct (yielded_before_asym a b _ Hnd Hbefore).
  by eapply yielded_before_sublist.
Qed.

Lemma is_dynamic_step path :
  step_of path = if is_dynamic path then SDynamic (pathToKey path []).1
                 else SStatic (serialize path).
Proof.
  destruct path as [|[s|n] [|t path]]; try done. simpl. by rewrite sapp_nil_r.
Qed.

(** All that is known of a router that was built. *)
Lemma createRouter_parts {NT : NameTable} inputs router :
  createRouter inputs = inr router →
  ∃ routes root cache,
    buildRoutes inputs = inr routes ∧
    addRoutes addToTrie emptyNode ∅ routes = inr (root, cache) ∧
    router = (fun pathname => build root (Str.split "/" pathname) []) ∧
    trie_inv routes [] root ∧
    trie_order root ≡ₚ inputs ∧ NoDup inputs.
Proof.
  intros H.
  destruct (createRouter_inr _ _ H) as (routes & root & cache & Hb & Ha & Hr & Hnd).
  exists routes, root, cache. split_and!; try done.
  - rewrite <-(app_nil_r routes).
    eapply (addRoutes_inv routes);
      [done|apply cache_ok_empty|by eapply buildRoutes_canonical|apply trie_inv_empty].
  - pose proof (proj1 (buildRoutes_inr _ _) Hb) as [Hall ->].
    rewrite (addRoutes_trie_order _ _ _ _ _ Ha). simpl. rewrite app_nil_r.
    by rewrite sort_Permutation, omap_entry_of_fst.
  - pose proof (proj1 (buildRoutes_inr _ _) Hb) as [Hall ->].
    rewrite sort_Permutation, omap_entry_of_steps in Hnd by done.
    by apply NoDup_fmap_1 in Hnd.
Qed.

(** Static segments take precedence. *)
Lemma static_first_order {NT : NameTable} (inputs : list string) (router : Router) (pathname : string)
    (r1 r2 : string) (pre1 pre2 post1 post2 : list Path) (x y : Path) :
  createRouter inputs = inr router →
  r1 ∈ routes_of (router pathname) → r2 ∈ routes_of (router pathname) →
  segments r1 = inr (pre1 ++ x :: post1) → segments r2 = inr (pre2 ++ y :: post2) →
  shape <$> pre1 = shape <$> pre2 → is_dynamic x = false → is_dynamic y = true →
  yielded_before r1 r2 (routes_of (router pathname)).
Proof.
  intros H H1 H2 Hs1 Hs2 Hpre Hx Hy.
  destruct (createRouter_parts _ _ H)
    as (routes & root & cache & Hb & Ha & -> & Hinv & Hperm & Hnd).
  pose proof (build_sublist (Str.split "/" pathname) root []) as Hsub.
  assert (NoDup (trie_order root)) as Hnd' by by rewrite Hperm.
  apply (yielded_before_restrict _ _ _ _ Hnd' Hsub H1 H2).
  assert (r1 ∈ inputs) as Hin1.
  { rewrite <-Hperm. by eapply elem_of_sublist. }
  assert (r2 ∈ inputs) as Hin2.
  { rewrite <-Hperm. by eapply elem_of_sublist. }
  destruct (addRoutes_route_at _ _ _ _ _ cache_ids_empty Ha) as [_ Hat].
  pose proof (Hat _ _ (buildRoutes_elem_of _ _ _ _ Hb Hin1 Hs1)) as Hat1.
  pose proof (Hat _ _ (buildRoutes_elem_of _ _ _ _ Hb Hin2 Hs2)) as Hat2.
  unfold route_at, steps_of in Hat1, Hat2.
  rewrite fmap_app, fmap_cons, is_dynamic_step, Hx in Hat1.
  rewrite fmap_app, fmap_cons, is_dynamic_step, Hy in Hat2.
  fold (steps_of pre1) (steps_of post1) in Hat1.
  fold (steps_of pre2) (steps_of post2) in Hat2.
  rewrite <-(steps_of_shape _ _ Hpre) in Hat2.
  destruct (walk root (steps_of pre1 ++ SStatic (serialize x) :: steps_of post1))
    as [n1|] eqn:Ew1; [|done].
  destruct (walk root (steps_of pre1 ++ SDynamic (pathToKey y []).1 :: steps_of post2))
    as [n2|] eqn:Ew2; [|done].
  simpl in Hat1, Hat2.
  by eapply trie_order_static_dynamic.
Qed.

(** X11. Static segments take precedence: when two routes are both
    yielded for a pathname, agree up to parameter names on the segments
    before some position, and have there a static segment in the one and
    a segment with a parameter in the other, then the Result of the route
    with the static segment is yielded first. *)
Theorem static_before_dynamic {NT : NameTable} (inputs : list string) (router : Router) (pathname : string)
    (r1 r2 : string) (pre1 pre2 post1 post2 : list Path) (x y : Path) :
  createRouter inputs = inr router →
  r1 ∈ routes_of (router pathname) → r2 ∈ routes_of (router pathname) →
  segments r1 = inr (pre1 ++ x :: post1) → segments r2 = inr (pre2 ++ y :: post2) →
  shape <$> pre1 = shape <$> pre2 → is_dynamic x = false → is_dynamic y = true →
  yielded_before r1 r2 (routes_of (router pathname)).
Proof. apply static_first_order. Qed.

(** ** Text after the last literal *)

Lemma substring_app_l a n s e :
  a + n ≤ Str.length s → Str.substring a n (s +:+ e) = Str.substring a n s.
Proof.
  revert a n. induction s as [|c s IH]; intros a n Hlen; simpl in Hlen.
  - assert (a = 0) as -> by lia. assert (n = 0) as -> by lia. by destruct e.
  - rewrite sapp_cons. destruct a as [|a], n as [|n]; simpl; try done.
    + f_equal. apply IH. simpl. lia.
    + apply IH. lia.
    + apply IH. lia.
Qed.

Lemma occurs_at_app s e l k :
  k + Str.length l ≤ Str.length s → occurs_at (s +:+ e) l k ↔ occurs_at s l k.
Proof.
  intros Hlen. unfold occurs_at. by rewrite !slice_substring, substring_app_l.
Qed.

Lemma first_occurrence_bound s l from idx :
  from ≤ Str.length s → first_occurrence s l from idx →
  idx + Str.length l ≤ Str.length s.
Proof.
  intros Hfrom (Hle & Hocc & Hmin).
  destruct (decide (l = "")) as [->|Hne]; [|by apply occurs_at_bound].
  simpl. destruct (decide (idx ≤ Str.length s)) as [|Hgt]; [lia|].
  destruct (Hmin from); [lia..|]. apply occurs_at_empty.
Qed.

(** What a path that does not end in a parameter extracts does not
    change when text is added at the end. *)
Lemma captures_extend s e path offset values :
  captures s path offset values → last_is_param path = false →
  captures (s +:+ e) path offset values.
Proof.
  induction 1 as [offset|l path offset values Hlt Hocc _ IH|n offset Hlt|
                  n l path offset idx values Hlt Hfirst Hidx _ IH]; intros Hlast.
  - constructor.
  - pose proof (occurs_at_le s l offset ltac:(lia) Hocc) as Hle.
    constructor.
    + rewrite sapp_length. lia.
    + by apply occurs_at_app.
    + apply IH. by destruct path.
  - done.
  - pose proof (first_occurrence_bound s l offset idx ltac:(lia) Hfirst) as Hle.
    destruct Hfirst as (Hfrom & Hocc & Hmin).
    assert (Str.slice (s +:+ e) offset idx = Str.slice s offset idx) as <-.
    { unfold Str.slice. apply substring_app_l. lia. }
    constructor.
    + rewrite sapp_length. lia.
    + split_and!; [done|by apply occurs_at_app|].
      intros k Hk1 Hk2 Hk. apply (Hmin k Hk1 Hk2). apply occurs_at_app in Hk; [done|lia].
    + done.
    + apply IH. by destruct path.
Qed.

(** X13. A Matcher whose path ends in a literal does not look at what
    follows that literal: when it accepts a segment, it accepts the
    segment with any text added at the end, and returns the same values. *)
Theorem createMatch_ignores_tail (path : Path) (s extra : string) (values : list string) :
  delimited path = true → path ≠ [] → last_is_param path = false →
  createMatch path s = Some values →
  createMatch path (s +:+ extra) = Some values.
Proof.
  intros Hd Hne Hlast H.
  apply createMatch_accepts in H; [|done]. apply createMatch_accepts; [done|].
  destruct path as [|t path]; [done|]. by apply captures_extend.
Qed.

(** ** The order of the dynamic children *)

Lemma assoc_set_keys fn child (m : list (Match * Node)) :
  (λ p, fn_id p.1) <$> assoc_set same_fn fn child m =
  add_key ((λ p, fn_id p.1) <$> m) (fn_id fn).
Proof.
  unfold add_key. induction m as [|[k v] m IH]; [done|].
  cbn [assoc_set]. unfold same_fn at 1. case_bool_decide as Hk; rewrite !fmap_cons; simpl.
  - rewrite decide_True; [done|]. rewrite Hk. by left.
  - rewrite IH. destruct (decide (fn_id fn ∈ (λ p, fn_id p.1) <$> m)) as [Hin|Hin].
    + rewrite decide_True; [done|]. by right.
    + rewrite decide_False; [done|]. intros [?|?]%elem_of_cons; [congruence|done].
Qed.

Lemma dyn_keys_empty pre : dyn_keys emptyNode pre = [].
Proof. unfold dyn_keys. by destruct pre as [|[]]. Qed.

Lemma dyn_keys_cons node st pre :
  dyn_keys node (st :: pre) = dyn_keys (default emptyNode (child_at node st)) pre.
Proof.
  unfold dyn_keys at 1. simpl. destruct (child_at node st); simpl; [done|].
  by rewrite dyn_keys_empty.
Qed.

Lemma next_dyn_nil pre : next_dyn [] pre = None.
Proof. by destruct pre. Qed.

(** What [addToTrie] does to the order of the dynamic children: the key
    of a dynamic transition goes to the end of the [Map] of the node it
    leaves, unless it is a key of that [Map]; nothing else changes. *)
Lemma addToTrie_from_dyn_keys paths :
  ∀ node rt params cache node' cache',
  cache_ids cache →
  addToTrie_from node paths rt params cache = inr (node', cache') →
  ∀ pre, dyn_keys node' pre =
         match next_dyn (steps_of paths) pre with
         | Some k => add_key (dyn_keys node pre) k
         | None => dyn_keys node pre
         end.
Proof.
  induction paths as [|path paths IH]; intros node rt params cache node' cache' Hc Hadd pre.
  - simpl in Hadd. destruct (route node); [done|]. injection Hadd as <- <-.
    change (steps_of []) with (@nil Step). rewrite next_dyn_nil.
    by destruct pre as [|[]].
  - rewrite addToTrie_from_cons in Hadd. unfold steps_of. rewrite fmap_cons.
    fold (steps_of paths).
    destruct (step_of path) as [v|key] eqn:Est; cbv zeta in Hadd.
    + destruct (addToTrie_from _ paths rt params cache) as [e|[child' cache1]] eqn:E;
        [done|].
      simpl in Hadd. injection Hadd as <- <-.
      destruct pre as [|p pre]; [done|].
      rewrite !dyn_keys_cons. simpl next_dyn.
      destruct (decide (SStatic v = p)) as [<-|Hp].
      * simpl child_at.
        rewrite (assoc_get_set same_string same_string_sym same_string_trans).
        rewrite same_string_refl. simpl. by eapply IH.
      * destruct p as [v'|k']; simpl child_at; [|done].
        rewrite (assoc_get_set same_string same_string_sym same_string_trans).
        unfold same_string at 1. rewrite bool_decide_false by congruence. done.
    + destruct (cache_ids_insert cache key path Hc) as [Hid Hc1].
      remember (default (mkMatch key path) (cache !! key)) as fn eqn:Hfn.
      destruct (addToTrie_from _ paths rt _ _) as [e|[child' cache1]] eqn:E; [done|].
      simpl in Hadd. injection Hadd as <- <-.
      destruct pre as [|p pre].
      * unfold dyn_keys. simpl. by rewrite assoc_set_keys, Hid.
      * rewrite !dyn_keys_cons. simpl next_dyn.
        destruct (decide (SDynamic key = p)) as [<-|Hp].
        -- simpl child_at.
           rewrite (assoc_get_set same_fn same_fn_sym same_fn_trans).
           rewrite (assoc_get_same_fn (mkMatch key []) fn) by done.
           assert (same_fn fn (mkMatch key []) = true) as ->
             by by apply bool_decide_eq_true.
           simpl. by eapply IH.
        -- destruct p as [v'|k']; simpl child_at; [done|].
           rewrite (assoc_get_set same_fn same_fn_sym same_fn_trans).
           unfold same_fn at 1. rewrite bool_decide_false; [done|].
           simpl. rewrite Hid. congruence.
Qed.

(** After the loop of [createRouter] the dynamic children of a node
    stand in the order in which the routes of the list first use them. *)
Lemma addRoutes_dyn_keys routes :
  ∀ root cache root' cache',
  cache_ids cache →
  addRoutes addToTrie root cache routes = inr (root', cache') →
  ∀ pre, dyn_keys root' pre =
         foldl add_key (dyn_keys root pre)
           (omap (λ x, next_dyn (entry_steps x) pre) routes).
Proof.
  induction routes as [|[rt paths] routes IH]; intros root cache root' cache' Hc Hadd pre.
  - simpl in Hadd. by injection Hadd as <- <-.
  - simpl in Hadd.
    pose proof (addToTrie_from_route_at paths root rt [] cache Hc) as H.
    change (addToTrie root paths rt cache) with (addToTrie_from root paths rt [] cache)
      in Hadd.
    destruct (route_at root (steps_of paths)) as [r0|] eqn:Er.
    { by rewrite H in Hadd. }
    destruct H as (root1 & cache1 & H & Hc1 & _). rewrite H in Hadd. simpl in Hadd.
    rewrite (IH _ _ _ _ Hc1 Hadd pre).
    rewrite (addToTrie_from_dyn_keys _ _ _ _ _ _ _ Hc H pre).
    csimpl. unfold entry_steps at 2. simpl.
    by destruct (next_dyn (steps_of paths) pre).
Qed.

Lemma foldl_add_key_prefix ks : ∀ acc, ∃ rest, foldl add_key acc ks = acc ++ rest.
Proof.
  induction ks as [|k ks IH]; intros acc; simpl.
  - exists []. by rewrite app_nil_r.
  - destruct (IH (add_key acc k)) as [rest ->]. unfold add_key. case_decide.
    + by exists rest.
    + exists (k :: rest). by rewrite <-app_assoc.
Qed.

Lemma foldl_add_key_notin ks : ∀ acc k, k ∉ acc → k ∉ ks → k ∉ foldl add_key acc ks.
Proof.
  induction ks as [|k' ks IH]; intros acc k Hacc Hks; simpl; [done|].
  apply not_elem_of_cons in Hks as [Hne Hks]. apply IH; [|done].
  unfold add_key. case_decide; [done|].
  rewrite elem_of_app, list_elem_of_singleton. tauto.
Qed.

Lemma add_key_elem acc k : k ∈ add_key acc k.
Proof.
  unfold add_key. case_decide; [done|]. apply elem_of_app. right. by left.
Qed.

(** A key first used before another key is used stands before it. *)
Lemma first_use_keys {A} (next : A → option string) l1 e l2 k1 k2 :
  next e = Some k1 → Forall (λ x, next x ≠ Some k2) (l1 ++ [e]) →
  ∃ a b, foldl add_key [] (omap next (l1 ++ e :: l2)) = a ++ k1 :: b ∧
         (k1 ∉ a) ∧ (k2 ∉ a) ∧ k1 ≠ k2.
Proof.
  intros He Hall.
  assert (k2 ∉ omap next (l1 ++ [e])) as Hk2.
  { intros (x & Hx & Hn)%list_elem_of_omap.
    by apply (proj1 (Forall_forall _ _) Hall x). }
  assert (k1 ≠ k2) as Hne.
  { intros ->. apply Hk2. apply list_elem_of_omap. exists e. split; [|done].
    apply elem_of_app. right. by left. }
  replace (l1 ++ e :: l2) with ((l1 ++ [e]) ++ l2) by by rewrite <-app_assoc.
  rewrite omap_app, foldl_app.
  destruct (foldl_add_key_prefix (omap next l2) (foldl add_key [] (omap next (l1 ++ [e]))))
    as [rest ->].
  pose proof (foldl_add_key_notin _ [] k2 (not_elem_of_nil _) Hk2) as Hk2'.
  assert (k1 ∈ foldl add_key [] (omap next (l1 ++ [e]))) as Hk1.
  { rewrite omap_app, foldl_app. csimpl. rewrite He. simpl. apply add_key_elem. }
  apply list_elem_of_split_l in Hk1 as (a & b & Hab & Ha). rewrite Hab in Hk2' |- *.
  exists a, (b ++ rest). split_and!; [by rewrite <-app_assoc|done| |done].
  intros Hin. apply Hk2'. apply elem_of_app. by left.
Qed.

Lemma assoc_get_app_None {K V} (same : K → K → bool) (k : K) (m1 m2 : list (K * V)) :
  Forall (λ x, same x.1 k = false) m1 →
  assoc_get same k (m1 ++ m2) = assoc_get same k m2.
Proof.
  induction 1 as [|[k' v] m1 Hk _ IH]; [done|]. simpl in *. by rewrite Hk.
Qed.

(** Below a node, what is reached through a dynamic child comes before
    what is reached through a dynamic child that stands later in the
    [Map], also after a common walk. *)
Lemma trie_order_dynamic pre :
  ∀ node k1 k2 s1 s2 n1 n2 r1 r2 a b,
  walk node (pre ++ SDynamic k1 :: s1) = Some n1 → route n1 = Some r1 →
  walk node (pre ++ SDynamic k2 :: s2) = Some n2 → route n2 = Some r2 →
  dyn_keys node pre = a ++ k1 :: b → k1 ∉ a → k2 ∉ a → k1 ≠ k2 →
  yielded_before r1 r2 (trie_order node).
Proof.
  induction pre as [|st pre IH];
    intros node k1 k2 s1 s2 n1 n2 r1 r2 a b Hw1 Hr1 Hw2 Hr2 Hkeys Ha1 Ha2 Hne;
    simpl in Hw1, Hw2.
  - unfold dyn_keys in Hkeys. simpl in Hkeys.
    apply fmap_app_inv in Hkeys as (m1 & m' & -> & Hm' & Hdyn). symmetry in Hm'.
    apply fmap_cons_inv in Hm' as ([fn1 c1] & m2 & Hk1 & -> & ->). simpl in Hk1.
    rewrite Hdyn in Hw1, Hw2.
    assert (∀ k, k ∉ (λ p : Match * Node, fn_id p.1) <$> m1 →
                 Forall (λ x : Match * Node, same_fn x.1 (mkMatch k []) = false) m1)
      as Hskip.
    { intros k Hk. apply Forall_forall. intros [fn c] Hin. simpl.
      apply bool_decide_eq_false. simpl. intros Heq. apply Hk.
      apply list_elem_of_fmap. by exists (fn, c). }
    rewrite (assoc_get_app_None same_fn _ _ _ (Hskip _ Ha1)) in Hw1.
    rewrite (assoc_get_app_None same_fn _ _ _ (Hskip _ Ha2)) in Hw2.
    simpl in Hw1, Hw2. unfold same_fn at 1 in Hw1. unfold same_fn at 1 in Hw2.
    simpl in Hw1, Hw2.
    rewrite bool_decide_true in Hw1 by done. rewrite bool_decide_false in Hw2 by congruence.
    simpl in Hw1.
    destruct (assoc_get same_fn (mkMatch k2 []) m2) as [c2|] eqn:E2; [|done].
    simpl in Hw2.
    pose proof (walk_trie_order _ _ _ _ Hw1 Hr1) as H1.
    pose proof (walk_trie_order _ _ _ _ Hw2 Hr2) as H2.
    apply assoc_get_elem in E2 as (fn2 & Hin2 & _).
    apply list_elem_of_split in Hin2 as (m2a & m2b & ->).
    apply list_elem_of_split in H1 as (x1 & x2 & Hx).
    apply list_elem_of_split in H2 as (y1 & y2 & Hy).
    rewrite trie_order_eq, Hdyn. rewrite !flat_map_app. simpl.
    rewrite !flat_map_app. simpl. rewrite Hx, Hy.
    apply yielded_before_split.
    exists (option_list (route node) ++
            flat_map (λ p : string * Node, trie_order p.2) (static node) ++
            flat_map (λ p : Match * Node, trie_order p.2) m1 ++ x1),
      (x2 ++ flat_map (λ p : Match * Node, trie_order p.2) m2a ++ y1),
      (y2 ++ flat_map (λ p : Match * Node, trie_order p.2) m2b).
    by repeat (rewrite <-app_assoc || rewrite <-app_comm_cons).
  - destruct (child_at node st) as [c|] eqn:Ec; [|done]. simpl in Hw1, Hw2.
    rewrite dyn_keys_cons, Ec in Hkeys. simpl in Hkeys.
    destruct (child_trie_order _ _ _ Ec) as (l1 & l2 & ->).
    apply yielded_before_app.
    exact (IH c k1 k2 s1 s2 n1 n2 r1 r2 a b Hw1 Hr1 Hw2 Hr2 Hkeys Ha1 Ha2 Hne).
Qed.

Lemma next_dyn_app pre k rest : next_dyn (pre ++ SDynamic k :: rest) pre = Some k.
Proof. induction pre as [|p pre IH]; [done|]. simpl. by rewrite decide_True. Qed.

Lemma next_dyn_Some steps :
  ∀ pre k, next_dyn steps pre = Some k → ∃ rest, steps = pre ++ SDynamic k :: rest.
Proof.
  induction steps as [|s steps IH]; intros [|p pre] k H; simpl in H; try done.
  - destruct s as [v|k']; [done|]. injection H as ->. by eexists.
  - case_decide as Hs; [|done]. subst p. destruct (IH _ _ H) as [rest ->].
    by exists rest.
Qed.

Lemma steps_of_snoc pre x : steps_of (pre ++ [x]) = steps_of pre ++ [step_of x].
Proof. unfold steps_of. by rewrite fmap_app. Qed.

(** Dynamic children are tried in the order of their first use. *)
Lemma dynamic_first_use_order {NT : NameTable} (inputs : list string) (router : Router)
    (routes l1 l2 : list (string * list Path)) (e : string * list Path)
    (pathname r1 r2 : string) (pre1 pre2 post1 post2 : list Path) (x y : Path) :
  createRouter inputs = inr router → buildRoutes inputs = inr routes →
  r1 ∈ routes_of (router pathname) → r2 ∈ routes_of (router pathname) →
  segments r1 = inr (pre1 ++ x :: post1) → segments r2 = inr (pre2 ++ y :: post2) →
  shape <$> pre1 = shape <$> pre2 → is_dynamic x = true → is_dynamic y = true →
  routes = l1 ++ e :: l2 → begins (pre1 ++ [x]) e →
  Forall (λ e', ¬ begins (pre2 ++ [y]) e') (l1 ++ [e]) →
  yielded_before r1 r2 (routes_of (router pathname)).
Proof.
  intros H Hb' H1 H2 Hs1 Hs2 Hpre Hx Hy Hroutes [rest He] Hothers.
  destruct (createRouter_parts _ _ H)
    as (routes' & root & cache & Hb & Ha & -> & Hinv & Hperm & Hnd).
  assert (routes' = routes) as -> by congruence.
  pose proof (build_sublist (Str.split "/" pathname) root []) as Hsub.
  assert (NoDup (trie_order root)) as Hnd' by by rewrite Hperm.
  apply (yielded_before_restrict _ _ _ _ Hnd' Hsub H1 H2).
  assert (r1 ∈ inputs) as Hin1.
  { rewrite <-Hperm. by eapply elem_of_sublist. }
  assert (r2 ∈ inputs) as Hin2.
  { rewrite <-Hperm. by eapply elem_of_sublist. }
  destruct (addRoutes_route_at _ _ _ _ _ cache_ids_empty Ha) as [_ Hat].
  pose proof (Hat _ _ (buildRoutes_elem_of _ _ _ _ Hb Hin1 Hs1)) as Hat1.
  pose proof (Hat _ _ (buildRoutes_elem_of _ _ _ _ Hb Hin2 Hs2)) as Hat2.
  unfold route_at, steps_of in Hat1, Hat2.
  rewrite fmap_app, fmap_cons, is_dynamic_step, Hx in Hat1.
  rewrite fmap_app, fmap_cons, is_dynamic_step, Hy in Hat2.
  fold (steps_of pre1) (steps_of post1) in Hat1.
  fold (steps_of pre2) (steps_of post2) in Hat2.
  rewrite steps_of_snoc, is_dynamic_step, Hx, <-app_assoc in He. simpl in He.
  assert (Forall (λ e', next_dyn (entry_steps e') (steps_of pre1) ≠
                        Some (pathToKey y []).1) (l1 ++ [e])) as Hnext.
  { eapply Forall_impl; [done|]. intros e' Hno Hn. apply Hno.
    apply next_dyn_Some in Hn as [rest' Hn]. exists rest'.
    rewrite steps_of_snoc, is_dynamic_step, Hy, <-app_assoc. simpl.
    by rewrite <-(steps_of_shape _ _ Hpre). }
  rewrite <-(steps_of_shape _ _ Hpre) in Hat2.
  destruct (first_use_keys (λ x, next_dyn (entry_steps x) (steps_of pre1)) l1 e l2
              (pathToKey x []).1 (pathToKey y []).1) as (a & b & Hkeys & Ha1 & Ha2 & Hne);
    [by rewrite He, next_dyn_app|done|].
  pose proof (addRoutes_dyn_keys _ _ _ _ _ cache_ids_empty Ha (steps_of pre1)) as Hdyn.
  rewrite dyn_keys_empty, Hroutes, Hkeys in Hdyn.
  destruct (walk root (steps_of pre1 ++ SDynamic (pathToKey x []).1 :: steps_of post1))
    as [n1|] eqn:Ew1; [|done].
  destruct (walk root (steps_of pre1 ++ SDynamic (pathToKey y []).1 :: steps_of post2))
    as [n2|] eqn:Ew2; [|done].
  simpl in Hat1, Hat2.
  exact (trie_order_dynamic _ _ _ _ _ _ _ _ _ _ _ _ Ew1 Hat1 Ew2 Hat2 Hdyn Ha1 Ha2 Hne).
Qed.

(** X15. Of two routes that are both yielded for a pathname, agree up to
    parameter names on the segments before some position and have there
    segments with parameters that differ in more than the names, the
    one yielded first is the one whose beginning, up to that segment, is
    met first in the sorted list of [buildRoutes]: the dynamic children
    of a trie node are tried in the order in which the sorted routes
    first use them. *)
Theorem dynamic_order {NT : NameTable} (inputs : list string) (router : Router)
    (routes l1 l2 : list (string * list Path)) (e : string * list Path)
    (pathname r1 r2 : string) (pre1 pre2 post1 post2 : list Path) (x y : Path) :
  createRouter inputs = inr router → buildRoutes inputs = inr routes →
  r1 ∈ routes_of (router pathname) → r2 ∈ routes_of (router pathname) →
  segments r1 = inr (pre1 ++ x :: post1) → segments r2 = inr (pre2 ++ y :: post2) →
  shape <$> pre1 = shape <$> pre2 → is_dynamic x = true → is_dynamic y = true →
  routes = l1 ++ e :: l2 → begins (pre1 ++ [x]) e →
  Forall (λ e', ¬ begins (pre2 ++ [y]) e') (l1 ++ [e]) →
  yielded_before r1 r2 (routes_of (router pathname)).
Proof. apply dynamic_first_use_order. Qed.

(** ** The cache of Matchers *)

Lemma trie_cached_empty cache : trie_cached cache emptyNode.
Proof. intros trans n fn c [-> ->]%reach_emptyNode Hin. by apply elem_of_nil in Hin. Qed.

Lemma trie_cached_weaken cache cache' node :
  cache ⊆ cache' → trie_cached cache node → trie_cached cache' node.
Proof. intros Hsub H trans n fn c Hreach Hin. eapply lookup_weaken; [|done]. by eapply H. Qed.

Lemma trie_cached_static cache node v c :
  trie_cached cache node → (v, c) ∈ static node → trie_cached cache c.
Proof.
  intros H Hin trans n fn c' Hreach Hin'. apply (H (TStatic v :: trans) n fn c'); [|done].
  by econstructor.
Qed.

Lemma trie_cached_dynamic cache node fn c :
  trie_cached cache node → (fn, c) ∈ dynamic node → trie_cached cache c.
Proof.
  intros H Hin trans n fn' c' Hreach Hin'. apply (H (TDynamic fn :: trans) n fn' c'); [|done].
  by econstructor.
Qed.

Lemma trie_cached_node cache r k st dy :
  (∀ fn c, (fn, c) ∈ dy → cache !! fn_id fn = Some fn) →
  (∀ v c, (v, c) ∈ st → trie_cached cache c) →
  (∀ fn c, (fn, c) ∈ dy → trie_cached cache c) →
  trie_cached cache (mkNode r k st dy).
Proof.
  intros Hdy Hst Hch trans n fn c Hreach Hin.
  inversion Hreach as [|? v c' trans' ? Hin' Hreach'|? fn' c' trans' ? Hin' Hreach']; subst.
  - by eapply Hdy.
  - by eapply (Hst v c' Hin' trans' n).
  - by eapply (Hch fn' c' Hin' trans' n).
Qed.

Lemma cache_insert_subseteq (cache : Cache) key fn0 :
  cache ⊆ <[key := default fn0 (cache !! key)]> cache.
Proof.
  destruct (cache !! key) as [fn|] eqn:E; simpl.
  - by rewrite insert_id.
  - by apply insert_subseteq.
Qed.

(** [addToTrie] only adds to the cache, and every Matcher it puts on an
    edge is the one of the cache. *)
Lemma addToTrie_from_cached paths :
  ∀ node rt params cache node' cache',
  addToTrie_from node paths rt params cache = inr (node', cache') →
  cache_ids cache → trie_cached cache node →
  cache ⊆ cache' ∧ trie_cached cache' node'.
Proof.
  induction paths as [|path paths IH];
    intros node rt params cache node' cache' Hadd Hc Hinv.
  - simpl in Hadd. destruct (route node); [done|]. injection Hadd as <- <-.
    split; [done|]. apply trie_cached_node.
    + intros fn c Hin. by apply (Hinv [] node fn c (reach_here _)).
    + intros v c Hin. by eapply trie_cached_static.
    + intros fn c Hin. by eapply trie_cached_dynamic.
  - rewrite addToTrie_from_cons in Hadd.
    destruct (step_of path) as [v|key] eqn:Est; cbv zeta in Hadd.
    + destruct (addToTrie_from _ paths rt params cache) as [e|[child' cache1]] eqn:E;
        [done|].
      simpl in Hadd. injection Hadd as <- <-.
      apply IH in E as [Hsub Hchild]; [|done|].
      * split; [done|]. apply trie_cached_node.
        -- intros fn c Hin. eapply lookup_weaken; [|done].
           by apply (Hinv [] node fn c (reach_here _)).
        -- intros v' c Hin.
           apply (elem_of_assoc_set same_string same_string_refl) in Hin
             as [Hin|(Hc2 & _)].
           ++ eapply trie_cached_weaken; [done|]. by eapply trie_cached_static.
           ++ simpl in Hc2. by subst.
        -- intros fn c Hin. eapply trie_cached_weaken; [done|].
           by eapply trie_cached_dynamic.
      * destruct (assoc_get same_string v (static node)) as [c|] eqn:Eg; simpl.
        -- apply assoc_get_elem in Eg as (v' & Hin & _). by eapply trie_cached_static.
        -- apply trie_cached_empty.
    + destruct (cache_ids_insert cache key path Hc) as [Hid Hc1].
      pose proof (cache_insert_subseteq cache key (mkMatch key path)) as Hsub0.
      remember (default (mkMatch key path) (cache !! key)) as fn eqn:Hfn.
      destruct (addToTrie_from _ paths rt _ _) as [e|[child' cache1]] eqn:E; [done|].
      simpl in Hadd. injection Hadd as <- <-.
      apply IH in E as [Hsub Hchild]; [|done|].
      * split; [by etrans|].
        assert (cache1 !! fn_id fn = Some fn) as Hfn1.
        { eapply lookup_weaken; [|done]. by rewrite Hid, lookup_insert_eq. }
        assert (∀ fn' c, (fn', c) ∈ dynamic node → cache1 !! fn_id fn' = Some fn') as Hold.
        { intros fn' c Hin. eapply lookup_weaken; [|by etrans].
          by apply (Hinv [] node fn' c (reach_here _)). }
        apply trie_cached_node.
        -- intros fn' c Hin.
           apply (elem_of_assoc_set same_fn same_fn_refl) in Hin
             as [Hin|(_ & _ & [Heq|[c0 Hin]])]; [by eapply Hold| |by eapply Hold].
           simpl in Heq. by subst fn'.
        -- intros v c Hin. eapply trie_cached_weaken; [by etrans|].
           by eapply trie_cached_static.
        -- intros fn' c Hin.
           apply (elem_of_assoc_set same_fn same_fn_refl) in Hin as [Hin|(Hc2 & _)].
           ++ eapply trie_cached_weaken; [by etrans|]. by eapply trie_cached_dynamic.
           ++ simpl in Hc2. by subst.
      * eapply trie_cached_weaken; [done|].
        destruct (assoc_get same_fn fn (dynamic node)) as [c|] eqn:Eg; simpl.
        -- apply assoc_get_elem in Eg as (fn' & Hin & _). by eapply trie_cached_dynamic.
        -- apply trie_cached_empty.
Qed.

Lemma addRoutes_cached routes :
  ∀ root cache root' cache',
  addRoutes addToTrie root cache routes = inr (root', cache') →
  cache_ids cache → trie_cached cache root → trie_cached cache' root'.
Proof.
  induction routes as [|[rt paths] routes IH]; intros root cache root' cache' Hadd Hc Hinv.
  - simpl in Hadd. by injection Hadd as <- <-.
  - simpl in Hadd.
    pose proof (addToTrie_from_route_at paths root rt [] cache Hc) as H.
    change (addToTrie root paths rt cache) with (addToTrie_from root paths rt [] cache)
      in Hadd.
    destruct (route_at root (steps_of paths)) as [r0|] eqn:Er.
    { by rewrite H in Hadd. }
    destruct H as (root1 & cache1 & H & Hc1 & _). rewrite H in Hadd. simpl in Hadd.
    destruct (addToTrie_from_cached _ _ _ _ _ _ _ H Hc Hinv) as [_ Hinv1].
    by eapply IH.
Qed.

(** X16. The cache of [createRouter] works: in the trie it builds, two
    edges with the same cache key hold the same Matcher, wherever they
    are, and that Matcher was made for a well-formed path with
    parameters and with that key.  So a Matcher is told from the others
    by its key. *)
Theorem matchers_shared {NT : NameTable} (inputs : list string) (root : Node) :
  buildTrie inputs = inr root →
  ∀ trans1 trans2 n1 n2 fn1 fn2 c1 c2,
    reach root trans1 n1 → (fn1, c1) ∈ dynamic n1 →
    reach root trans2 n2 → (fn2, c2) ∈ dynamic n2 →
    (fn_id fn1 = fn_id fn2 → fn1 = fn2) ∧
    fn_id fn1 = (pathToKey (fn_path fn1) []).1 ∧
    canonical (fn_path fn1) = true ∧ is_dynamic (fn_path fn1) = true.
Proof.
  intros H trans1 trans2 n1 n2 fn1 fn2 c1 c2 Hr1 Hin1 Hr2 Hin2.
  destruct (buildTrie_inv _ _ H) as (routes & Hb & Hinv).
  unfold buildTrie in H. rewrite Hb in H. simpl in H.
  destruct (addRoutes addToTrie emptyNode ∅ routes) as [e|[root' cache]] eqn:Ha; [done|].
  simpl in H. injection H as ->.
  pose proof (addRoutes_cached _ _ _ _ _ Ha cache_ids_empty (trie_cached_empty ∅)) as Hc.
  split.
  - intros Hid. pose proof (Hc _ _ _ _ Hr1 Hin1) as H1.
    pose proof (Hc _ _ _ _ Hr2 Hin2) as H2. congruence.
  - destruct (Hinv _ _ Hr1) as [Hcl _]. by apply (Hcl fn1 c1).
Qed.

(** ** The contract of [addToTrie] *)

(** X14. [addToTrie], on a trie whose Matchers are those of the cache it
    is given (each stored under its own key): it throws the
    duplicate-route error, naming the route it was given, exactly when a
    route is registered at the end of the transitions of the Segment
    Paths.  Otherwise it registers the route there and nowhere else:
    every other lookup finds what it found before, a walk of the trie
    finds the new route and the routes it found before, the cache has
    only grown, and the Matchers of the new trie are those of the new
    cache. *)
Theorem addToTrie_contract (root : Node) (paths : list Path) (rt : string)
    (cache : Cache) :
  cache_ids cache → trie_cached cache root →
  match route_at root (steps_of paths) with
  | Some _ => addToTrie root paths rt cache = inl (DuplicateRoute rt)
  | None =>
      ∃ root' cache',
        addToTrie root paths rt cache = inr (root', cache') ∧
        (∀ steps, route_at root' steps =
                  if decide (steps = steps_of paths) then Some rt
                  else route_at root steps) ∧
        trie_order root' ≡ₚ rt :: trie_order root ∧
        cache ⊆ cache' ∧ cache_ids cache' ∧ trie_cached cache' root'
  end.
Proof.
  intros Hc Hcached.
  pose proof (addToTrie_from_route_at paths root rt [] cache Hc) as H.
  unfold addToTrie. destruct (route_at root (steps_of paths)); [done|].
  destruct H as (root' & cache' & H & Hc' & Hr). exists root', cache'.
  destruct (addToTrie_from_cached _ _ _ _ _ _ _ H Hc Hcached) as [Hsub Hcached'].
  split_and!; [done..| |done|done|done]. by eapply addToTrie_from_trie_order.
Qed.

(** ** The order of the Results and the order of [buildRoutes] *)

Lemma step_of_inj {NT : NameTable} p q :
  canonical p = true → canonical q = true → step_of p = step_of q → shape p = shape q.
Proof.
  intros Hp Hq. rewrite !is_dynamic_step.
  destruct (is_dynamic p) eqn:Ep, (is_dynamic q) eqn:Eq; try done.
  - intros [= H]. rewrite !pathToKey_key_of in H. by apply key_of_inj.
  - intros [= H].
    destruct p as [|[s|n] [|t p]], q as [|[s'|n'] [|t' q]]; try done;
      simpl in H; rewrite ?sapp_nil_r in H; subst; done.
Qed.

Lemma steps_of_inj {NT : NameTable} a b :
  Forall (λ p, canonical p = true) a → Forall (λ p, canonical p = true) b →
  steps_of a = steps_of b → shape <$> a = shape <$> b.
Proof.
  intros Ha. revert b. induction Ha as [|p a Hp _ IH]; intros [|q b] Hb; try done.
  apply Forall_cons in Hb as [Hq Hb]. unfold steps_of. rewrite !fmap_cons.
  intros [= H1 H2]. f_equal; [by apply step_of_inj|by apply IH].
Qed.

(** Two routes with as many segments and different transitions part at
    a first segment. *)
Lemma steps_part (p1 p2 : list Path) :
  length p1 = length p2 → steps_of p1 ≠ steps_of p2 →
  ∃ pre1 x post1 pre2 y post2,
    p1 = pre1 ++ x :: post1 ∧ p2 = pre2 ++ y :: post2 ∧
    steps_of pre1 = steps_of pre2 ∧ step_of x ≠ step_of y ∧
    length post1 = length post2.
Proof.
  revert p2. induction p1 as [|a p1 IH]; intros [|b p2] Hlen Hne; try done.
  simpl in Hlen. destruct (decide (step_of a = step_of b)) as [E|E].
  - destruct (IH p2) as (pre1 & x & post1 & pre2 & y & post2 & -> & -> & Hs & Hxy & Hl).
    + lia.
    + intros H. apply Hne. unfold steps_of in *. rewrite !fmap_cons. by rewrite E, H.
    + exists (a :: pre1), x, post1, (b :: pre2), y, post2. split_and!; try done.
      unfold steps_of in *. rewrite !fmap_cons. by rewrite E, Hs.
  - exists [], a, p1, [], b, p2. split_and!; try done. lia.
Qed.

(** A route that is yielded is registered, and its Segment Paths accept
    the segments one by one. *)
Lemma yielded_matches {NT : NameTable} inputs routes root cache segs R :
  buildRoutes inputs = inr routes →
  addRoutes addToTrie emptyNode ∅ routes = inr (root, cache) →
  R ∈ routes_of (build root segs []) →
  ∃ paths vss,
    (R, paths) ∈ routes ∧ segments R = inr paths ∧
    Forall3 (λ path seg vs, segment_values path seg = Some vs) paths segs vss.
Proof.
  intros Hb Ha HR. unfold routes_of in HR.
  apply list_elem_of_fmap in HR as (res & -> & Hres).
  apply (build_results _ _ _ _ _ _ Hb Ha) in Hres
    as (rt & paths & vss & Hin & Hseg & Hall & ->).
  exists paths, vss. split_and!; try done. by eapply buildRoutes_elem_of.
Qed.

(** At the segment where two yielded routes part, a static segment in
    the one leaves a segment with a parameter in the other. *)
Lemma part_static_dynamic pre1 x post1 pre2 y post2 segs vss1 vss2 :
  Forall3 (λ path seg vs, segment_values path seg = Some vs) (pre1 ++ x :: post1) segs vss1 →
  Forall3 (λ path seg vs, segment_values path seg = Some vs) (pre2 ++ y :: post2) segs vss2 →
  length pre1 = length pre2 → step_of x ≠ step_of y →
  is_dynamic x = false → is_dynamic y = true.
Proof.
  intros H1 H2 Hlen Hne Hx.
  apply Forall3_app_inv_l in H1 as (k1 & k2 & v1 & v2 & -> & -> & Hk1 & Hx1).
  apply Forall3_app_inv_l in H2 as (k1' & k2' & v1' & v2' & Hsegs & -> & Hk1' & Hy1).
  apply Forall3_length_lm in Hk1, Hk1'.
  apply app_inj_1 in Hsegs as [<- <-]; [|lia].
  inversion Hx1 as [|? seg ? ? ? ? Hvx _]; subst.
  inversion Hy1 as [|? ? ? ? ? ? Hvy _]; subst.
  destruct (is_dynamic y) eqn:Hy; [done|]. exfalso. apply Hne.
  unfold segment_values in Hvx, Hvy. rewrite is_dynamic_step in Hvx, Hvy |- *.
  rewrite is_dynamic_step. rewrite Hx in *. rewrite Hy in *.
  repeat case_decide; try done. congruence.
Qed.

Lemma buildRoutes_StronglySorted {NT : NameTable} inputs routes :
  buildRoutes inputs = inr routes →
  StronglySorted (λ a b : string * list Path, (compare a.2 b.2 ≤ 0)%Z) routes.
Proof.
  intros [_ ->]%buildRoutes_inr.
  apply (sort_sorted compare_entries compare_entries_antisym compare_entries_trans).
Qed.

(** The comparison of two routes with the same number of segments, at
    the first segment where they differ in more than parameter names. *)
Lemma compare_at_segment sa sb xa xb ra rb :
  length ra = length rb → shape <$> sa = shape <$> sb → shape xa ≠ shape xb →
  compare (sa ++ xa :: ra) (sb ++ xb :: rb) = tokens_cmp xa xb.
Proof.
  intros Hlen Hs Hne. rewrite compare_structural.
  assert (length sa = length sb) as Hlen'.
  { apply (f_equal length) in Hs. by rewrite !length_fmap in Hs. }
  rewrite decide_False by (rewrite !length_app; simpl; lia).
  rewrite segments_cmp_app by done. simpl.
  rewrite decide_False; [done|]. by rewrite tokens_cmp_shape.
Qed.

Lemma first_such {A} (P : A → Prop) `{∀ x, Decision (P x)} (l : list A) x :
  x ∈ l → P x → ∃ l1 e l2, l = l1 ++ e :: l2 ∧ P e ∧ Forall (λ y, ¬ P y) l1.
Proof.
  induction l as [|a l IH]; [by intros ?%elem_of_nil|].
  intros Hx HP. destruct (decide (P a)) as [Ha|Ha].
  - exists [], a, l. split_and!; [done..|constructor].
  - apply elem_of_cons in Hx as [->|Hx]; [done|].
    destruct (IH Hx HP) as (l1 & e & l2 & -> & He & Hall).
    exists (a :: l1), e, l2. split_and!; [done..|]. by constructor.
Qed.

Lemma begins_self pre x post rt : begins (pre ++ [x]) (rt, pre ++ x :: post).
Proof.
  unfold begins, entry_steps, steps_of. simpl. exists (step_of <$> post).
  by rewrite !fmap_app, <-app_assoc.
Qed.

Lemma begins_parts {NT : NameTable} pre y e :
  begins (pre ++ [y]) e → Forall (λ p, canonical p = true) e.2 →
  Forall (λ p, canonical p = true) pre → canonical y = true →
  ∃ qpre y' qpost, e.2 = qpre ++ y' :: qpost ∧
                   shape <$> qpre = shape <$> pre ∧ shape y' = shape y.
Proof.
  intros [rest Hrest] Hcan Hpre Hy. unfold entry_steps, steps_of in Hrest.
  rewrite fmap_app, <-app_assoc in Hrest. simpl in Hrest.
  apply fmap_app_inv in Hrest as (qpre & q' & Hq1 & Hq2 & He).
  symmetry in Hq2. apply fmap_cons_inv in Hq2 as (y' & qpost & Hy' & _ & ->).
  rewrite He in Hcan. apply Forall_app in Hcan as [Hcan1 Hcan2].
  apply Forall_cons in Hcan2 as [Hcan2 _].
  exists qpre, y', qpost. split_and!; [done| |by apply step_of_inj].
  by apply steps_of_inj.
Qed.

(** In the sorted list, unless a route with fewer segments comes in
    between, the beginning of the route that sorts first is met first. *)
Lemma sorted_first_use {NT : NameTable} inputs routes R1 R2 pre1 x post1 pre2 y post2 :
  buildRoutes inputs = inr routes →
  yielded_before R1 R2 routes.*1 →
  segments R1 = inr (pre1 ++ x :: post1) → segments R2 = inr (pre2 ++ y :: post2) →
  shape <$> pre1 = shape <$> pre2 → shape x ≠ shape y → length post1 = length post2 →
  (∀ l1 e l2, routes = l1 ++ e :: l2 → length e.2 < length (pre2 ++ y :: post2) →
              begins (pre2 ++ [y]) e → ∃ e', e' ∈ l1 ∧ begins (pre1 ++ [x]) e') →
  ∃ l1 e l2, routes = l1 ++ e :: l2 ∧ begins (pre1 ++ [x]) e ∧
             Forall (λ e', ¬ begins (pre2 ++ [y]) e') (l1 ++ [e]).
Proof.
  intros Hb Hbefore Hs1 Hs2 Hpre Hxy Hpost Hshort.
  pose proof (buildRoutes_StronglySorted _ _ Hb) as Hsorted.
  pose proof (buildRoutes_canonical _ _ Hb) as Hcan.
  pose proof (segments_canonical _ _ Hs1) as Hcan1.
  pose proof (segments_canonical _ _ Hs2) as Hcan2.
  apply Forall_app in Hcan1 as [Hcpre1 Hcx]. apply Forall_cons in Hcx as [Hcx _].
  apply Forall_app in Hcan2 as [Hcpre2 Hcy]. apply Forall_cons in Hcy as [Hcy _].
  assert (length pre1 = length pre2) as Hlpre.
  { apply (f_equal length) in Hpre. by rewrite !length_fmap in Hpre. }
  (* the two entries, and how they compare *)
  apply yielded_before_split in Hbefore as (a & b & c & Hfst).
  apply fmap_app_inv in Hfst as (ra & r' & Ha & Hr' & Hroutes). symmetry in Hr'.
  apply fmap_cons_inv in Hr' as ([r1 p1] & r'' & Hr1 & Hr'' & ->). simpl in Hr1. subst r1.
  symmetry in Hr''. apply fmap_app_inv in Hr'' as (rb & r3 & Hb' & Hr3 & ->).
  symmetry in Hr3. apply fmap_cons_inv in Hr3 as ([r2 p2] & rc & Hr2 & _ & ->).
  simpl in Hr2. subst r2.
  assert ((R1, p1) ∈ routes) as Hin1.
  { rewrite Hroutes. apply elem_of_app. right. by left. }
  assert ((R2, p2) ∈ routes) as Hin2.
  { rewrite Hroutes. apply elem_of_app. right. right. apply elem_of_app. right. by left. }
  destruct (buildRoutes_elem _ _ _ _ Hb Hin1) as [_ Hp1].
  destruct (buildRoutes_elem _ _ _ _ Hb Hin2) as [_ Hp2].
  assert (p1 = pre1 ++ x :: post1) as -> by congruence.
  assert (p2 = pre2 ++ y :: post2) as -> by congruence.
  assert (tokens_cmp x y < 0)%Z as Hlt.
  { assert (compare (pre1 ++ x :: post1) (pre2 ++ y :: post2) ≤ 0)%Z as Hle.
    { rewrite Hroutes in Hsorted.
      replace (ra ++ (R1, pre1 ++ x :: post1) :: rb ++ (R2, pre2 ++ y :: post2) :: rc)
        with ((ra ++ [(R1, pre1 ++ x :: post1)]) ++ rb ++ (R2, pre2 ++ y :: post2) :: rc)
        in Hsorted by by rewrite <-app_assoc.
      apply (StronglySorted_app_1_elem_of _ _ _ (R1, pre1 ++ x :: post1)
               (R2, pre2 ++ y :: post2)) in Hsorted; [done|..].
      - apply elem_of_app. right. by left.
      - apply elem_of_app. right. by left. }
    rewrite compare_at_segment in Hle by done.
    assert (tokens_cmp x y ≠ 0)%Z by by rewrite tokens_cmp_shape. lia. }
  (* the first route that begins like R1 *)
  destruct (first_such (begins (pre1 ++ [x])) routes (R1, pre1 ++ x :: post1) Hin1
              (begins_self _ _ _ _)) as (l0 & e0 & l2 & Hsplit & He0 & Hl0).
  exists l0, e0, l2. split_and!; [done..|].
  assert (∀ e', e' ∈ l0 → (compare e'.2 (pre1 ++ x :: post1) ≤ 0)%Z) as Hbefore1.
  { intros e' He'. rewrite Hsplit in Hsorted, Hin1.
    apply elem_of_app in Hin1 as [Hin1|Hin1].
    - destruct (proj1 (Forall_forall _ _) Hl0 _ Hin1). apply begins_self.
    - by apply (StronglySorted_app_1_elem_of _ _ _ e' (R1, pre1 ++ x :: post1)) in Hsorted. }
  apply Forall_app. split.
  - apply Forall_forall. intros e' He' Hbeg.
    destruct (decide (length e'.2 < length (pre2 ++ y :: post2))) as [Hsh|Hsh].
    + apply list_elem_of_split in He' as (a' & b' & ->).
      destruct (Hshort a' e' (b' ++ e0 :: l2)) as (e'' & He'' & Hbeg''); [|done..|].
      { by rewrite Hsplit, <-app_assoc. }
      apply (proj1 (Forall_forall _ _) Hl0 e''); [|done].
      apply elem_of_app. by left.
    + pose proof (Hbefore1 _ He') as Hle.
      assert (e' ∈ routes) as Hin' by (rewrite Hsplit; apply elem_of_app; by left).
      pose proof (proj1 (Forall_forall _ _) Hcan _ Hin') as Hcan'.
      destruct (begins_parts _ _ _ Hbeg Hcan' Hcpre2 Hcy)
        as (qpre & y' & qpost & Hq & Hqpre & Hy').
      rewrite Hq in Hle, Hsh.
      assert (length (qpre ++ y' :: qpost) ≤ length (pre1 ++ x :: post1)) as Hlen.
      { rewrite compare_structural in Hle. case_decide; lia. }
      assert (length qpre = length pre2) as Hlq.
      { apply (f_equal length) in Hqpre. by rewrite !length_fmap in Hqpre. }
      rewrite !length_app in Hlen, Hsh. simpl in Hlen, Hsh.
      rewrite compare_at_segment in Hle; [| lia | by rewrite Hqpre | ].
      * rewrite (tokens_cmp_shape_l y' y) in Hle by done.
        rewrite tokens_cmp_antisym in Hle. lia.
      * rewrite Hy'. by intros ?.
  - constructor; [|constructor]. intros [rest2 Hbeg2]. destruct He0 as [rest1 Hbeg1].
    rewrite Hbeg1 in Hbeg2. rewrite !steps_of_snoc, <-!app_assoc in Hbeg2.
    apply app_inj_1 in Hbeg2 as [_ Hbeg2].
    + simpl in Hbeg2. injection Hbeg2 as Hstep _.
      apply Hxy. by apply step_of_inj.
    + unfold steps_of. rewrite !length_fmap. lia.
Qed.

(** C1, amended.  For every list of patterns on which [createRouter]
    succeeds and every pathname, no route is yielded twice, and two
    routes R1 and R2 that are both yielded, R1 standing before R2 in the
    list of [buildRoutes], part at a first segment: before it they agree
    up to parameter names, at it they differ in more than parameter
    names.  When that segment is static in one of the two routes, it has
    a parameter in the other and the route in which it is static is
    yielded first, whichever sorts first: the enumerator tries the static
    child before the dynamic children.  When it has a parameter in both,
    R1 is yielded strictly before R2, provided that every registered
    route with fewer segments that begins like R2, up to and including
    the segment, stands in the list after a route that begins like R1. *)
Theorem enumeration_priority {NT : NameTable} (inputs : list string) (router : Router)
    (routes : list (string * list Path)) (pathname R1 R2 : string) :
  createRouter inputs = inr router → buildRoutes inputs = inr routes →
  R1 ∈ routes_of (router pathname) → R2 ∈ routes_of (router pathname) →
  yielded_before R1 R2 routes.*1 →
  NoDup (routes_of (router pathname)) ∧
  ∃ pre1 x post1 pre2 y post2,
    segments R1 = inr (pre1 ++ x :: post1) ∧ segments R2 = inr (pre2 ++ y :: post2) ∧
    shape <$> pre1 = shape <$> pre2 ∧ shape x ≠ shape y ∧
    length post1 = length post2 ∧
    (is_dynamic x = false →
     is_dynamic y = true ∧ yielded_before R1 R2 (routes_of (router pathname))) ∧
    (is_dynamic y = false →
     is_dynamic x = true ∧ yielded_before R2 R1 (routes_of (router pathname))) ∧
    (is_dynamic x = true → is_dynamic y = true →
     (∀ l1 e l2, routes = l1 ++ e :: l2 → length e.2 < length (pre2 ++ y :: post2) →
                 begins (pre2 ++ [y]) e → ∃ e', e' ∈ l1 ∧ begins (pre1 ++ [x]) e') →
     yielded_before R1 R2 (routes_of (router pathname))).
Proof.
  intros H Hb H1 H2 Hbefore.
  destruct (createRouter_parts _ _ H)
    as (routes' & root & cache & Hb' & Ha & Hr & Hinv & Hperm & Hnd).
  assert (routes' = routes) as -> by congruence.
  destruct (createRouter_inr _ _ H) as (routes' & root' & cache' & Hb'' & _ & _ & Hsteps).
  assert (routes' = routes) as -> by congruence. clear Hb' Hb''.
  pose proof (build_sublist (Str.split "/" pathname) root []) as Hsub.
  assert (NoDup (trie_order root)) as Hnd' by by rewrite Hperm.
  assert (NoDup routes.*1) as Hnd1.
  { pose proof (proj1 (buildRoutes_inr _ _) Hb) as [Hall ->].
    by rewrite sort_Permutation, omap_entry_of_fst. }
  split; [rewrite Hr; exact (sublist_NoDup _ _ Hnd' Hsub)|].
  pose proof H1 as H1'. pose proof H2 as H2'. rewrite Hr in H1', H2'.
  destruct (yielded_matches _ _ _ _ _ _ Hb Ha H1') as (p1 & vss1 & Hin1 & Hs1 & Hall1).
  destruct (yielded_matches _ _ _ _ _ _ Hb Ha H2') as (p2 & vss2 & Hin2 & Hs2 & Hall2).
  assert (R1 ≠ R2) as Hne.
  { intros ->. by destruct (yielded_before_asym R2 R2 _ Hnd1). }
  destruct (steps_part p1 p2) as (pre1 & x & post1 & pre2 & y & post2 &
                                  -> & -> & Hpre & Hxy & Hpost).
  { apply Forall3_length_lm in Hall1, Hall2. congruence. }
  { intros Heq. apply Hne.
    by injection (NoDup_fmap_elem entry_steps routes _ _ Hsteps Hin1 Hin2 Heq). }
  pose proof (segments_canonical _ _ Hs1) as Hcan1.
  pose proof (segments_canonical _ _ Hs2) as Hcan2.
  apply Forall_app in Hcan1 as [Hcpre1 Hcx]. apply Forall_cons in Hcx as [Hcx _].
  apply Forall_app in Hcan2 as [Hcpre2 Hcy]. apply Forall_cons in Hcy as [Hcy _].
  assert (shape <$> pre1 = shape <$> pre2) as Hshapes by by apply steps_of_inj.
  assert (shape x ≠ shape y) as Hshape.
  { intros Hs. apply Hxy. by rewrite <-(step_of_shape x), Hs, step_of_shape. }
  assert (length pre1 = length pre2) as Hlpre.
  { apply (f_equal length) in Hshapes. by rewrite !length_fmap in Hshapes. }
  exists pre1, x, post1, pre2, y, post2. split_and!; try done.
  - intros Hx.
    pose proof (part_static_dynamic _ _ _ _ _ _ _ _ _ Hall1 Hall2 Hlpre Hxy Hx) as Hy.
    split; [done|]. by eapply static_first_order.
  - intros Hy.
    assert (is_dynamic x = true) as Hx.
    { apply (part_static_dynamic _ _ _ _ _ _ _ _ _ Hall2 Hall1); [lia|by intros ?|done]. }
    split; [done|]. by eapply (static_first_order inputs router pathname R2 R1).
  - intros Hx Hy Hshort.
    destruct (sorted_first_use inputs routes R1 R2 pre1 x post1 pre2 y post2)
      as (l1 & e & l2 & Hsplit & Hbeg & Hothers); try done.
    by eapply (dynamic_first_use_order inputs router routes l1 l2 e pathname R1 R2).
Qed.

(** * Examples, on a sample of the character table *)

#[local] Existing Instance sample_table.

(** ** The theorems at concrete inputs *)

Lemma parse_roundtrip_witness :
  parse "foo[test]bar" = inr [Lit "foo"; Param "test"; Lit "bar"] ∧
  serialize [Lit "foo"; Param "test"; Lit "bar"] = "foo[test]bar".
Proof. split; [reflexivity|]. apply (parse_roundtrip (NT:=sample_table) "foo[test]bar"). reflexivity. Defined.

Lemma createMatch_parameter_extent_witness :
  delimited [Param "key"; Lit "@"; Param "value"] = true ∧
  accepts [Param "key"; Lit "@"; Param "value"] "foo@bar@baz" ["foo"; "bar@baz"].
Proof.
  split; [reflexivity|].
  apply (proj1 (createMatch_parameter_extent
                  [Param "key"; Lit "@"; Param "value"] "foo@bar@baz" eq_refl)).
  reflexivity.
Defined.

Lemma createRouter_duplicate_witness :
  ∃ rt pre paths post,
    createRouter ["x"; "a/[id]"; "a/[name]"] = inl (DuplicateRoute rt) ∧
    message (DuplicateRoute rt) = "Route is already defined for " +:+ rt ∧
    rt ∈ ["x"; "a/[id]"; "a/[name]"] ∧
    buildRoutes ["x"; "a/[id]"; "a/[name]"] = inr (pre ++ (rt, paths) :: post) ∧
    steps_of paths ∈ (entry_steps <$> pre).
Proof.
  apply (createRouter_duplicate (NT:=sample_table) ["x"; "a/[id]"; "a/[name]"] 1 2 "a/[id]" "a/[name]"
           [[Lit "a"]; [Param "id"]] [[Lit "a"]; [Param "name"]]).
  - repeat constructor; by eexists.
  - lia.
  - reflexivity.
  - reflexivity.
  - reflexivity.
  - reflexivity.
  - reflexivity.
Defined.

Lemma buildRoutes_sorted_witness :
  buildRoutes ["[param]"; "b/[x]"; "a"; "a[p]"; "ab"] =
    inr [("a", [[Lit "a"]]); ("a[p]", [[Lit "a"; Param "p"]]); ("ab", [[Lit "ab"]]);
         ("[param]", [[Param "param"]]); ("b/[x]", [[Lit "b"]; [Param "x"]])] ∧
  StronglySorted (λ x y : string * list Path, before x.2 y.2 ∨ tied x.2 y.2)
    [("a", [[Lit "a"]]); ("a[p]", [[Lit "a"; Param "p"]]); ("ab", [[Lit "ab"]]);
     ("[param]", [[Param "param"]]); ("b/[x]", [[Lit "b"]; [Param "x"]])].
Proof.
  split; [reflexivity|].
  apply (buildRoutes_sorted (NT:=sample_table) ["[param]"; "b/[x]"; "a"; "a[p]"; "ab"]). reflexivity.
Defined.

Lemma createRouter_input_order_witness :
  ∃ router1,
    createRouter ["/foo"; "/[param]"; "/bar"] = inr router1 ∧
    buildRoutes ["/foo"; "/[param]"; "/bar"] = buildRoutes ["/bar"; "/foo"; "/[param]"] ∧
    ∃ router2, createRouter ["/bar"; "/foo"; "/[param]"] = inr router2 ∧
               ∀ pathname, router1 pathname = router2 pathname.
Proof.
  eexists. split; [reflexivity|].
  apply (createRouter_input_order (NT:=sample_table) ["/foo"; "/[param]"; "/bar"] ["/bar"; "/foo"; "/[param]"]).
  - symmetry. apply (Permutation_cons_append ["/foo"; "/[param]"] "/bar").
  - reflexivity.
Defined.

Lemma enumeration_order_witness :
  ∃ router,
    createRouter ["a[p]"; "ab"] = inr router ∧
    ∃ root,
      buildTrie ["a[p]"; "ab"] = inr root ∧
      trie_order root ≡ₚ ["a[p]"; "ab"] ∧
      NoDup (trie_order root) ∧
      routes_of (router "ab") `sublist_of` trie_order root ∧
      NoDup (routes_of (router "ab")) ∧
      ∀ R1 R2,
        R1 ∈ routes_of (router "ab") → R2 ∈ routes_of (router "ab") →
        yielded_before R1 R2 (trie_order root) →
        yielded_before R1 R2 (routes_of (router "ab")).
Proof.
  eexists. split; [reflexivity|].
  apply (enumeration_order (NT:=sample_table) ["a[p]"; "ab"] _ "ab"). reflexivity.
Defined.

Lemma enumeration_priority_witness :
  ∃ router routes,
    createRouter ["[b]"; "[a]x"; "1x"] = inr router ∧
    buildRoutes ["[b]"; "[a]x"; "1x"] = inr routes ∧
    NoDup (routes_of (router "1x")) ∧
    ∃ pre1 x post1 pre2 y post2,
      segments "[a]x" = inr (pre1 ++ x :: post1) ∧ segments "[b]" = inr (pre2 ++ y :: post2) ∧
      shape <$> pre1 = shape <$> pre2 ∧ shape x ≠ shape y ∧
      length post1 = length post2 ∧
      (is_dynamic x = false →
       is_dynamic y = true ∧ yielded_before "[a]x" "[b]" (routes_of (router "1x"))) ∧
      (is_dynamic y = false →
       is_dynamic x = true ∧ yielded_before "[b]" "[a]x" (routes_of (router "1x"))) ∧
      (is_dynamic x = true → is_dynamic y = true →
       (∀ l1 e l2, routes = l1 ++ e :: l2 → length e.2 < length (pre2 ++ y :: post2) →
                   begins (pre2 ++ [y]) e → ∃ e', e' ∈ l1 ∧ begins (pre1 ++ [x]) e') →
       yielded_before "[a]x" "[b]" (routes_of (router "1x"))).
Proof.
  eexists _, _. split; [reflexivity|]. split; [reflexivity|].
  apply (enumeration_priority (NT:=sample_table) ["[b]"; "[a]x"; "1x"] _ _ "1x" "[a]x" "[b]"
           eq_refl eq_refl).
  - vm_compute. apply list_elem_of_In. right. by left.
  - vm_compute. apply list_elem_of_In. right. right. by left.
  - exists 1, 2. split_and!; [lia|reflexivity..].
Defined.

(** The three routes of the input above, as sorted and as yielded. *)
Example sorted_and_yielded :
  ∃ router routes,
    createRouter ["[b]"; "[a]x"; "1x"] = inr router ∧
    buildRoutes ["[b]"; "[a]x"; "1x"] = inr routes ∧
    routes.*1 = ["1x"; "[a]x"; "[b]"] ∧
    routes_of (router "1x") = ["1x"; "[a]x"; "[b]"].
Proof. eexists _, _. split_and!; reflexivity. Qed.

(** A dynamic edge may be created by a route with fewer segments: here
    [[c]] creates the edge that [[b]/q] follows before [[a]x/q] creates
    its own, and on [1x/q] the Result of [[b]/q] comes first although
    [[a]x/q] sorts first. *)
Example shorter_route_first :
  ∃ router routes,
    createRouter ["[c]"; "[a]x/q"; "[b]/q"] = inr router ∧
    buildRoutes ["[c]"; "[a]x/q"; "[b]/q"] = inr routes ∧
    routes.*1 = ["[c]"; "[a]x/q"; "[b]/q"] ∧
    routes_of (router "1x/q") = ["[b]/q"; "[a]x/q"].
Proof. eexists _, _. split_and!; reflexivity. Qed.

(** C1 as stated fails: [buildRoutes] puts [a[p]] before [ab], both match
    the pathname [ab], and the Result of [ab] is yielded first. *)
Lemma sorted_priority_counterexample :
  ∃ routes router,
    buildRoutes ["a[p]"; "ab"] = inr routes ∧
    createRouter ["a[p]"; "ab"] = inr router ∧
    yielded_before "a[p]" "ab" routes.*1 ∧
    "a[p]" ∈ routes_of (router "ab") ∧ "ab" ∈ routes_of (router "ab") ∧
    ¬ yielded_before "a[p]" "ab" (routes_of (router "ab")).
Proof.
  eexists _, _. split; [reflexivity|]. split; [reflexivity|].
  split_and!.
  - exists 0, 1. split_and!; [lia|reflexivity..].
  - vm_compute. apply list_elem_of_In. right. by left.
  - vm_compute. apply list_elem_of_In. by left.
  - intros (k & l & Hkl & Hk & Hl). vm_compute in Hk, Hl.
    destruct k as [|[|k]], l as [|[|l]]; try done; lia.
Qed.

Lemma result_shape_witness :
  ∃ router,
    createRouter ["@[param]/[key]@[value]"] = inr router ∧
    length (result_keys (mkResult "@[param]/[key]@[value]" ["param"; "key"; "value"]
                           ["blake"; "a"; "b@c"])) =
    length (result_values (mkResult "@[param]/[key]@[value]" ["param"; "key"; "value"]
                             ["blake"; "a"; "b@c"])) ∧
    "@[param]/[key]@[value]" ∈ ["@[param]/[key]@[value]"].
Proof.
  eexists. split; [reflexivity|].
  pose proof (result_shape (NT:=sample_table) ["@[param]/[key]@[value]"] _ "@blake/a@b@c"
                (mkResult "@[param]/[key]@[value]" ["param"; "key"; "value"]
                   ["blake"; "a"; "b@c"]) eq_refl) as H.
  destruct H as (H1 & H2 & _).
  - vm_compute. left.
  - split; [exact H1|exact H2].
Defined.

Lemma old_new_equivalence_witness :
  match Old.createRouter ["[a]/a"; "x[b]/b"], createRouter ["[a]/a"; "x[b]/b"] with
  | inr router1, inr router2 => ∀ pathname, router1 pathname = router2 pathname
  | inl e1, inl e2 => e1 = e2
  | _, _ => False
  end.
Proof.
  apply (old_new_equivalence (NT:=sample_table) ["[a]/a"; "x[b]/b"]).
  repeat constructor; vm_compute; intros H%list_elem_of_In; simpl in H; intuition discriminate.
Defined.

(** C5 as stated fails on the empty Segment Path: the earlier
    [createMatch] accepts every input there, the later one the empty
    string only, and for the pattern [a/] the earlier router yields the
    route for the pathname [a/b] while the later one yields nothing. *)
Lemma old_new_counterexample :
  parse "" = inr [] ∧
  Old.createMatch [] "b" = Some [] ∧ createMatch [] "b" = None ∧
  run (Old.createRouter ["a/"]) "a/b" = Some [mkResult "a/" [] []] ∧
  run (createRouter ["a/"]) "a/b" = Some [].
Proof. split_and!; reflexivity. Qed.

Lemma pathToKey_key_iff_witness :
  ((pathToKey [Lit "x"; Param "id"] []).1 = (pathToKey [Lit "x"; Param "name"] ["a"]).1 ↔
   shape [Lit "x"; Param "id"] = shape [Lit "x"; Param "name"]) ∧
  (pathToKey [Lit "x"; Param "id"] []).2 = [] ++ param_names [Lit "x"; Param "id"].
Proof. apply (pathToKey_key_iff (NT:=sample_table) [Lit "x"; Param "id"] [Lit "x"; Param "name"]); reflexivity. Defined.

Lemma createMatch_fill_witness :
  length ["blake"; "a@b"] = length (param_names [Lit "@"; Param "user"; Lit "/"; Param "rest"]) ∧
  ∃ rest, "@blake/a@b" = fill [Lit "@"; Param "user"; Lit "/"; Param "rest"] ["blake"; "a@b"]
                          +:+ rest ∧
          (last_is_param [Lit "@"; Param "user"; Lit "/"; Param "rest"] = true ∨
           [Lit "@"; Param "user"; Lit "/"; Param "rest"] = [] → rest = "").
Proof.
  apply (createMatch_fill [Lit "@"; Param "user"; Lit "/"; Param "rest"] "@blake/a@b");
    reflexivity.
Defined.

Lemma route_independence_witness :
  ∃ router1 router2,
    createRouter ["[page]"; "about"] = inr router1 ∧
    createRouter ["a[x]"; "[page]"] = inr router2 ∧
    (mkResult "[page]" ["page"] ["about"] ∈ router1 "about" ↔
     mkResult "[page]" ["page"] ["about"] ∈ router2 "about").
Proof.
  eexists _, _. split; [reflexivity|]. split; [reflexivity|].
  apply (route_independence (NT:=sample_table) ["[page]"; "about"] ["a[x]"; "[page]"] _ _ "about"
           (mkResult "[page]" ["page"] ["about"]) eq_refl eq_refl); vm_compute.
  - left.
  - right. left.
Defined.

Lemma router_results_witness :
  ∃ router,
    createRouter ["a"; "[param]"; "@[user]/[id]"] = inr router ∧
    (mkResult "@[user]/[id]" ["user"; "id"] ["blake"; "7"] ∈ router "@blake/7" ↔
     ∃ rt paths vss,
       rt ∈ ["a"; "[param]"; "@[user]/[id]"] ∧ segments rt = inr paths ∧
       Forall3 (λ path seg vs, segment_values path seg = Some vs)
         paths (Str.split "/" "@blake/7") vss ∧
       mkResult "@[user]/[id]" ["user"; "id"] ["blake"; "7"] =
       mkResult rt (concat (param_names <$> paths)) (concat vss)).
Proof.
  eexists. split; [reflexivity|].
  apply (router_results (NT:=sample_table) ["a"; "[param]"; "@[user]/[id]"] _ "@blake/7"). reflexivity.
Defined.

Lemma result_values_pieces_witness :
  ∃ router,
    createRouter ["@[user]/[id]"] = inr router ∧
    Forall (λ v, v ≠ "" ∧ char_free "/" v = true ∧
                 ∃ seg a n, seg ∈ Str.split "/" "@blake/7" ∧ v = Str.substring a n seg)
      (result_values (mkResult "@[user]/[id]" ["user"; "id"] ["blake"; "7"])).
Proof.
  eexists. split; [reflexivity|].
  apply (result_values_pieces (NT:=sample_table) ["@[user]/[id]"] _ "@blake/7"
           (mkResult "@[user]/[id]" ["user"; "id"] ["blake"; "7"]) eq_refl).
  vm_compute. left.
Defined.

Lemma result_segment_count_witness :
  ∃ router,
    createRouter ["@[user]/[id]"] = inr router ∧
    length (Str.split "/" (result_route (mkResult "@[user]/[id]" ["user"; "id"]
                                           ["blake"; "7"]))) =
    length (Str.split "/" "@blake/7").
Proof.
  eexists. split; [reflexivity|].
  apply (result_segment_count (NT:=sample_table) ["@[user]/[id]"] _ "@blake/7"
           (mkResult "@[user]/[id]" ["user"; "id"] ["blake"; "7"]) eq_refl).
  vm_compute. left.
Defined.

Lemma static_route_first_witness :
  ∃ router,
    createRouter ["[page]"; "about"; "a[x]"] = inr router ∧
    (∃ rest, router "about" = mkResult "about" [] [] :: rest) ∧
    (∀ pathname res,
       res ∈ router pathname → result_route res = "about" →
       pathname = "about" ∧ res = mkResult "about" [] []).
Proof.
  eexists. split; [reflexivity|].
  apply (static_route_first (NT:=sample_table) ["[page]"; "about"; "a[x]"] _ "about" eq_refl); [|reflexivity].
  vm_compute. right. left.
Defined.

Lemma static_before_dynamic_witness :
  ∃ router,
    createRouter ["x/a[p]"; "x/ab"; "[y]/ab"] = inr router ∧
    yielded_before "x/ab" "x/a[p]" (routes_of (router "x/ab")) ∧
    yielded_before "x/ab" "[y]/ab" (routes_of (router "x/ab")).
Proof.
  eexists. split; [reflexivity|]. split.
  - apply (static_before_dynamic (NT:=sample_table) ["x/a[p]"; "x/ab"; "[y]/ab"] _ "x/ab" "x/ab" "x/a[p]"
             [[Lit "x"]] [[Lit "x"]] [] [] [Lit "ab"] [Lit "a"; Param "p"] eq_refl);
      try reflexivity; vm_compute.
    + left.
    + right. left.
  - apply (static_before_dynamic (NT:=sample_table) ["x/a[p]"; "x/ab"; "[y]/ab"] _ "x/ab" "x/ab" "[y]/ab"
             [] [] [[Lit "ab"]] [[Lit "ab"]] [Lit "x"] [Param "y"] eq_refl);
      try reflexivity; vm_compute.
    + left.
    + right. right. left.
Defined.

Lemma createMatch_ignores_tail_witness :
  createMatch [Lit "a"; Param "p"; Lit "b"] ("aXb" +:+ "Y") = Some ["X"].
Proof. by apply (createMatch_ignores_tail [Lit "a"; Param "p"; Lit "b"] "aXb" "Y"). Defined.

Lemma dynamic_order_witness :
  ∃ router,
    createRouter ["[b]"; "[a]x"] = inr router ∧
    yielded_before "[a]x" "[b]" (routes_of (router "1x")).
Proof.
  eexists. split; [reflexivity|].
  apply (dynamic_order (NT:=sample_table) ["[b]"; "[a]x"] _
           [("[a]x", [[Param "a"; Lit "x"]]); ("[b]", [[Param "b"]])]
           [] [("[b]", [[Param "b"]])] ("[a]x", [[Param "a"; Lit "x"]])
           "1x" "[a]x" "[b]" [] [] [] [] [Param "a"; Lit "x"] [Param "b"] eq_refl);
    try reflexivity.
  - vm_compute. left.
  - vm_compute. right. left.
  - exists []. reflexivity.
  - repeat constructor. intros [k Hk]. vm_compute in Hk. discriminate Hk.
Defined.

Lemma matchers_shared_witness :
  ∃ root,
    buildTrie ["[a]/[b]"; "x/[c]"] = inr root ∧
    ∀ trans1 trans2 n1 n2 fn1 fn2 c1 c2,
      reach root trans1 n1 → (fn1, c1) ∈ dynamic n1 →
      reach root trans2 n2 → (fn2, c2) ∈ dynamic n2 →
      (fn_id fn1 = fn_id fn2 → fn1 = fn2) ∧
      fn_id fn1 = (pathToKey (fn_path fn1) []).1 ∧
      canonical (fn_path fn1) = true ∧ is_dynamic (fn_path fn1) = true.
Proof.
  eexists. split; [reflexivity|].
  apply (matchers_shared (NT:=sample_table) ["[a]/[b]"; "x/[c]"]). reflexivity.
Defined.

Lemma addToTrie_contract_witness :
  ∃ root1 cache1,
    addToTrie emptyNode [[Param "a"]] "[a]" ∅ = inr (root1, cache1) ∧
    addToTrie root1 [[Param "b"]] "[b]" cache1 = inl (DuplicateRoute "[b]") ∧
    ∃ root2 cache2,
      addToTrie root1 [[Param "b"]; [Lit "x"]] "[b]/x" cache1 = inr (root2, cache2) ∧
      route_at root2 (steps_of [[Param "a"]]) = Some "[a]" ∧
      route_at root2 (steps_of [[Param "c"]; [Lit "x"]]) = Some "[b]/x".
Proof.
  pose proof (addToTrie_contract emptyNode [[Param "a"]] "[a]" ∅
                cache_ids_empty (trie_cached_empty ∅)) as H1.
  rewrite route_at_empty in H1.
  destruct H1 as (root1 & cache1 & Hadd1 & Hat1 & _ & _ & Hids1 & Hcached1).
  exists root1, cache1. split; [exact Hadd1|].
  pose proof (addToTrie_contract root1 [[Param "b"]] "[b]" cache1 Hids1 Hcached1) as H2.
  rewrite Hat1, decide_True in H2 by reflexivity. split; [exact H2|].
  pose proof (addToTrie_contract root1 [[Param "b"]; [Lit "x"]] "[b]/x" cache1
                Hids1 Hcached1) as H3.
  rewrite Hat1, decide_False, route_at_empty in H3 by (intros [=]).
  destruct H3 as (root2 & cache2 & Hadd2 & Hat2 & _).
  exists root2, cache2. split; [exact Hadd2|]. split.
  - rewrite Hat2, decide_False by (intros [=]).
    rewrite Hat1. by rewrite decide_True.
  - rewrite Hat2. by rewrite decide_True.
Defined.

Lemma segments_roundtrip_witness :
  segments "a/[id]" = inr [[Lit "a"]; [Param "id"]] ↔
  [[Lit "a"]; [Param "id"]] ≠ [] ∧
  Forall (λ p, canonical p = true ∧ literals_free "/" p = true) [[Lit "a"]; [Param "id"]] ∧
  Str.concat "/" (serialize <$> [[Lit "a"]; [Param "id"]]) = "a/[id]".
Proof. apply (segments_roundtrip (NT:=sample_table) "a/[id]"). reflexivity. Defined.

(** C4 as stated fails.  The routes [[b]] and [[c]x] have one segment
    each and a parameter first; the rules of the claim name no position
    at which only one segment has a token, so they leave the two routes
    equal and rule (3) has them keep their input order; [buildRoutes]
    puts [[c]x] first.  The routes [Ａ] (U+FF21) and [𠀀] (U+20000) are
    literals; by code point [Ａ] is the smaller, and [buildRoutes] puts
    [𠀀] first, whose first code unit, a surrogate, is the smaller. *)
Lemma sorting_rules_counterexample :
  claimed_compare [[Param "b"]] [[Param "c"; Lit "x"]] = 0%Z ∧
  buildRoutes ["[b]"; "[c]x"] =
    inr [("[c]x", [[Param "c"; Lit "x"]]); ("[b]", [[Param "b"]])] ∧
  codepoints "Ａ" = [65313%N] ∧ codepoints "𠀀" = [131072%N] ∧
  (claimed_compare [[Lit "Ａ"]] [[Lit "𠀀"]] < 0)%Z ∧
  buildRoutes ["Ａ"; "𠀀"] = inr [("𠀀", [[Lit "𠀀"]]); ("Ａ", [[Lit "Ａ"]])].
Proof. split_and!; reflexivity. Qed.

Lemma sample_table_no_surrogate c : is_surrogate c = true → sample_table c = false.
Proof.
  destruct c as [n]. unfold is_surrogate, sample_table. simpl.
  intros [H1 H2]%andb_prop. apply N.leb_le in H1, H2.
  repeat match goal with
         | |- _ || _ = false => apply orb_false_intro
         | |- _ && _ = false => apply andb_false_iff
         end;
    try (right; apply N.leb_gt; lia); try (apply N.eqb_neq; lia).
Qed.

Lemma parse_surrogate_witness :
  parse "[𠀀]" = inl (InvalidNameChar 1) ∧
  message (InvalidNameChar 1) = "Invalid name character at 1".
Proof.
  destruct (parse_surrogate (NT:=sample_table) sample_table_no_surrogate)
    as (_ & _ & H1 & H2).
  split; [exact H1|exact H2].
Defined.

(** ** The test suite of the repository, on the model *)

Example test_parse_simple :
  parse "test" = inr [Lit "test"] ∧ parse "@blake" = inr [Lit "@blake"].
Proof. split; reflexivity. Qed.

Example test_parse_dynamic :
  parse "[test]" = inr [Param "test"] ∧ parse "[123]" = inr [Param "123"] ∧
  parse "[你好]" = inr [Param "你好"] ∧
  "你好" = String (Char 20320) (String (Char 22909) "").
Proof. split_and!; reflexivity. Qed.

Example test_parse_mixed :
  parse "foo[test]" = inr [Lit "foo"; Param "test"] ∧
  parse "![test]" = inr [Lit "!"; Param "test"] ∧
  parse "@[test]" = inr [Lit "@"; Param "test"] ∧
  parse "[test]bar" = inr [Param "test"; Lit "bar"] ∧
  parse "foo[test]bar" = inr [Lit "foo"; Param "test"; Lit "bar"] ∧
  parse "[key]@[value]" = inr [Param "key"; Lit "@"; Param "value"].
Proof. split_and!; reflexivity. Qed.

Example test_parse_errors :
  sum_map message id (parse "[]") = inl "Missing parameter name at 1" ∧
  sum_map message id (parse "[[]]") = inl "Invalid name character at 1" ∧
  sum_map message id (parse "[.]") = inl "Invalid name character at 1" ∧
  sum_map message id (parse "[/]") = inl "Invalid name character at 1" ∧
  sum_map message id (parse "[@]") = inl "Invalid name character at 1" ∧
  sum_map message id (parse "[test") = inl "Missing parameter name close character at 5" ∧
  sum_map message id (parse "[a][b]") =
    inl "A parameter must not immediately follow another paramter at 3".
Proof. split_and!; reflexivity. Qed.

Example test_createMatch_string :
  createMatch [Lit "test"] "" = None ∧ createMatch [Lit "test"] "123" = None ∧
  createMatch [Lit "test"] "test" = Some [] ∧ createMatch [Lit "test"] "fail" = None.
Proof. split_and!; reflexivity. Qed.

Example test_createMatch_dynamic :
  createMatch [Param "foo"] "" = None ∧
  createMatch [Param "foo"] "123" = Some ["123"] ∧
  createMatch [Param "foo"] "abc" = Some ["abc"].
Proof. split_and!; reflexivity. Qed.

Example test_createMatch_parts :
  let m := createMatch [Param "key"; Lit "@"; Param "value"] in
  m "123" = None ∧ m "foo@bar" = Some ["foo"; "bar"] ∧
  m "foo@bar@baz" = Some ["foo"; "bar@baz"] ∧ m "@bar" = None ∧ m "foo@" = None ∧
  m "@@bar" = None ∧ m "@foo@bar" = None ∧ m "foo@@" = Some ["foo"; "@"].
Proof. split_and!; reflexivity. Qed.

Example test_createMatch_after_static :
  let m := createMatch [Lit "@"; Param "value"] in
  m "blake" = None ∧ m "@blake" = Some ["blake"] ∧ m "@blake@test" = Some ["blake@test"].
Proof. split_and!; reflexivity. Qed.

Example test_buildRoutes :
  sum_map id (fmap fst)
    (buildRoutes ["[a]/[b]/[c]"; "@[key1]/[key2]"; "c"; "@[param]/[key]@[value]"; "b";
                  "[param]"; "@[param]"; "@[key]/y"; "a"; "@[param]/x";
                  "@[key1]/@[key2]"]) =
  inr ["@[param]"; "a"; "b"; "c"; "[param]"; "@[key1]/@[key2]"; "@[param]/x";
       "@[key]/y"; "@[param]/[key]@[value]"; "@[key1]/[key2]"; "[a]/[b]/[c]"].
Proof. vm_compute. reflexivity. Qed.

Example test_router_order :
  let router := createRouter ["/foo"; "/[param]"; "/bar"] in
  run router "/foo" = Some [mkResult "/foo" [] []; mkResult "/[param]" ["param"] ["foo"]] ∧
  run router "/bar" = Some [mkResult "/bar" [] []; mkResult "/[param]" ["param"] ["bar"]] ∧
  run router "/123" = Some [mkResult "/[param]" ["param"] ["123"]] ∧
  run router "/foo/bar" = Some [].
Proof. split_and!; vm_compute; reflexivity. Qed.

Example test_router_duplicate :
  sum_map message (λ _, ()) (createRouter ["[a]"; "[b]"]) =
  inl "Route is already defined for [b]".
Proof. vm_compute. reflexivity. Qed.

Example test_router_static_under_dynamic :
  let router := createRouter ["[a]/a"; "[b]/b"] in
  run router "foo/a" = Some [mkResult "[a]/a" ["a"] ["foo"]] ∧
  run router "foo/b" = Some [mkResult "[b]/b" ["b"] ["foo"]] ∧
  run router "foo" = Some [] ∧ run router "foo/" = Some [] ∧ run router "foo/c" = Some [].
Proof. split_and!; vm_compute; reflexivity. Qed.

Example test_router_multiple_dynamic :
  let router := createRouter ["[a]/[b]"] in
  run router "foo/bar" = Some [mkResult "[a]/[b]" ["a"; "b"] ["foo"; "bar"]] ∧
  run router "foo" = Some [] ∧ run router "foo/" = Some [] ∧
  run router "foo/bar/baz" = Some [].
Proof. split_and!; vm_compute; reflexivity. Qed.

Example test_router_priority :
  let router := createRouter ["[param]/route"; "@[param]/[param]"; "@[param]/route"] in
  run router "123/route" = Some [mkResult "[param]/route" ["param"] ["123"]] ∧
  run router "@123/route" =
    Some [mkResult "@[param]/route" ["param"] ["123"];
          mkResult "@[param]/[param]" ["param"; "param"] ["123"; "route"];
          mkResult "[param]/route" ["param"] ["@123"]].
Proof. split_and!; vm_compute; reflexivity. Qed.
